(** * Gmail-MCP: the IMAP service (imap-service.ts)

    A shallow embedding of [ImapService]: identifier resolution, the raw
    fetch exchange, attachment classification and placement, and the three
    entry points [downloadAttachments], [peekMessages] and
    [getMessageContent], together with the properties the specification
    states about them.

    Conventions of the embedding.
    - A JavaScript string is a [string]; each character stands for one
      UTF-16 code unit in the range 0..255 (Latin-1).  Text obtained by
      decoding a buffer as UTF-8 can hold any code unit and is a [list N].
    - A [Buffer] is a [list byte].
    - A JavaScript number that the service manipulates is always an integer
      or NaN/Infinity: see [Number].
    - The collaborators (IMAP transport, mailparser, the file system,
      node:path, the random generator, the regular-expression matcher) are
      the fields of [Env]; the mutable state is [World]. *)

From Stdlib Require Import ZArith NArith List String Ascii Bool Lia.
From Stdlib.Strings Require Import Byte.
Import ListNotations.

Local Open Scope string_scope.
Local Open Scope Z_scope.

(** ** ECMAScript and Node built-ins used by the service *)

Module JS.

(** *** Strings *)

Definition code (c : ascii) : N := N_of_ascii c.

(** WhiteSpace and LineTerminator code units below 256: TAB, LF, VT, FF, CR,
    SP and NBSP. *)
Definition isWhiteSpace (c : ascii) : bool :=
  let n := code c in
  ((9 <=? n) && (n <=? 13))%N || (n =? 32)%N || (n =? 160)%N.

Fixpoint trimStart (s : string) : string :=
  match s with
  | EmptyString => EmptyString
  | String c rest => if isWhiteSpace c then trimStart rest else s
  end.

Definition reverse (s : string) : string :=
  string_of_list_ascii (rev (list_ascii_of_string s)).

Definition trimEnd (s : string) : string := reverse (trimStart (reverse s)).

(** [String.prototype.trim] *)
Definition trim (s : string) : string := trimEnd (trimStart s).

(** Lower-case mapping of one code unit below 256: A-Z, and the Latin-1
    capitals U+00C0..U+00DE except the multiplication sign U+00D7. *)
Definition lowerChar (c : ascii) : ascii :=
  let n := code c in
  if ((65 <=? n) && (n <=? 90))%N
     || ((192 <=? n) && (n <=? 222) && negb (n =? 215))%N
  then ascii_of_N (n + 32) else c.

(** [String.prototype.toLowerCase] *)
Fixpoint toLowerCase (s : string) : string :=
  match s with
  | EmptyString => EmptyString
  | String c rest => String (lowerChar c) (toLowerCase rest)
  end.

(** [s.startsWith(p)] *)
Definition startsWith (s p : string) : bool := String.prefix p s.

(** [s.endsWith(p)] *)
Definition endsWith (s p : string) : bool :=
  String.prefix (reverse p) (reverse s).

(** [s.includes(sub)] *)
Definition includes (s sub : string) : bool :=
  match String.index 0 sub s with
  | Some _ => true
  | None => match sub with EmptyString => true | _ => false end
  end.

(** [s.slice(1, -1)] *)
Definition slice_1_m1 (s : string) : string :=
  String.substring 1 (String.length s - 2) s.

(** [s.slice(0, -2)] *)
Definition slice_0_m2 (s : string) : string :=
  String.substring 0 (String.length s - 2) s.

(** A string is falsy exactly when it is empty. *)
Definition truthy (s : string) : bool :=
  match s with EmptyString => false | _ => true end.

(** [x || undefined] for an optional string [x] *)
Definition orUndefined (x : option string) : option string :=
  match x with
  | Some s => if truthy s then Some s else None
  | None => None
  end.

(** [x || d] for an optional string [x] *)
Definition orElse (x : option string) (d : string) : string :=
  match orUndefined x with Some s => s | None => d end.

(** [parts.join(sep)] *)
Fixpoint join (sep : string) (parts : list string) : string :=
  match parts with
  | [] => ""
  | [p] => p
  | p :: rest => p ++ sep ++ join sep rest
  end.

(** *** Numbers *)

(** The values a number of the service can take: every one of them comes
    from [Number.parseInt] or from a search reply, so it is an integer (a
    double whose value is that integer), NaN or an infinity.  Negative zero
    is identified with zero: the service only tests such a value with [> 0]
    and [!]. *)
Inductive Number :=
| NaN
| Num (z : Z)
| PosInf
| NegInf.

(** Rounding of a non-negative integer to the nearest double, ties to even;
    integers below 2^53 are exact, and the result overflows to Infinity from
    2^1024. *)
Definition toDouble (m : Z) : Number :=
  if m <? 2 ^ 53 then Num m
  else
    let e := Z.log2 m - 52 in
    let q := m / 2 ^ e in
    let r := m mod 2 ^ e in
    let half := 2 ^ (e - 1) in
    let q' := if (half <? r) || ((r =? half) && Z.odd q) then q + 1 else q in
    let v := q' * 2 ^ e in
    if 2 ^ 1024 <=? v then PosInf else Num v.

Definition negate (x : Number) : Number :=
  match x with
  | NaN => NaN
  | Num z => Num (- z)
  | PosInf => NegInf
  | NegInf => PosInf
  end.

Definition isDigit (c : ascii) : bool :=
  let n := code c in ((48 <=? n) && (n <=? 57))%N.

Definition digitValue (c : ascii) : Z := Z.of_N (code c) - 48.

(** The longest prefix of decimal digits of [s]: whether there is at least
    one digit, and the integer they denote after the digits in [acc]. *)
Fixpoint digits (s : string) (seen : bool) (acc : Z) : bool * Z :=
  match s with
  | String c rest =>
      if isDigit c then digits rest true (10 * acc + digitValue c)
      else (seen, acc)
  | EmptyString => (seen, acc)
  end.

(** An optional sign in front of a numeral: whether it is a minus, and what
    follows it. *)
Definition sign (t : string) : bool * string :=
  match t with
  | String c rest =>
      if Ascii.eqb c "-" then (true, rest)
      else if Ascii.eqb c "+" then (false, rest)
      else (false, t)
  | EmptyString => (false, t)
  end.

(** [Number.parseInt(s, 10)]: leading white space is skipped, one sign is
    read, then the longest run of decimal digits; what follows the digits is
    ignored, and no digit at all gives NaN. *)
Definition parseInt10 (s : string) : Number :=
  let '(neg, body) := sign (trimStart s) in
  match digits body false 0 with
  | (false, _) => NaN
  | (true, m) => if neg then negate (toDouble m) else toDouble m
  end.

(** [Number.isFinite] *)
Definition isFinite (x : Number) : bool :=
  match x with Num _ => true | _ => false end.

(** [x > 0] *)
Definition gt0 (x : Number) : bool :=
  match x with
  | Num z => 0 <? z
  | PosInf => true
  | _ => false
  end.

(** Decimal digits of a natural number, most significant first. *)
Fixpoint decimalDigits (fuel : nat) (n : Z) (acc : string) : string :=
  match fuel with
  | O => acc
  | S fuel' =>
      let acc' := String (ascii_of_N (Z.to_N (48 + n mod 10))) acc in
      if n <? 10 then acc' else decimalDigits fuel' (n / 10) acc'
  end.

Definition decimal (n : Z) : string :=
  decimalDigits (S (Z.to_nat (Z.log2 n))) n "".

(** Number of decimal digits of a positive integer. *)
Definition numDigits (n : Z) : Z := Z.of_nat (String.length (decimal n)).

(** [Number::toString] of a double whose value is the positive integer [v],
    [v >= 10^21]: the least [k] and the digits [s], [10^(k-1) <= s < 10^k],
    with [s * 10^(n-k)] rounding to [v] (the nearer to [v] of the two
    candidates when both do), printed in exponent form.  [shortest] returns
    [s] and [n]; [n0] is the number of digits of [v], and rounding [s] up to
    [10^k] moves to the next decade. *)
Fixpoint shortest (fuel : nat) (k : Z) (n0 : Z) (v : Z) : Z * Z :=
  let scale := 10 ^ (n0 - k) in
  let lo := v / scale in
  let hi := lo + 1 in
  let ok s := match toDouble (s * scale) with
              | Num w => w =? v
              | _ => false
              end in
  let lo_closer := (v - lo * scale <=? hi * scale - v) in
  let up := if hi =? 10 ^ k then (10 ^ (k - 1), n0 + 1) else (hi, n0) in
  match fuel with
  | O => (lo, n0)
  | S fuel' =>
      if ok lo && (lo_closer || negb (ok hi)) then (lo, n0)
      else if ok hi then up
      else shortest fuel' (k + 1) n0 v
  end.

Definition exponential (v : Z) : string :=
  let '(s, n) := shortest 17 1 (numDigits v) v in
  let ds := decimal s in
  let mantissa :=
    match ds with
    | String d EmptyString => ds
    | String d rest => String d (String "." rest)
    | EmptyString => ds
    end in
  mantissa ++ "e+" ++ decimal (n - 1).

Fixpoint zeros (n : nat) : string :=
  match n with
  | O => ""
  | S n' => String "0" (zeros n')
  end.

(** The same digits for [2^53 <= v < 10^21], where they are printed without
    exponent: the digits [s], then zeros up to the [n] digits of [v]. *)
Definition padded (v : Z) : string :=
  let '(s, n) := shortest 17 1 (numDigits v) v in
  let ds := decimal s in
  ds ++ zeros (Z.to_nat n - String.length ds).

(** [Number.prototype.toString] on an integer-valued number.  Below 2^53
    every integer is a double, no shorter numeral rounds to it, and its
    digits are printed as they are; from there on the digits printed are
    the shortest that round to the number. *)
Definition Number_toString (z : Z) : string :=
  if z =? 0 then "0"
  else
    let a := Z.abs z in
    let body := if a <? 2 ^ 53 then decimal a
                else if a <? 10 ^ 21 then padded a
                else exponential a in
    if z <? 0 then "-" ++ body else body.

(** *** Buffers *)

Definition Buffer := list byte.

Definition byteN (b : byte) : N := Byte.to_N b.

Definition byteOf (n : N) : byte :=
  match Byte.of_N (n mod 256) with Some b => b | None => x00 end.

(** [buf.toString('utf8')] decodes with replacement, as the WHATWG UTF-8
    decoder does: each maximal ill-formed prefix becomes one U+FFFD.  The
    state of the decoder between two bytes is the code point being
    assembled, the continuation bytes still needed, and the range allowed
    for the next byte. *)
Record Utf8State := {
  u_cp : N;
  u_needed : nat;
  u_lower : N;
  u_upper : N
}.

Definition utf8_idle : Utf8State :=
  {| u_cp := 0; u_needed := 0; u_lower := 128; u_upper := 191 |}.

(** UTF-16 code units of one code point. *)
Definition utf16 (cp : N) : list N :=
  if (cp <? 65536)%N then [cp]
  else
    let c := (cp - 65536)%N in
    [(55296 + c / 1024)%N; (56320 + c mod 1024)%N].

Definition replacement : N := 65533.

(** A byte read when no sequence is open. *)
Definition utf8_lead (b : N) : list N * Utf8State :=
  if (b <? 128)%N then ([b], utf8_idle)
  else if ((194 <=? b) && (b <=? 223))%N then
    ([], {| u_cp := N.land b 31; u_needed := 1; u_lower := 128; u_upper := 191 |})
  else if ((224 <=? b) && (b <=? 239))%N then
    ([], {| u_cp := N.land b 15; u_needed := 2;
            u_lower := if (b =? 224)%N then 160 else 128;
            u_upper := if (b =? 237)%N then 159 else 191 |})
  else if ((240 <=? b) && (b <=? 244))%N then
    ([], {| u_cp := N.land b 7; u_needed := 3;
            u_lower := if (b =? 240)%N then 144 else 128;
            u_upper := if (b =? 244)%N then 143 else 191 |})
  else ([replacement], utf8_idle).

(** One byte of input: an ill-formed sequence is replaced by U+FFFD once, at
    its maximal well-formed prefix, and the offending byte is read again as
    the start of a sequence. *)
Definition utf8_step (st : Utf8State) (b : N) : list N * Utf8State :=
  match u_needed st with
  | O => utf8_lead b
  | S k =>
      if ((u_lower st <=? b) && (b <=? u_upper st))%N then
        let cp := (N.shiftl (u_cp st) 6 + N.land b 63)%N in
        match k with
        | O => (utf16 cp, utf8_idle)
        | S _ => ([], {| u_cp := cp; u_needed := k;
                         u_lower := 128; u_upper := 191 |})
        end
      else
        let '(out, st') := utf8_lead b in (replacement :: out, st')
  end.

Fixpoint utf8_decode (st : Utf8State) (bs : Buffer) : list N :=
  match bs with
  | [] => match u_needed st with O => [] | S _ => [replacement] end
  | b :: rest =>
      let '(out, st') := utf8_step st (byteN b) in
      (out ++ utf8_decode st' rest)%list
  end.

(** [buf.toString('utf8')] *)
Definition toString_utf8 (buf : Buffer) : list N := utf8_decode utf8_idle buf.

(** UTF-8 encoding of one code unit below 256. *)
Definition utf8_encode_unit (c : ascii) : Buffer :=
  let n := code c in
  if (n <? 128)%N then [byteOf n]
  else [byteOf (192 + n / 64); byteOf (128 + n mod 64)].

(** [Buffer.from(s)] for a string [s]: its UTF-8 encoding. *)
Fixpoint Buffer_from_string (s : string) : Buffer :=
  match s with
  | EmptyString => []
  | String c rest => (utf8_encode_unit c ++ Buffer_from_string rest)%list
  end.

(** [Buffer.from(a)] for an array of integers: each entry modulo 256. *)
Definition Buffer_from_array (a : list Z) : Buffer :=
  map (fun z => byteOf (Z.to_N (z mod 256))) a.

(** [Buffer.concat(chunks)] *)
Definition Buffer_concat (chunks : list Buffer) : Buffer := List.concat chunks.

(** The string whose code units are the bytes of [buf], one for one. *)
Definition latin1 (buf : Buffer) : string :=
  string_of_list_ascii (map ascii_of_byte buf).

(** *** Regular expressions *)

(** A [RegExp] object: its pattern, its flags and the mutable [lastIndex]. *)
Record RegExp := {
  re_source : string;
  re_flags : string;
  re_lastIndex : nat
}.

(** The pattern matcher itself is a collaborator: whether a pattern with
    given flags is rejected (and with which message), and whether it matches
    an input at a given position, giving the end of the match. *)
Record Matcher := {
  syntaxError : string -> string -> option string;
  matchAt : string -> string -> string -> nat -> option nat
}.

Definition hasFlag (flags f : string) : bool := includes flags f.

Definition isStateful (flags : string) : bool :=
  hasFlag flags "g" || hasFlag flags "y".

(** The search of RegExpBuiltinExec: positions [i], [i+1], ... up to the
    length of the input are tried in turn; a sticky expression tries only
    the first. *)
Fixpoint scan (m : Matcher) (source flags input : string)
    (fuel : nat) (i : nat) : option nat :=
  if (String.length input <? i)%nat then None
  else
    match matchAt m source flags input i with
    | Some e => Some e
    | None =>
        if hasFlag flags "y" then None
        else match fuel with
             | O => None
             | S fuel' => scan m source flags input fuel' (S i)
             end
    end.

(** [r.test(input)]: the verdict and the expression with its [lastIndex]
    updated.  Without the [g] and [y] flags the search starts at 0 and
    [lastIndex] is left alone; with one of them it starts at [lastIndex],
    which a match moves to its end and a failure resets to 0. *)
Definition test (m : Matcher) (r : RegExp) (input : string) : bool * RegExp :=
  let stateful := isStateful (re_flags r) in
  let start := if stateful then re_lastIndex r else O in
  let set_last i :=
    if stateful
    then {| re_source := re_source r; re_flags := re_flags r; re_lastIndex := i |}
    else r in
  match scan m (re_source r) (re_flags r) input (String.length input) start with
  | Some e => (true, set_last e)
  | None => (false, set_last O)
  end.

(** [new RegExp(source, flags)]: a SyntaxError message or a fresh object. *)
Definition RegExp_new (m : Matcher) (source flags : string) : string + RegExp :=
  match syntaxError m source flags with
  | Some msg => inl msg
  | None => inr {| re_source := source; re_flags := flags; re_lastIndex := 0 |}
  end.

End JS.

(** ** Collaborators and state *)

(** What a [catch] clause can receive: an [Error] object with its message,
    or any other value. *)
Inductive Thrown :=
| ErrorObject (message : string)
| OtherValue.

(** [error instanceof Error ? error.message : 'Unknown error'] *)
Definition errorMessage (e : Thrown) : string :=
  match e with
  | ErrorObject m => m
  | OtherValue => "Unknown error"
  end.

(** How a callback-based exchange of the transport ends: the callback is
    never called, it is called with an error, or with a result. *)
Inductive Reply (A : Type) :=
| Silent
| Failed (e : Thrown)
| Replied (a : A).
Arguments Silent {A}.
Arguments Failed {A} e.
Arguments Replied {A} a.

(** A chunk delivered by a body stream is typed [any]: a Buffer, or a value
    [Buffer.from] accepts, a string or an array of integers. *)
Inductive Chunk :=
| ChunkBuffer (b : JS.Buffer)
| ChunkString (s : string)
| ChunkArray (a : list Z).

(** Events of one fetch exchange, in the order they are delivered: a message
    with the chunks of its body stream, an error, the end. *)
Inductive FetchEvent :=
| EvMessage (body : list Chunk)
| EvError (e : Thrown)
| EvEnd.

Record FetchOptions := {
  bodies : string;
  struct : bool;
  markSeen : bool
}.

(** The requests the service sends to its collaborators. *)
Inductive Action :=
| AConnect
| AOpenBox (mailbox : string) (readOnly : bool)
| ASearch (header value : string)
| AFetch (uid : Z) (opts : FetchOptions)
| AEnd
| AWriteFile (path : string) (data : JS.Buffer).

(** mailparser's [Attachment], with the fields the service reads. *)
Record Attachment := {
  filename : option string;
  contentType : option string;
  content : JS.Buffer;
  size : option Z;
  contentDisposition : option string;
  cid : option string
}.

(** An address header as mailparser gives it: absent, one address object or
    an array of them, each with an optional [text]. *)
Inductive AddressField :=
| AddrUndefined
| AddrObject (text : option string)
| AddrArray (texts : list (option string)).

(** mailparser's [ParsedMail].  [html] is a string or [false]; a [date] is a
    Date object, whose [toISOString] gives a string or throws. *)
Record ParsedMail := {
  attachments : option (list Attachment);
  subject : option string;
  from : AddressField;
  to : AddressField;
  date : option (Thrown + string);
  messageId : option string;
  html : option string;
  text : option string;
  textAsHtml : option string
}.

(** The collaborators.  Every reply may depend on [tick], the number of
    requests made before it, so that a collaborator can answer the same
    request differently over time.

    [connectionError t] is the ['error'] event of a connection that became
    ready at tick [t]: the error it emits afterwards, while the promise of
    its batch operation is still pending, or [None] when it emits none.
    [join] is [join] of node:path, which joins and normalizes as the
    platform has it. *)
Record Env := {
  connectReply : nat -> Reply unit;
  connectionError : nat -> option Thrown;
  openBoxReply : nat -> string -> bool -> Reply unit;
  searchReply : nat -> string -> string -> Reply (option (list Z));
  fetchEvents : nat -> Z -> FetchOptions -> list FetchEvent;
  simpleParser : JS.Buffer -> Thrown + ParsedMail;
  writeFileReply : nat -> string -> JS.Buffer -> option Thrown;
  randomBytes6 : nat -> JS.Buffer;
  tmpdir : string;
  join : string -> string -> string;
  matcher : JS.Matcher
}.

(** The state an operation runs in.  [connected] tells whether the
    operation's connection is open, [readOnlyBox] how its mailbox was
    opened, [flagged] which messages the store has marked [\Seen] on behalf
    of this client, and [lastIndex] is the [lastIndex] of the RegExp object
    held by the attachment predicate. *)
Record World := {
  tick : nat;
  trace : list Action;
  connected : bool;
  readOnlyBox : bool;
  flagged : list Z;
  lastIndex : nat
}.

Definition request (a : Action) (w : World) : World :=
  {| tick := S (tick w); trace := trace w ++ [a];
     connected := connected w; readOnlyBox := readOnlyBox w;
     flagged := flagged w; lastIndex := lastIndex w |}.

(** The world after a draw from the random generator. *)
Definition drawn (w : World) : World :=
  {| tick := S (tick w); trace := trace w;
     connected := connected w; readOnlyBox := readOnlyBox w;
     flagged := flagged w; lastIndex := lastIndex w |}.

Definition setConnected (b : bool) (w : World) : World :=
  {| tick := tick w; trace := trace w;
     connected := b; readOnlyBox := readOnlyBox w;
     flagged := flagged w; lastIndex := lastIndex w |}.

Definition setReadOnlyBox (b : bool) (w : World) : World :=
  {| tick := tick w; trace := trace w;
     connected := connected w; readOnlyBox := b;
     flagged := flagged w; lastIndex := lastIndex w |}.

Definition setFlagged (l : list Z) (w : World) : World :=
  {| tick := tick w; trace := trace w;
     connected := connected w; readOnlyBox := readOnlyBox w;
     flagged := l; lastIndex := lastIndex w |}.

Definition setLastIndex (i : nat) (w : World) : World :=
  {| tick := tick w; trace := trace w;
     connected := connected w; readOnlyBox := readOnlyBox w;
     flagged := flagged w; lastIndex := i |}.

(** *** Promises as a state and exception monad *)

(** An awaited computation yields a value, throws (its promise rejects), or
    never settles. *)
Inductive Completion (A : Type) :=
| Value (a : A)
| Throw (e : Thrown)
| Hang.
Arguments Value {A} a.
Arguments Throw {A} e.
Arguments Hang {A}.

Definition M (A : Type) : Type := World -> Completion A * World.

Definition ret {A} (a : A) : M A := fun w => (Value a, w).

Definition throw {A} (e : Thrown) : M A := fun w => (Throw e, w).

Definition bind {A B} (c : M A) (k : A -> M B) : M B :=
  fun w =>
    match c w with
    | (Value a, w') => k a w'
    | (Throw e, w') => (Throw e, w')
    | (Hang, w') => (Hang, w')
    end.

(** [try { c } catch (error) { h error }] *)
Definition tryCatch {A} (c : M A) (h : Thrown -> M A) : M A :=
  fun w =>
    match c w with
    | (Throw e, w') => h e w'
    | r => r
    end.

Declare Scope promise_scope.
Delimit Scope promise_scope with promise.
Notation "x <- c ;; k" := (bind c (fun x => k))
  (at level 61, c at next level, right associativity) : promise_scope.
Notation "c ;;; k" := (bind c (fun _ => k))
  (at level 61, right associativity) : promise_scope.
Local Open Scope promise_scope.

(** Awaiting a callback-based exchange. *)
Definition await {A} (r : Reply A) : M A :=
  match r with
  | Silent => fun w => (Hang, w)
  | Failed e => throw e
  | Replied a => ret a
  end.

(** [buf.toString('hex')] *)
Definition hexDigit (n : N) : ascii :=
  if (n <? 10)%N then ascii_of_N (48 + n) else ascii_of_N (87 + n).

Fixpoint toString_hex (buf : JS.Buffer) : string :=
  match buf with
  | [] => ""
  | b :: rest =>
      String (hexDigit (JS.byteN b / 16))
        (String (hexDigit (JS.byteN b mod 16)) (toString_hex rest))
  end.

(** [filename.replace(/[\\\/]/g, '_')] *)
Fixpoint replaceSeparators (s : string) : string :=
  match s with
  | EmptyString => EmptyString
  | String c rest =>
      String (if (Ascii.eqb c "\") || (Ascii.eqb c "/") then "_"%char else c)
             (replaceSeparators rest)
  end.

(** ** The service *)

Inductive IdType := MessageIdType | UidType.

(** [AttachmentFilterParams] of types.ts *)
Record AttachmentFilterParams := {
  name : option string;
  nameContains : option string;
  nameRegex : option string;
  nameRegexFlags : option string;
  mimeTypes : option (list string)
}.

(** What the closure returned by [buildAttachmentPredicate] captures.
    [p_nameRegex] holds the source and flags of the RegExp object, whose
    [lastIndex] lives in the [World]. *)
Record Captured := {
  normalizedName : option string;
  normalizedContains : option string;
  p_nameRegex : option (string * string);
  normalizedMimeTypes : list string
}.

(** [None] is the predicate [() => true] of an absent filter. *)
Definition Predicate := option Captured.

(** [AttachmentResult] of types.ts *)
Record AttachmentResult := {
  ar_filename : option string;
  ar_contentType : string;
  ar_size : Z;
  ar_contentDisposition : option string;
  ar_contentId : option string;
  ar_savedTo : option string;
  ar_inlineContent : option (list N)
}.

(** [MessageAttachmentsResult] of types.ts *)
Record MessageAttachmentsResult := {
  mar_id : string;
  mar_idType : IdType;
  mar_mailbox : string;
  mar_found : bool;
  mar_uid : option string;
  mar_attachments : list AttachmentResult;
  mar_error : option string
}.

(** [AttachmentMeta] of types.ts *)
Record AttachmentMeta := {
  am_filename : option string;
  am_contentType : string;
  am_size : Z;
  am_contentDisposition : option string;
  am_contentId : option string
}.

(** [MessagePeekResult] of types.ts *)
Record MessagePeekResult := {
  mpr_id : string;
  mpr_idType : IdType;
  mpr_mailbox : string;
  mpr_found : bool;
  mpr_uid : option string;
  mpr_subject : option string;
  mpr_from : option string;
  mpr_to : option string;
  mpr_date : option string;
  mpr_messageId : option string;
  mpr_hasHtml : option bool;
  mpr_hasText : option bool;
  mpr_htmlSize : option Z;
  mpr_textSize : option Z;
  mpr_attachmentCount : Z;
  mpr_attachments : list AttachmentMeta;
  mpr_error : option string
}.

Inductive Format := FormatHtml | FormatText | FormatRaw.

(** The body of a content result: a string of the parsed mail, or the raw
    message decoded as UTF-8. *)
Inductive Body :=
| BodyString (s : string)
| BodyDecoded (units : list N).

(** [MessageContentResult] of types.ts *)
Record MessageContentResult := {
  mcr_id : string;
  mcr_format : Format;
  mcr_body : Body;
  mcr_mailbox : string;
  mcr_rawFilePath : option string;
  mcr_rawSize : option Z;
  mcr_hasHtml : option bool;
  mcr_hasText : option bool
}.

Section Service.

Variable E : Env.

(** [htmlToText] (the chain of regular-expression replacements that renders
    HTML as text) is kept abstract: it only shapes the body string of a
    content result. *)
Variable htmlToText : string -> string.

(** *** Requests to the collaborators *)

(** [imap.connect()]: the 'ready' event, or the connection's 'error'. *)
Definition imap_connect : M unit :=
  fun w =>
    match connectReply E (tick w) with
    | Replied _ => (Value tt, setConnected true (request AConnect w))
    | Failed e => (Throw e, request AConnect w)
    | Silent => (Hang, request AConnect w)
    end.

(** [imap.openBox(mailbox, readOnly, callback)] *)
Definition imap_openBox (mailbox : string) (readOnly : bool) : M unit :=
  fun w =>
    let w' := request (AOpenBox mailbox readOnly) w in
    match openBoxReply E (tick w) mailbox readOnly with
    | Replied _ => (Value tt, setReadOnlyBox readOnly w')
    | Failed e => (Throw e, w')
    | Silent => (Hang, w')
    end.

(** [imap.end()] *)
Definition imap_end : M unit :=
  fun w => (Value tt, setConnected false (request AEnd w)).

(** [imap.search([['HEADER', header, value]], callback)] *)
Definition imap_search (header value : string) : M (option (list Z)) :=
  fun w =>
    await (searchReply E (tick w) header value) (request (ASearch header value) w).

(** [imap.fetch([uid], opts)]: the events the exchange will deliver.  The
    store marks the message [\Seen] when the fetch asks for it and the
    mailbox is open read-write. *)
Definition imap_fetch (uid : Z) (opts : FetchOptions) : M (list FetchEvent) :=
  fun w =>
    let w' := request (AFetch uid opts) w in
    let w'' := if markSeen opts && negb (readOnlyBox w)
               then setFlagged (uid :: flagged w) w' else w' in
    (Value (fetchEvents E (tick w) uid opts), w'').

(** [fs.writeFile(path, data)] *)
Definition fs_writeFile (path : string) (data : JS.Buffer) : M unit :=
  fun w =>
    let w' := request (AWriteFile path data) w in
    match writeFileReply E (tick w) path data with
    | Some e => (Throw e, w')
    | None => (Value tt, w')
    end.

(** [randomBytes(6).toString('hex')] *)
Definition randomToken : M string :=
  fun w => (Value (toString_hex (randomBytes6 E (tick w))), drawn w).

(** [await simpleParser(raw)] *)
Definition parseMail (raw : JS.Buffer) : M ParsedMail :=
  match simpleParser E raw with
  | inl e => throw e
  | inr mail => ret mail
  end.

(** *** Helpers of the class *)

Definition normalizeMessageIds (messageIds : string + list string) : list string :=
  match messageIds with
  | inl one => [one]
  | inr many => many
  end.

Definition buildMessageIdCandidates (messageId : string) : list string :=
  let trimmed := JS.trim messageId in
  if negb (JS.truthy trimmed) then []
  else
    let hasBrackets := JS.startsWith trimmed "<" && JS.endsWith trimmed ">" in
    if hasBrackets then
      let stripped := JS.slice_1_m1 trimmed in
      if JS.truthy stripped then [trimmed; stripped] else [trimmed]
    else ["<" ++ trimmed ++ ">"; trimmed].

(** [buildAttachmentPredicate]: an invalid pattern throws; otherwise the
    closure is returned, and the RegExp object it holds is fresh. *)
Definition buildAttachmentPredicate (filter : option AttachmentFilterParams)
  : M Predicate :=
  match filter with
  | None => ret None
  | Some f =>
      let normalized (re : option (string * string)) : Captured :=
        {| normalizedName := option_map JS.toLowerCase (name f);
           normalizedContains := option_map JS.toLowerCase (nameContains f);
           p_nameRegex := re;
           normalizedMimeTypes :=
             match mimeTypes f with
             | Some l => map JS.toLowerCase l
             | None => []
             end |} in
      match JS.orUndefined (nameRegex f) with
      | Some source =>
          let flags := JS.orElse (nameRegexFlags f) "" in
          match JS.RegExp_new (matcher E) source flags with
          | inl msg => throw (ErrorObject ("Invalid nameRegex: " ++ msg))
          | inr r =>
              fun w => (Value (Some (normalized (Some (source, flags)))),
                        setLastIndex (JS.re_lastIndex r) w)
          end
      | None => ret (Some (normalized None))
      end
  end.

Definition isTruthy (x : option string) : bool :=
  match JS.orUndefined x with Some _ => true | None => false end.

(** The content-type test of the predicate, lines 86-95. *)
Definition mimeMatches (c : Captured) (a : Attachment) : bool :=
  match normalizedMimeTypes c with
  | [] => true
  | mimes =>
      let contentType := JS.orElse (option_map JS.toLowerCase (contentType a)) "" in
      existsb (fun mime =>
                 if JS.endsWith mime "/*"
                 then JS.startsWith contentType (JS.slice_0_m2 mime)
                 else String.eqb contentType mime) mimes
  end.

(** [nameRegex.test(filename)] on the object held by the closure. *)
Definition testNameRegex (re : string * string) (filename : string) : M bool :=
  fun w =>
    let r := {| JS.re_source := fst re; JS.re_flags := snd re;
                JS.re_lastIndex := lastIndex w |} in
    let '(b, r') := JS.test (matcher E) r filename in
    (Value b, setLastIndex (JS.re_lastIndex r') w).

(** One call of the predicate. *)
Definition predicate (p : Predicate) (a : Attachment) : M bool :=
  match p with
  | None => ret true
  | Some c =>
      if isTruthy (normalizedName c) || isTruthy (normalizedContains c)
         || match p_nameRegex c with Some _ => true | None => false end
      then
        let filename := JS.orElse (filename a) "" in
        let lowerFilename := JS.toLowerCase filename in
        if isTruthy (normalizedName c)
           && negb (String.eqb lowerFilename (JS.orElse (normalizedName c) ""))
        then ret false
        else if isTruthy (normalizedContains c)
                && negb (JS.includes lowerFilename (JS.orElse (normalizedContains c) ""))
        then ret false
        else
          match p_nameRegex c with
          | Some re =>
              ok <- testNameRegex re filename ;;
              if negb ok then ret false else ret (mimeMatches c a)
          | None => ret (mimeMatches c a)
          end
      else ret (mimeMatches c a)
  end.

(** [attachments.filter(predicate)] *)
Fixpoint Array_filter (p : Predicate) (l : list Attachment) : M (list Attachment) :=
  match l with
  | [] => ret []
  | a :: rest =>
      keep <- predicate p a ;;
      kept <- Array_filter p rest ;;
      ret (if keep then a :: kept else kept)
  end.

Definition shouldInlineTextAttachment (contentType : string) (content : JS.Buffer) : bool :=
  let normalized := JS.toLowerCase contentType in
  let isText := JS.startsWith normalized "text/" in
  let isMarkdown := JS.startsWith normalized "text/markdown"
                    || JS.startsWith normalized "text/x-markdown"
                    || JS.startsWith normalized "text/md" in
  let isOtherInline :=
    String.eqb normalized "application/json"
    || String.eqb normalized "application/xml"
    || String.eqb normalized "text/xml"
    || String.eqb normalized "application/yaml"
    || String.eqb normalized "application/x-yaml" in
  if negb isText && negb isMarkdown && negb isOtherInline then false
  else
    let text := JS.toString_utf8 content in
    (List.length text <? 1000)%nat.

Definition writeAttachmentToTemp (content : JS.Buffer) (filename : string) (uid : string)
  : M string :=
  token <- randomToken ;;
  let replaced := replaceSeparators filename in
  let safeName := if JS.truthy replaced then replaced
                  else "attachment-" ++ uid ++ "-" ++ token in
  let filePath := join E (tmpdir E) (token ++ "-" ++ safeName) in
  fs_writeFile filePath content ;;;
  ret filePath.

(** *** The raw fetch exchange *)

(** [Buffer.isBuffer(chunk) ? chunk : Buffer.from(chunk)] *)
Definition coerce (chunk : Chunk) : JS.Buffer :=
  match chunk with
  | ChunkBuffer b => b
  | ChunkString s => JS.Buffer_from_string s
  | ChunkArray a => JS.Buffer_from_array a
  end.

(** The variables of the promise executor of [fetchRawByUid]: [chunks] and
    [found], the listeners registered with [once] that have already run,
    and the settlement of the promise (the first one wins). *)
Record Exchange := {
  chunks : list JS.Buffer;
  found : bool;
  errorSeen : bool;
  endSeen : bool;
  settled : option (Thrown + JS.Buffer)
}.

Definition pending : Exchange :=
  {| chunks := []; found := false; errorSeen := false; endSeen := false;
     settled := None |}.

Definition settle {A} (now : Thrown + A) (before : option (Thrown + A))
  : option (Thrown + A) :=
  match before with
  | Some _ => before
  | None => Some now
  end.

Definition onFetchEvent (uid : Z) (x : Exchange) (ev : FetchEvent) : Exchange :=
  match ev with
  | EvMessage body =>
      {| chunks := (chunks x ++ map coerce body)%list; found := true;
         errorSeen := errorSeen x; endSeen := endSeen x; settled := settled x |}
  | EvError err =>
      if errorSeen x then x
      else {| chunks := chunks x; found := found x;
              errorSeen := true; endSeen := endSeen x;
              settled := settle (inl err) (settled x) |}
  | EvEnd =>
      if endSeen x then x
      else {| chunks := chunks x; found := found x;
              errorSeen := errorSeen x; endSeen := true;
              settled :=
                settle
                  (if negb (found x)
                   then inl (ErrorObject ("Message not found for UID: "
                                          ++ JS.Number_toString uid))
                   else inr (JS.Buffer_concat (chunks x)))
                  (settled x) |}
  end.

Definition peekOptions : FetchOptions :=
  {| bodies := ""; struct := false; markSeen := false |}.

Definition awaitSettled {A} (s : option (Thrown + A)) : M A :=
  match s with
  | Some (inl e) => throw e
  | Some (inr a) => ret a
  | None => fun w => (Hang, w)
  end.

Definition fetchRawByUid (uid : Z) : M JS.Buffer :=
  events <- imap_fetch uid peekOptions ;;
  awaitSettled (settled (fold_left (onFetchEvent uid) events pending)).

(** *** Identifier resolution *)

Definition searchUidsByHeader (header value : string) : M (list Z) :=
  results <- imap_search header value ;;
  ret (match results with Some l => l | None => [] end).

Fixpoint searchCandidates (candidates : list string) : M (option Z) :=
  match candidates with
  | [] => ret None
  | candidate :: rest =>
      results <- searchUidsByHeader "MESSAGE-ID" candidate ;;
      match results with
      | first :: _ => ret (Some first)
      | [] => searchCandidates rest
      end
  end.

Definition resolveUidForMessageId (messageId : string) : M (option Z) :=
  searchCandidates (buildMessageIdCandidates messageId).

Definition writeRawToTemp (raw : JS.Buffer) (uid : Z) : M (string * Z) :=
  token <- randomToken ;;
  let filename := "message-" ++ JS.Number_toString uid ++ "-" ++ token ++ ".eml" in
  let filePath := join E (tmpdir E) filename in
  fs_writeFile filePath raw ;;;
  ret (filePath, Z.of_nat (List.length raw)).

(** Lines 456-462 and 585-591: the handle of one identifier of a batch. *)
Definition resolveUid (idType : IdType) (id : string) : M (option Z) :=
  match idType with
  | UidType =>
      let parsed := JS.parseInt10 id in
      ret (if JS.isFinite parsed && JS.gt0 parsed
           then match parsed with JS.Num z => Some z | _ => None end
           else None)
  | MessageIdType => resolveUidForMessageId id
  end.

(** [!uid] for a handle that is a number or [null] *)
Definition missing (uid : option Z) : bool :=
  match uid with
  | None => true
  | Some z => z =? 0
  end.

(** *** downloadAttachments *)

(** The inner loop, lines 479-508. *)
Fixpoint processAttachments (uid : Z) (matching : list Attachment)
    (processed : list AttachmentResult) : M (list AttachmentResult) :=
  match matching with
  | [] => ret processed
  | attachment :: rest =>
      let content := content attachment in
      let contentType := JS.orElse (contentType attachment) "application/octet-stream" in
      let size := match size attachment with
                  | Some n => n
                  | None => Z.of_nat (List.length content)
                  end in
      let effectiveName :=
        JS.orElse (filename attachment) ("attachment-" ++ JS.Number_toString uid) in
      if shouldInlineTextAttachment contentType content then
        processAttachments uid rest
          (processed ++
           [{| ar_filename := Some effectiveName;
               ar_contentType := contentType;
               ar_size := size;
               ar_contentDisposition := JS.orUndefined (contentDisposition attachment);
               ar_contentId := JS.orUndefined (cid attachment);
               ar_savedTo := None;
               ar_inlineContent := Some (JS.toString_utf8 content) |}])%list
      else
        savedTo <- writeAttachmentToTemp content effectiveName (JS.Number_toString uid) ;;
        processAttachments uid rest
          (processed ++
           [{| ar_filename := Some effectiveName;
               ar_contentType := contentType;
               ar_size := size;
               ar_contentDisposition := JS.orUndefined (contentDisposition attachment);
               ar_contentId := JS.orUndefined (cid attachment);
               ar_savedTo := Some savedTo;
               ar_inlineContent := None |}])%list
  end.

(** The [try] block of one identifier, lines 456-517: it ends by pushing one
    record on [results]. *)
Definition downloadTry (p : Predicate) (idType : IdType) (mailbox id : string)
    (results : list MessageAttachmentsResult) : M (list MessageAttachmentsResult) :=
  uid <- resolveUid idType id ;;
  if missing uid then
    ret (results ++
         [{| mar_id := id; mar_idType := idType; mar_mailbox := mailbox;
             mar_found := false; mar_uid := None; mar_attachments := [];
             mar_error := None |}])%list
  else
    let uid := match uid with Some z => z | None => 0 end in
    rawBuffer <- fetchRawByUid uid ;;
    parsedMail <- parseMail rawBuffer ;;
    matching <- Array_filter p
                  (match attachments parsedMail with Some l => l | None => [] end) ;;
    processed <- processAttachments uid matching [] ;;
    ret (results ++
         [{| mar_id := id; mar_idType := idType; mar_mailbox := mailbox;
             mar_found := true; mar_uid := Some (JS.Number_toString uid);
             mar_attachments := processed; mar_error := None |}])%list.

(** The [catch] block, lines 518-527. *)
Definition downloadCatch (idType : IdType) (mailbox id : string)
    (results : list MessageAttachmentsResult) (error : Thrown)
  : M (list MessageAttachmentsResult) :=
  ret (results ++
       [{| mar_id := id; mar_idType := idType; mar_mailbox := mailbox;
           mar_found := false; mar_uid := None; mar_attachments := [];
           mar_error := Some (errorMessage error) |}])%list.

(** [run], lines 451-531. *)
Fixpoint runDownload (p : Predicate) (idType : IdType) (mailbox : string)
    (ids : list string) (results : list MessageAttachmentsResult)
  : M (list MessageAttachmentsResult) :=
  match ids with
  | [] => ret results
  | id :: rest =>
      results' <- tryCatch (downloadTry p idType mailbox id results)
                           (downloadCatch idType mailbox id results) ;;
      runDownload p idType mailbox rest results'
  end.

(** [run().then(...).catch(...)], lines 533-541: the connection is ended
    when [run] resolves and when it rejects. *)
Definition thenEnd {A} (run : M A) : M A :=
  fun w =>
    match run w with
    | (Value results, w') => (Value results, snd (imap_end w'))
    | (Throw runError, w') => (Throw runError, snd (imap_end w'))
    | (Hang, w') => (Hang, w')
    end.

(** [imap.once('error', (err) => reject(err))], lines 543-545 and 673-675.
    The listener is registered before [connect] and is still armed once the
    connection is ready, so the promise of a batch operation has a source of
    settlement outside the loop and its [try]/[catch]: when the connection
    emits an error while the promise is pending, the promise rejects with
    it.  What was started goes on as the store answers it (the requests of
    [pending] are made all the same), but its outcome comes too late and is
    dropped. *)
Definition orConnectionError {A} (pending : M A) : M A :=
  fun w =>
    match pending w with
    | (outcome, w') =>
        match connectionError E (tick w) with
        | Some err => (Throw err, w')
        | None => (outcome, w')
        end
    end.

Definition downloadAttachments (messageIds : string + list string) (idType : IdType)
    (filter : option AttachmentFilterParams) (mailbox : string)
  : M (list MessageAttachmentsResult) :=
  let ids := normalizeMessageIds messageIds in
  p <- buildAttachmentPredicate filter ;;
  imap_connect ;;;
  orConnectionError
    (imap_openBox mailbox true ;;;
     thenEnd (runDownload p idType mailbox ids [])).

(** *** peekMessages *)

(** [attachments.map((attachment, index) => ...)], lines 609-615; [index]
    is the position of the entry. *)
Fixpoint attachmentMetas (uid : Z) (index : Z) (l : list Attachment)
  : list AttachmentMeta :=
  match l with
  | [] => []
  | attachment :: rest =>
      {| am_filename :=
           Some (JS.orElse (filename attachment)
                   ("attachment-" ++ JS.Number_toString uid ++ "-"
                    ++ JS.Number_toString (index + 1)));
         am_contentType :=
           JS.orElse (contentType attachment) "application/octet-stream";
         am_size := match size attachment with
                    | Some n => n
                    | None => Z.of_nat (List.length (content attachment))
                    end;
         am_contentDisposition := JS.orUndefined (contentDisposition attachment);
         am_contentId := JS.orUndefined (cid attachment) |}
      :: attachmentMetas uid (index + 1) rest
  end.

(** [formatAddress], lines 620-627. *)
Definition formatAddress (addr : AddressField) : option string :=
  match addr with
  | AddrUndefined => None
  | AddrArray texts =>
      let parts :=
        flat_map (fun t => match JS.orUndefined t with
                           | Some s => [s]
                           | None => []
                           end) texts in
      match parts with
      | [] => None
      | _ => Some (JS.join ", " parts)
      end
  | AddrObject text => JS.orUndefined text
  end.

Definition stringLength (s : string) : Z := Z.of_nat (String.length s).

(** The [try] block of one identifier, lines 585-646. *)
Definition peekTry (idType : IdType) (mailbox id : string)
    (results : list MessagePeekResult) : M (list MessagePeekResult) :=
  uid <- resolveUid idType id ;;
  if missing uid then
    ret (results ++
         [{| mpr_id := id; mpr_idType := idType; mpr_mailbox := mailbox;
             mpr_found := false; mpr_uid := None; mpr_subject := None;
             mpr_from := None; mpr_to := None; mpr_date := None;
             mpr_messageId := None; mpr_hasHtml := None; mpr_hasText := None;
             mpr_htmlSize := None; mpr_textSize := None;
             mpr_attachmentCount := 0; mpr_attachments := [];
             mpr_error := None |}])%list
  else
    let uid := match uid with Some z => z | None => 0 end in
    rawBuffer <- fetchRawByUid uid ;;
    parsedMail <- parseMail rawBuffer ;;
    let attachmentMeta :=
      attachmentMetas uid 0
        (match attachments parsedMail with Some l => l | None => [] end) in
    let htmlString := match html parsedMail with Some h => h | None => "" end in
    let textString := JS.orElse (text parsedMail) "" in
    isoDate <- match date parsedMail with
               | None => ret None
               | Some (inl rangeError) => throw rangeError
               | Some (inr iso) => ret (Some iso)
               end ;;
    ret (results ++
         [{| mpr_id := id; mpr_idType := idType; mpr_mailbox := mailbox;
             mpr_found := true; mpr_uid := Some (JS.Number_toString uid);
             mpr_subject := JS.orUndefined (subject parsedMail);
             mpr_from := formatAddress (from parsedMail);
             mpr_to := formatAddress (to parsedMail);
             mpr_date := isoDate;
             mpr_messageId := JS.orUndefined (messageId parsedMail);
             mpr_hasHtml := Some (isTruthy (html parsedMail));
             mpr_hasText := Some (isTruthy (text parsedMail));
             mpr_htmlSize := Some (stringLength htmlString);
             mpr_textSize := Some (stringLength textString);
             mpr_attachmentCount := Z.of_nat (List.length attachmentMeta);
             mpr_attachments := attachmentMeta;
             mpr_error := None |}])%list.

(** The [catch] block, lines 647-657. *)
Definition peekCatch (idType : IdType) (mailbox id : string)
    (results : list MessagePeekResult) (error : Thrown)
  : M (list MessagePeekResult) :=
  ret (results ++
       [{| mpr_id := id; mpr_idType := idType; mpr_mailbox := mailbox;
           mpr_found := false; mpr_uid := None; mpr_subject := None;
           mpr_from := None; mpr_to := None; mpr_date := None;
           mpr_messageId := None; mpr_hasHtml := None; mpr_hasText := None;
           mpr_htmlSize := None; mpr_textSize := None;
           mpr_attachmentCount := 0; mpr_attachments := [];
           mpr_error := Some (errorMessage error) |}])%list.

(** [run], lines 580-661. *)
Fixpoint runPeek (idType : IdType) (mailbox : string)
    (ids : list string) (results : list MessagePeekResult)
  : M (list MessagePeekResult) :=
  match ids with
  | [] => ret results
  | id :: rest =>
      results' <- tryCatch (peekTry idType mailbox id results)
                           (peekCatch idType mailbox id results) ;;
      runPeek idType mailbox rest results'
  end.

Definition peekMessages (messageIds : string + list string) (idType : IdType)
    (mailbox : string) : M (list MessagePeekResult) :=
  let ids := normalizeMessageIds messageIds in
  imap_connect ;;;
  orConnectionError
    (imap_openBox mailbox true ;;;
     thenEnd (runPeek idType mailbox ids [])).

(** *** getMessageContent *)

(** [x <= 0] *)
Definition le0 (x : JS.Number) : bool :=
  match x with
  | JS.Num z => z <=? 0
  | JS.NegInf => true
  | _ => false
  end.

(** [finalize], lines 710-767, run with the current [foundMessage] and
    [rawChunks]. *)
Definition finalize (id : string) (format : Format) (saveRawToFile : bool)
    (mailbox : string) (uid : Z) (foundMessage : bool) (rawChunks : list JS.Buffer)
  : M MessageContentResult :=
  if negb foundMessage then
    throw (ErrorObject ("Message not found for id: " ++ id))
  else
    let rawBuffer := JS.Buffer_concat rawChunks in
    rendered <-
      match format with
      | FormatRaw => ret (BodyDecoded (JS.toString_utf8 rawBuffer), None, None)
      | FormatHtml =>
          parsed <- parseMail rawBuffer ;;
          ret (BodyString
                 match html parsed with
                 | Some h => h
                 | None =>
                     match JS.orUndefined (textAsHtml parsed) with
                     | Some t => t
                     | None => JS.orElse (text parsed) ""
                     end
                 end,
               Some (isTruthy (html parsed)), Some (isTruthy (text parsed)))
      | FormatText =>
          parsed <- parseMail rawBuffer ;;
          ret (BodyString
                 match JS.orUndefined (text parsed) with
                 | Some t => t
                 | None =>
                     match html parsed with
                     | Some h => htmlToText h
                     | None =>
                         match JS.orUndefined (textAsHtml parsed) with
                         | Some t => htmlToText t
                         | None => ""
                         end
                     end
                 end,
               Some (isTruthy (html parsed)), Some (isTruthy (text parsed)))
      end ;;
    let '(body, hasHtml, hasText) := rendered in
    saved <- (if saveRawToFile
              then s <- writeRawToTemp rawBuffer uid ;;
                   ret (Some (fst s), Some (snd s))
              else ret (None, None)) ;;
    ret {| mcr_id := id; mcr_format := format; mcr_body := body;
           mcr_mailbox := mailbox;
           mcr_rawFilePath := fst saved; mcr_rawSize := snd saved;
           mcr_hasHtml := hasHtml; mcr_hasText := hasText |}.

(** The variables of the promise executor of [getMessageContent]. *)
Record ContentExchange := {
  rawChunks : list JS.Buffer;
  foundMessage : bool;
  c_errorSeen : bool;
  c_endSeen : bool;
  c_settled : option (Thrown + MessageContentResult)
}.

(** The listeners of lines 782-800.  The 'end' listener ends the connection
    and runs [finalize], whose outcome settles the promise unless the
    'error' listener already rejected it. *)
Definition onContentEvent (id : string) (format : Format) (saveRawToFile : bool)
    (mailbox : string) (uid : Z) (st : ContentExchange * World) (ev : FetchEvent)
  : ContentExchange * World :=
  let '(x, w) := st in
  match ev with
  | EvMessage body =>
      ({| rawChunks := (rawChunks x ++ map coerce body)%list; foundMessage := true;
          c_errorSeen := c_errorSeen x; c_endSeen := c_endSeen x;
          c_settled := c_settled x |}, w)
  | EvError fetchErr =>
      if c_errorSeen x then (x, w)
      else ({| rawChunks := rawChunks x; foundMessage := foundMessage x;
               c_errorSeen := true; c_endSeen := c_endSeen x;
               c_settled := settle (inl fetchErr) (c_settled x) |}, w)
  | EvEnd =>
      if c_endSeen x then (x, w)
      else
        let w1 := snd (imap_end w) in
        let '(outcome, w2) :=
          finalize id format saveRawToFile mailbox uid
                   (foundMessage x) (rawChunks x) w1 in
        ({| rawChunks := rawChunks x; foundMessage := foundMessage x;
            c_errorSeen := c_errorSeen x; c_endSeen := true;
            c_settled := match outcome with
                         | Value result => settle (inr result) (c_settled x)
                         | Throw e => settle (inl e) (c_settled x)
                         | Hang => c_settled x
                         end |}, w2)
  end.

(** [getMessageContent], lines 686-810.  The listener of its connection,
    the callback of [openBox] and the error listener of its fetch reject the
    one promise of the call, each with the error it receives: an error of
    the connection shows here as the error reply of [openBox] or as an
    error event of the exchange. *)
Definition getMessageContent (id : string) (format : Format) (saveRawToFile : bool)
    (mailbox : string) : M MessageContentResult :=
  let parsed := JS.parseInt10 id in
  if negb (JS.isFinite parsed) || le0 parsed then
    throw (ErrorObject ("Invalid message id: " ++ id))
  else
    let uid := match parsed with JS.Num z => z | _ => 0 end in
    imap_connect ;;;
    imap_openBox mailbox true ;;;
    events <- imap_fetch uid peekOptions ;;
    fun w =>
      let '(x, w') :=
        fold_left (onContentEvent id format saveRawToFile mailbox uid) events
          ({| rawChunks := []; foundMessage := false; c_errorSeen := false;
              c_endSeen := false; c_settled := None |}, w) in
      awaitSettled (c_settled x) w'.

End Service.

(** ** A concrete store, used to run the service on examples *)

Module Demo.

Definition bytesOf (s : string) : JS.Buffer :=
  map byte_of_ascii (list_ascii_of_string s).

Fixpoint sameBytes (a b : JS.Buffer) : bool :=
  match a, b with
  | [], [] => true
  | x :: a', y :: b' => Byte.eqb x y && sameBytes a' b'
  | _, _ => false
  end.

Definition pdf (fname body : string) : Attachment :=
  {| filename := Some fname; contentType := Some "application/pdf";
     content := bytesOf body; size := None;
     contentDisposition := Some "attachment"; cid := None |}.

Definition note : Attachment :=
  {| filename := Some "notes.txt"; contentType := Some "text/plain";
     content := bytesOf "hello"; size := None;
     contentDisposition := Some "attachment"; cid := None |}.

Definition mailWith (l : list Attachment) : ParsedMail :=
  {| attachments := Some l; subject := Some "Report";
     from := AddrObject (Some "a@example.com");
     to := AddrArray [Some "b@example.com"; Some "c@example.com"];
     date := Some (inr "2025-01-20T10:00:00.000Z");
     messageId := Some "<a@b>"; html := None; text := Some "see attached";
     textAsHtml := Some "<p>see attached</p>" |}.

(** Message 7 carries two PDFs and a note; message 8 carries two PDFs, the
    second of which the file system refuses to write. *)
Definition mail7 : ParsedMail :=
  mailWith [pdf "report.pdf" "%PDF-1"; note; pdf "x.pdf" "%PDF-2"].

Definition mail8 : ParsedMail :=
  mailWith [pdf "first.pdf" "%PDF-3"; pdf "second.pdf" "DISK-FULL"].

(** A matcher for patterns without metacharacter: the pattern matches at
    [i] when the input continues with it there.  The pattern ["("] does not
    compile. *)
Definition literal : JS.Matcher :=
  {| JS.syntaxError := fun source _ =>
       if String.eqb source "("
       then Some "Invalid regular expression: /(/: Unterminated group"
       else None;
     JS.matchAt := fun source _ input i =>
       if String.prefix source
            (String.substring i (String.length input - i) input)
       then Some (i + String.length source)%nat else None |}.

Definition env : Env :=
  {| connectReply := fun _ => Replied tt;
     connectionError := fun _ => None;
     openBoxReply := fun _ mailbox _ =>
       if String.eqb mailbox "INBOX" then Replied tt
       else Failed (ErrorObject "Unknown Mailbox");
     searchReply := fun _ _ value =>
       Replied (Some (if String.eqb value "<a@b>" then [7] else []));
     fetchEvents := fun _ uid _ =>
       ((if uid =? 7 then [EvMessage [ChunkBuffer (bytesOf "raw-"); ChunkBuffer (bytesOf "7")]]
         else if uid =? 8 then [EvMessage [ChunkBuffer (bytesOf "raw-8")]]
         else if uid =? 9 then [EvMessage [ChunkString (String (ascii_of_N 233) "")]]
         else if uid =? 10 then [EvError (ErrorObject "connection reset")]
         else []) ++ [EvEnd])%list;
     simpleParser := fun raw =>
       if sameBytes raw (bytesOf "raw-7") then inr mail7
       else if sameBytes raw (bytesOf "raw-8") then inr mail8
       else inr (mailWith []);
     writeFileReply := fun _ _ data =>
       if sameBytes data (bytesOf "DISK-FULL")
       then Some (ErrorObject "ENOSPC: no space left on device, write")
       else None;
     randomBytes6 := fun t => [x0a; x1b; x2c; x3d; x4e; JS.byteOf (N.of_nat t)];
     tmpdir := "/tmp";
     join := fun dir name => dir ++ "/" ++ name;
     matcher := literal |}.

Definition world0 : World :=
  {| tick := 0; trace := []; connected := false; readOnlyBox := false;
     flagged := []; lastIndex := 0 |}.

Definition render (h : string) : string := h.

(** Filters used in the examples. *)
Definition byGlobalPattern : AttachmentFilterParams :=
  {| name := None; nameContains := None; nameRegex := Some "pdf";
     nameRegexFlags := Some "g"; mimeTypes := None |}.

Definition bySubstringAndType : AttachmentFilterParams :=
  {| name := None; nameContains := Some "PDF"; nameRegex := None;
     nameRegexFlags := None; mimeTypes := Some ["Application/*"] |}.

Definition images : AttachmentFilterParams :=
  {| name := None; nameContains := None; nameRegex := None;
     nameRegexFlags := None; mimeTypes := Some ["image/*"] |}.

Definition reportImages : AttachmentFilterParams :=
  {| name := None; nameContains := Some "report"; nameRegex := None;
     nameRegexFlags := None; mimeTypes := Some ["image/*"] |}.

Definition typed (fname type : string) : Attachment :=
  {| filename := Some fname; contentType := Some type;
     content := []; size := None; contentDisposition := None; cid := None |}.

End Demo.

(** ** htmlToText *)

Module Html.

(** Case folding of the [i] flag, for a code unit below 256 compared with
    an ASCII pattern character: only A-Z fold, onto a-z. *)
Definition foldCase (c : ascii) : ascii :=
  let n := JS.code c in
  if ((65 <=? n) && (n <=? 90))%N then ascii_of_N (n + 32) else c.

(** Whether [s] continues with the literal [pattern], letter case apart. *)
Fixpoint literalAt (pattern s : string) : bool :=
  match pattern with
  | EmptyString => true
  | String p pattern' =>
      match s with
      | EmptyString => false
      | String c s' => Ascii.eqb (foldCase p) (foldCase c) && literalAt pattern' s'
      end
  end.

(** Index of the first occurrence of [pattern] in [s], letter case apart. *)
Fixpoint find (pattern s : string) : option nat :=
  if literalAt pattern s then Some O
  else
    match s with
    | EmptyString => None
    | String _ rest => option_map S (find pattern rest)
    end.

Fixpoint drop (n : nat) (s : string) : string :=
  match n with
  | O => s
  | S n' => match s with
            | EmptyString => EmptyString
            | String _ rest => drop n' rest
            end
  end.

(** The patterns of [htmlToText].  Each one tells whether a match starts at
    the beginning of [s], and how long it is. *)

(** [/<script[\s\S]*?<\/script>/i] and [/<style[\s\S]*?<\/style>/i]: the
    opener, then as little as possible up to the closer. *)
Definition block (opener closer s : string) : option nat :=
  if literalAt opener s then
    match find closer (drop (String.length opener) s) with
    | Some j => Some (String.length opener + j + String.length closer)%nat
    | None => None
    end
  else None.

(** A literal pattern with the [i] flag. *)
Definition literal (pattern s : string) : option nat :=
  if literalAt pattern s then Some (String.length pattern) else None.

(** [/<br\s*\/?>/i] *)
Definition lineBreak (s : string) : option nat :=
  if literalAt "<br" s then
    let after := drop 3 s in
    let rest := JS.trimStart after in
    let spaces := (String.length after - String.length rest)%nat in
    match rest with
    | String c rest' =>
        if Ascii.eqb c ">" then Some (3 + spaces + 1)%nat
        else if Ascii.eqb c "/" then
          match rest' with
          | String c' _ => if Ascii.eqb c' ">" then Some (3 + spaces + 2)%nat else None
          | EmptyString => None
          end
        else None
    | EmptyString => None
    end
  else None.

(** Index of the first [>] of [s]. *)
Fixpoint closing (s : string) : option nat :=
  match s with
  | EmptyString => None
  | String c rest => if Ascii.eqb c ">" then Some O else option_map S (closing rest)
  end.

(** [/<[^>]+>/] *)
Definition tag (s : string) : option nat :=
  match s with
  | String c rest =>
      if Ascii.eqb c "<" then
        match closing rest with
        | Some (S j) => Some (S j + 2)%nat
        | _ => None
        end
      else None
  | EmptyString => None
  end.

(** [s.replace(pattern, replacement)] for a pattern with the [g] flag that
    matches no empty string: the matches are taken from left to right,
    without overlap.  [skip] counts the characters of the current match
    still to pass over. *)
Fixpoint replaceAll (pattern : string -> option nat) (replacement : string)
    (s : string) (skip : nat) : string :=
  match s with
  | EmptyString => EmptyString
  | String c rest =>
      match skip with
      | S k => replaceAll pattern replacement rest k
      | O =>
          match pattern s with
          | Some (S n) => replacement ++ replaceAll pattern replacement rest n
          | _ => String c (replaceAll pattern replacement rest O)
          end
      end
  end.

Definition replace (pattern : string -> option nat) (replacement s : string) : string :=
  replaceAll pattern replacement s O.

Definition LF : string := String (ascii_of_nat 10) EmptyString.

Definition quote : string := String (ascii_of_nat 34) EmptyString.

(** The passes of [htmlToText] before the final [trim], in order. *)
Definition removeScripts : string -> string := replace (block "<script" "</script>") "".
Definition removeStyles : string -> string := replace (block "<style" "</style>") "".
Definition breakParagraphs : string -> string := replace (literal "</p>") (LF ++ LF).
Definition breakLines : string -> string := replace lineBreak LF.
Definition stripTags : string -> string := replace tag "".
Definition decodeEntities (s : string) : string :=
  replace (literal "&#39;") "'"
    (replace (literal "&quot;") quote
       (replace (literal "&gt;") ">"
          (replace (literal "&lt;") "<"
             (replace (literal "&amp;") "&"
                (replace (literal "&nbsp;") " " s))))).

Definition htmlToText (html : string) : string :=
  JS.trim
    (decodeEntities
       (stripTags (breakLines (breakParagraphs (removeStyles (removeScripts html)))))).

End Html.

(** ** EmailOperations (email-operations.ts), the read operations *)

(** The parameters of the tools, as the schemas of types.ts deliver them
    (defaults filled in). *)
Record GetMessageParams := {
  gm_id : string;
  gm_format : Format;
  gm_saveRawToFile : bool;
  gm_mailbox : string
}.

Record DownloadAttachmentsParams := {
  da_messageIds : string + list string;
  da_idType : IdType;
  da_mailbox : string;
  da_filter : option AttachmentFilterParams
}.

Record PeekMessageParams := {
  pm_messageIds : string + list string;
  pm_idType : IdType;
  pm_mailbox : string
}.

Module EmailOperations.

Definition getMessage (E : Env) (params : GetMessageParams) : M MessageContentResult :=
  tryCatch
    (getMessageContent E Html.htmlToText (gm_id params) (gm_format params)
       (gm_saveRawToFile params) (gm_mailbox params))
    (fun error =>
       throw (ErrorObject ("Failed to fetch message content: " ++ errorMessage error))).

Definition downloadAttachments (E : Env) (params : DownloadAttachmentsParams)
  : M (list MessageAttachmentsResult) :=
  tryCatch
    (downloadAttachments E (da_messageIds params) (da_idType params)
       (da_filter params) (da_mailbox params))
    (fun error =>
       throw (ErrorObject ("Failed to download attachments: " ++ errorMessage error))).

Definition peekMessages (E : Env) (params : PeekMessageParams)
  : M (list MessagePeekResult) :=
  tryCatch
    (peekMessages E (pm_messageIds params) (pm_idType params) (pm_mailbox params))
    (fun error =>
       throw (ErrorObject ("Failed to peek messages: " ++ errorMessage error))).

End EmailOperations.

(** ** Configuration from the environment (index.ts) *)

Module Config.

(** [process.env] and [readFileSync(path, 'utf-8')], which returns the
    content of the file or throws. *)
Record Process := {
  env : string -> option string;
  readFileSync : string -> Thrown + string
}.

Record EmailMcpEnvConfig := {
  emailAddress : string;
  emailPassword : string;
  imapHost : string;
  imapPort : Z;
  smtpHost : string;
  smtpPort : Z
}.

Definition readSecretFile (P : Process) (path : string) : Thrown + string :=
  match readFileSync P path with
  | inl e => inl e
  | inr fileContent =>
      let value := JS.trim fileContent in
      if negb (JS.truthy value)
      then inl (ErrorObject ("Secret file is empty: " ++ path))
      else inr value
  end.

Definition requireEnv (P : Process) (name : string) : Thrown + string :=
  match JS.orUndefined (env P name) with
  | Some value => inr value
  | None => inl (ErrorObject ("Missing required environment variable: " ++ name))
  end.

Definition requirePassword (P : Process) : Thrown + string :=
  match JS.orUndefined (option_map JS.trim (env P "EMAIL_PASSWORD")) with
  | Some direct => inr direct
  | None =>
      match JS.orUndefined (option_map JS.trim (env P "EMAIL_PASSWORD_FILE")) with
      | Some filePath => readSecretFile P filePath
      | None => inl (ErrorObject "Missing EMAIL_PASSWORD or EMAIL_PASSWORD_FILE")
      end
  end.

(** [`${process.env.NAME}`] *)
Definition shown (P : Process) (name : string) : string :=
  match env P name with
  | Some value => value
  | None => "undefined"
  end.

(** [Number.parseInt(process.env.NAME || fallback, 10)], checked as the
    ports are: finite and positive, or the error [Invalid NAME: ...]. *)
Definition port (P : Process) (name fallback : string) : Thrown + Z :=
  let parsed := JS.parseInt10 (JS.orElse (env P name) fallback) in
  if negb (JS.isFinite parsed) || le0 parsed
  then inl (ErrorObject ("Invalid " ++ name ++ ": " ++ shown P name))
  else inr (match parsed with JS.Num z => z | _ => 0 end).

Definition loadConfigFromEnv (P : Process) : Thrown + EmailMcpEnvConfig :=
  match requireEnv P "EMAIL_ADDRESS" with
  | inl e => inl e
  | inr address =>
      match requirePassword P with
      | inl e => inl e
      | inr password =>
          let host := JS.orElse (env P "IMAP_HOST") "imap.gmail.com" in
          match port P "IMAP_PORT" "993" with
          | inl e => inl e
          | inr imap =>
              let smtp_host := JS.orElse (env P "SMTP_HOST") "smtp.gmail.com" in
              match port P "SMTP_PORT" "587" with
              | inl e => inl e
              | inr smtp =>
                  inr {| emailAddress := address; emailPassword := password;
                         imapHost := host; imapPort := imap;
                         smtpHost := smtp_host; smtpPort := smtp |}
              end
          end
      end
  end.

End Config.

(** ** Vocabulary of the properties

    The definitions below are used to state the properties.  Those named
    [claimed...], [eligibleFamily], [satisfies] and [byteForByte] follow the
    words of the specification; they are compared with the service, not
    used by it. *)

(** The candidate set as the specification words it, on the input as it
    is: [bracketed, stripped] for a bracket-delimited input (the stripped
    form only when it is not empty), [bracketed-form, raw-form] otherwise. *)
Definition claimedCandidates (input : string) : list string :=
  if JS.startsWith input "<" && JS.endsWith input ">" then
    if JS.truthy (JS.slice_1_m1 input)
    then [input; JS.slice_1_m1 input] else [input]
  else ["<" ++ input ++ ">"; input].

(** A search reply without any match. *)
Definition misses (r : Reply (option (list Z))) : bool :=
  match r with
  | Replied None => true
  | Replied (Some []) => true
  | _ => false
  end.

(** The header searches for a list of candidates. *)
Definition searchesFor (candidates : list string) : list Action :=
  map (ASearch "MESSAGE-ID") candidates.

(** The world after a sequence of requests. *)
Definition requests (l : list Action) (w : World) : World :=
  fold_left (fun w a => request a w) l w.

(** A request that cannot mark a message read: a fetch asks for the whole
    raw body with [markSeen] off, a mailbox is opened read-only. *)
Definition peekOnly (a : Action) : Prop :=
  match a with
  | AFetch _ opts => bodies opts = "" /\ struct opts = false /\ markSeen opts = false
  | AOpenBox _ readOnly => readOnly = true
  | _ => True
  end.

(** A request that is not a search. *)
Definition notSearch (a : Action) : Prop :=
  match a with
  | ASearch _ _ => False
  | _ => True
  end.

(** The three read operations, and a client calling them one after the
    other on the same store. *)
Inductive Operation :=
| Download (messageIds : string + list string) (idType : IdType)
    (filter : option AttachmentFilterParams) (mailbox : string)
| Peek (messageIds : string + list string) (idType : IdType) (mailbox : string)
| GetMessage (id : string) (format : Format) (saveRawToFile : bool) (mailbox : string).

Definition perform (E : Env) (htmlToText : string -> string) (w : World)
    (op : Operation) : World :=
  match op with
  | Download messageIds idType filter mailbox =>
      snd (downloadAttachments E messageIds idType filter mailbox w)
  | Peek messageIds idType mailbox =>
      snd (peekMessages E messageIds idType mailbox w)
  | GetMessage id format saveRawToFile mailbox =>
      snd (getMessageContent E htmlToText id format saveRawToFile mailbox w)
  end.

Definition performAll (E : Env) (htmlToText : string -> string)
    (ops : list Operation) (w : World) : World :=
  fold_left (perform E htmlToText) ops w.

(** [id] parses as a positive base-10 integer. *)
Definition parsesAsPositiveInteger (id : string) : Prop :=
  exists z, JS.parseInt10 id = JS.Num z /\ 0 < z.

(** A decimal numeral: an optional sign, then decimal digits and nothing
    else, at least one. *)
Fixpoint allDigits (s : string) : bool :=
  match s with
  | EmptyString => true
  | String c rest => JS.isDigit c && allDigits rest
  end.

Definition isNumeral (s : string) : bool :=
  let '(_, body) := JS.sign s in JS.truthy body && allDigits body.

(** The integer a numeral denotes. *)
Definition numeralValue (s : string) : Z :=
  let '(neg, body) := JS.sign s in
  let m := snd (JS.digits body false 0) in
  if neg then - m else m.

(** The handle-kind identifiers the specification excludes: those that are
    not numeric, and those that denote a non-positive integer. *)
Definition claimedInvalidHandle (s : string) : bool :=
  negb (isNumeral s) || (numeralValue s <=? 0).

(** The integer written at the start of [s], after optional white space and
    an optional sign: the digits are read as far as they go, and [None]
    means that there is none. *)
Definition leadingInteger (s : string) : option Z :=
  let '(neg, body) := JS.sign (JS.trimStart s) in
  match JS.digits body false 0 with
  | (false, _) => None
  | (true, m) => Some (if neg then - m else m)
  end.

(** The record of an identifier that resolves to no handle. *)
Definition notFoundAttachments (idType : IdType) (mailbox id : string)
  : MessageAttachmentsResult :=
  {| mar_id := id; mar_idType := idType; mar_mailbox := mailbox;
     mar_found := false; mar_uid := None; mar_attachments := [];
     mar_error := None |}.

Definition notFoundPeek (idType : IdType) (mailbox id : string)
  : MessagePeekResult :=
  {| mpr_id := id; mpr_idType := idType; mpr_mailbox := mailbox;
     mpr_found := false; mpr_uid := None; mpr_subject := None;
     mpr_from := None; mpr_to := None; mpr_date := None;
     mpr_messageId := None; mpr_hasHtml := None; mpr_hasText := None;
     mpr_htmlSize := None; mpr_textSize := None;
     mpr_attachmentCount := 0; mpr_attachments := [];
     mpr_error := None |}.



Definition isMessage (ev : FetchEvent) : bool :=
  match ev with
  | EvMessage _ => true
  | _ => false
  end.

Definition isTerminal (ev : FetchEvent) : bool := negb (isMessage ev).

(** The body data of a run of events, in delivery order, each chunk
    coerced as the service does. *)
Definition bodyData (events : list FetchEvent) : list JS.Buffer :=
  flat_map (fun ev => match ev with
                      | EvMessage body => map coerce body
                      | _ => []
                      end) events.


(** The content types eligible for inline placement: [text/*], the markdown
    sub-family, and the allow-list of structured-text types. *)
Definition eligibleFamily (contentType : string) : bool :=
  let declared := JS.toLowerCase contentType in
  JS.startsWith declared "text/"
  || existsb (JS.startsWith declared) ["text/markdown"; "text/x-markdown"; "text/md"]
  || existsb (String.eqb declared)
       ["application/json"; "application/xml"; "text/xml";
        "application/yaml"; "application/x-yaml"].

(** The characters of a text given by its UTF-16 code units: a high
    surrogate followed by a low surrogate is one character, any other code
    unit is one character of its own. *)
Definition isHighSurrogate (u : N) : bool := ((55296 <=? u) && (u <=? 56319))%N.

Definition isLowSurrogate (u : N) : bool := ((56320 <=? u) && (u <=? 57343))%N.

Fixpoint characters (text : list N) : nat :=
  match text with
  | [] => O
  | u :: rest =>
      match rest with
      | v :: rest' =>
          if isHighSurrogate u && isLowSurrogate v then S (characters rest')
          else S (characters rest)
      | [] => 1%nat
      end
  end.

(** Inline placement as the specification words it: an eligible family and
    fewer than 1000 characters of decoded text. *)
Definition claimedInline (contentType : string) (content : JS.Buffer) : bool :=
  eligibleFamily contentType
  && (characters (JS.toString_utf8 content) <? 1000)%nat.

(** A [text/plain] attachment of 500 characters outside the Basic
    Multilingual Plane (U+1F600, four bytes each in UTF-8). *)
Definition smileys : Attachment :=
  {| filename := Some "smileys.txt"; contentType := Some "text/plain";
     content := List.concat (repeat [xf0; x9f; x98; x80] 500); size := None;
     contentDisposition := Some "attachment"; cid := None |}.

(** The content type under which an attachment is placed. *)
Definition declaredType (a : Attachment) : string :=
  JS.orElse (contentType a) "application/octet-stream".

Definition effectiveName (uid : Z) (a : Attachment) : string :=
  JS.orElse (filename a) ("attachment-" ++ JS.Number_toString uid).

Definition sizeOf (a : Attachment) : Z :=
  match size a with
  | Some n => n
  | None => Z.of_nat (List.length (content a))
  end.

(** The result of an attachment returned inline, and of one written to the
    file [path]. *)
Definition placedInline (uid : Z) (a : Attachment) : AttachmentResult :=
  {| ar_filename := Some (effectiveName uid a);
     ar_contentType := declaredType a;
     ar_size := sizeOf a;
     ar_contentDisposition := JS.orUndefined (contentDisposition a);
     ar_contentId := JS.orUndefined (cid a);
     ar_savedTo := None;
     ar_inlineContent := Some (JS.toString_utf8 (content a)) |}.

Definition placedInFile (uid : Z) (a : Attachment) (path : string) : AttachmentResult :=
  {| ar_filename := Some (effectiveName uid a);
     ar_contentType := declaredType a;
     ar_size := sizeOf a;
     ar_contentDisposition := JS.orUndefined (contentDisposition a);
     ar_contentId := JS.orUndefined (cid a);
     ar_savedTo := Some path;
     ar_inlineContent := None |}.

(** The temporary file of an attachment materialized in world [w]: the
    random token, a dash, and the file name with its path separators
    replaced. *)
Definition tempPath (E : Env) (uid : Z) (a : Attachment) (w : World) : string :=
  let token := toString_hex (randomBytes6 E (tick w)) in
  let replaced := replaceSeparators (effectiveName uid a) in
  join E (tmpdir E)
    (token ++ "-" ++
     (if JS.truthy replaced then replaced
      else "attachment-" ++ JS.Number_toString uid ++ "-" ++ token)).

(** The world after the write of that file was requested. *)
Definition afterWrite (E : Env) (uid : Z) (a : Attachment) (w : World) : World :=
  request (AWriteFile (tempPath E uid a w) (content a)) (drawn w).

(** The record of an identifier whose processing threw [e]. *)
Definition failedAttachments (idType : IdType) (mailbox id : string) (e : Thrown)
  : MessageAttachmentsResult :=
  {| mar_id := id; mar_idType := idType; mar_mailbox := mailbox;
     mar_found := false; mar_uid := None; mar_attachments := [];
     mar_error := Some (errorMessage e) |}.

(** Order-preserving subsequence. *)
Inductive Subsequence {A : Type} : list A -> list A -> Prop :=
| SubNil : Subsequence [] []
| SubSkip : forall x l1 l2, Subsequence l1 l2 -> Subsequence l1 (x :: l2)
| SubKeep : forall x l1 l2, Subsequence l1 l2 -> Subsequence (x :: l1) (x :: l2).

(** The name an attachment is filtered by. *)
Definition nameOf (a : Attachment) : string := JS.orElse (filename a) "".

(** Whether a pattern with its flags matches a file name. *)
Definition patternMatches (m : JS.Matcher) (source flags fname : string) : bool :=
  fst (JS.test m {| JS.re_source := source; JS.re_flags := flags;
                    JS.re_lastIndex := 0 |} fname).

(** A listed content type against a declared one, both in lower case: a
    listed type ending in [/*] asks for its prefix before the wildcard, any
    other for equality. *)
Definition typeMatches (declared listed : string) : bool :=
  if JS.endsWith listed "/*"
  then JS.startsWith declared (JS.slice_0_m2 listed)
  else String.eqb declared listed.

(** An attachment satisfies a filter when it satisfies every constraint the
    filter configures: exact name and substring without regard to case, the
    pattern under its flags, and some listed content type. *)
Definition satisfies (m : JS.Matcher) (f : AttachmentFilterParams) (a : Attachment)
  : bool :=
  match JS.orUndefined (name f) with
  | Some n => String.eqb (JS.toLowerCase (nameOf a)) (JS.toLowerCase n)
  | None => true
  end
  && match JS.orUndefined (nameContains f) with
     | Some c => JS.includes (JS.toLowerCase (nameOf a)) (JS.toLowerCase c)
     | None => true
     end
  && match JS.orUndefined (nameRegex f) with
     | Some source =>
         patternMatches m source (JS.orElse (nameRegexFlags f) "") (nameOf a)
     | None => true
     end
  && match mimeTypes f with
     | Some (t :: ts) =>
         existsb (fun listed =>
                    typeMatches
                      (JS.orElse (option_map JS.toLowerCase (contentType a)) "")
                      (JS.toLowerCase listed))
                 (t :: ts)
     | _ => true
     end.

(** A filter whose pattern, if any, has neither the [g] nor the [y] flag. *)
Definition statelessFilter (f : AttachmentFilterParams) : bool :=
  match JS.orUndefined (nameRegex f) with
  | Some _ => negb (JS.isStateful (JS.orElse (nameRegexFlags f) ""))
  | None => true
  end.

(** Classification of a list of attachments by a filter. *)
Definition classify (E : Env) (filter : option AttachmentFilterParams)
    (l : list Attachment) : M (list Attachment) :=
  bind (buildAttachmentPredicate E filter) (fun p => Array_filter E p l).

(** A transport that completes every exchange: each search is answered and
    each fetch delivers its end or an error. *)
Definition Responsive (E : Env) : Prop :=
  (forall t header value, searchReply E t header value <> Silent)
  /\ (forall t uid opts, existsb isTerminal (fetchEvents E t uid opts) = true).

(** The world in which the per-identifier loop starts: connected, and the
    mailbox open read-only. *)
Definition opened (mailbox : string) (w : World) : World :=
  setReadOnlyBox true
    (request (AOpenBox mailbox true) (setConnected true (request AConnect w))).

(** What the predicate of a filter captures when its pattern compiles. *)
Definition captured (f : AttachmentFilterParams) : Captured :=
  {| normalizedName := option_map JS.toLowerCase (name f);
     normalizedContains := option_map JS.toLowerCase (nameContains f);
     p_nameRegex :=
       match JS.orUndefined (nameRegex f) with
       | Some source => Some (source, JS.orElse (nameRegexFlags f) "")
       | None => None
       end;
     normalizedMimeTypes :=
       match mimeTypes f with
       | Some l => map JS.toLowerCase l
       | None => []
       end |}.

(** A world [w'] extends [w] under a policy [P] on requests when every
    request added to the trace satisfies [P] and the [\Seen] flags of the
    store are what they were.  A computation keeps [P] when it extends every
    world it starts from. *)
Definition Extends (P : Action -> Prop) (w w' : World) : Prop :=
  (exists added, trace w' = (trace w ++ added)%list /\ Forall P added)
  /\ flagged w' = flagged w.

Definition Keeps (P : Action -> Prop) {A} (c : M A) : Prop :=
  forall w, Extends P w (snd (c w)).

(** An awaited computation settles when it does not hang. *)
Definition Settles {A} (c : M A) : Prop := forall w, fst (c w) <> Hang.

(** While the promise of a fetch exchange is pending, neither of its [once]
    listeners has run. *)
Definition fresh (x : Exchange) : Prop :=
  settled x = None -> errorSeen x = false /\ endSeen x = false.


(** ** Further vocabulary *)

(** A second store for the examples: the search of ["lost@x"] fails, every
    other search finds nothing, and the rest is as in [Demo.env]. *)
Module Flaky.

Definition env : Env :=
  {| connectReply := connectReply Demo.env;
     connectionError := connectionError Demo.env;
     openBoxReply := openBoxReply Demo.env;
     searchReply := fun _ _ value =>
       if String.eqb value "lost@x" then Failed (ErrorObject "socket closed")
       else Replied (Some []);
     fetchEvents := fetchEvents Demo.env;
     simpleParser := simpleParser Demo.env;
     writeFileReply := writeFileReply Demo.env;
     randomBytes6 := randomBytes6 Demo.env;
     tmpdir := tmpdir Demo.env;
     join := join Demo.env;
     matcher := matcher Demo.env |}.

End Flaky.

(** How an attachment result relates to the attachment it was made from:
    placed inline, or placed in some file. *)
Definition placed (uid : Z) (a : Attachment) (r : AttachmentResult) : Prop :=
  (shouldInlineTextAttachment (declaredType a) (content a) = true
   /\ r = placedInline uid a)
  \/ (shouldInlineTextAttachment (declaredType a) (content a) = false
      /\ exists path, r = placedInFile uid a path).

(** An attachment result carries a non-empty file name and content type,
    and exactly one of a path and an inline text, the text being shorter
    than 1000 characters. *)
Definition soundAttachment (r : AttachmentResult) : Prop :=
  (exists n, ar_filename r = Some n /\ JS.truthy n = true)
  /\ JS.truthy (ar_contentType r) = true
  /\ ((exists path, ar_savedTo r = Some path /\ ar_inlineContent r = None)
      \/ (exists units, ar_savedTo r = None /\ ar_inlineContent r = Some units
                        /\ (List.length units < 1000)%nat)).

(** A record of [downloadAttachments]: a found one has a handle and no
    error, and sound attachments; any other has no handle and no
    attachment. *)
Definition soundRecord (r : MessageAttachmentsResult) : Prop :=
  if mar_found r
  then (exists u, mar_uid r = Some u) /\ mar_error r = None
       /\ Forall soundAttachment (mar_attachments r)
  else mar_uid r = None /\ mar_attachments r = [].

(** A record of [peekMessages]: the count is the length of the inventory;
    a found record has a handle, no error, and flags that agree with the
    sizes; any other has no handle and an empty inventory. *)
Definition soundPeek (r : MessagePeekResult) : Prop :=
  mpr_attachmentCount r = Z.of_nat (List.length (mpr_attachments r))
  /\ if mpr_found r
     then (exists u, mpr_uid r = Some u) /\ mpr_error r = None
          /\ (exists n, mpr_htmlSize r = Some n
                        /\ mpr_hasHtml r = Some (0 <? n))
          /\ (exists n, mpr_textSize r = Some n
                        /\ mpr_hasText r = Some (0 <? n))
     else mpr_uid r = None /\ mpr_attachments r = [].

(** A request that is not a write to a file. *)
Definition notWrite (a : Action) : Prop :=
  match a with
  | AWriteFile _ _ => False
  | _ => True
  end.

Definition isError (ev : FetchEvent) : bool :=
  match ev with
  | EvError _ => true
  | _ => false
  end.

Definition isEnd (ev : FetchEvent) : bool :=
  match ev with
  | EvEnd => true
  | _ => false
  end.

(** Whether a string has a path separator, [/] or [\]. *)
Fixpoint hasSeparator (s : string) : bool :=
  match s with
  | EmptyString => false
  | String c rest => Ascii.eqb c "\" || Ascii.eqb c "/" || hasSeparator rest
  end.

(** The UTF-16 code units of a string. *)
Definition units (s : string) : list N := map JS.code (list_ascii_of_string s).

(** A string without [<] and without [&]. *)
Fixpoint plainText (s : string) : bool :=
  match s with
  | EmptyString => true
  | String c rest => negb (Ascii.eqb c "<") && negb (Ascii.eqb c "&") && plainText rest
  end.

(** A string without [<]. *)
Fixpoint noTagStart (s : string) : bool :=
  match s with
  | EmptyString => true
  | String c rest => negb (Ascii.eqb c "<") && noTagStart rest
  end.

(** A process environment given by a list of bindings, and one without any
    file. *)
Definition lookupEnv (bindings : list (string * string)) (name : string)
  : option string :=
  match List.find (fun b => String.eqb (fst b) name) bindings with
  | Some b => Some (snd b)
  | None => None
  end.

Definition processOf (bindings : list (string * string)) : Config.Process :=
  {| Config.env := lookupEnv bindings;
     Config.readFileSync := fun path =>
       inl (ErrorObject ("ENOENT: no such file or directory, open '" ++ path ++ "'")) |}.

(** The outcome of [finalize] as a settlement of the promise of
    [getMessageContent]. *)
Definition settlement (r : Completion MessageContentResult)
    (before : option (Thrown + MessageContentResult))
  : option (Thrown + MessageContentResult) :=
  match r with
  | Value result => settle (inr result) before
  | Throw e => settle (inl e) before
  | Hang => before
  end.

(** A computation preserves an observation [f] of the world when [f] is
    the same after it as before. *)
Definition Preserves {X A : Type} (f : World -> X) (c : M A) : Prop :=
  forall w, f (snd (c w)) = f w.

(** The world of [getMessageContent] once its fetch has been sent, and once
    the connection has been ended after it. *)
Definition fetching (mailbox : string) (uid : Z) (w : World) : World :=
  request (AFetch uid peekOptions) (opened mailbox w).

Definition ended (mailbox : string) (uid : Z) (w : World) : World :=
  snd (imap_end (fetching mailbox uid w)).

(** The file in which [writeRawToTemp] saves a raw message in world [w]. *)
Definition rawPath (E : Env) (uid : Z) (w : World) : string :=
  join E (tmpdir E)
    ("message-" ++ JS.Number_toString uid ++ "-"
     ++ toString_hex (randomBytes6 E (tick w)) ++ ".eml").

(** The content result of a raw request. *)
Definition rawResult (id mailbox : string) (raw : JS.Buffer)
    (saved : option string * option Z) : MessageContentResult :=
  {| mcr_id := id; mcr_format := FormatRaw;
     mcr_body := BodyDecoded (JS.toString_utf8 raw);
     mcr_mailbox := mailbox;
     mcr_rawFilePath := fst saved; mcr_rawSize := snd saved;
     mcr_hasHtml := None; mcr_hasText := None |}.

(** The value read by [JS.digits] from the digits that [JS.decimalDigits]
    writes for [n] with the given fuel, after the digits in [a]. *)
Fixpoint pushDigits (fuel : nat) (n a : Z) : Z :=
  match fuel with
  | O => a
  | S fuel' =>
      if n <? 10 then 10 * a + n
      else 10 * pushDigits fuel' (n / 10) a + n mod 10
  end.

(** The character of a decimal digit. *)
Definition digitChar (d : Z) : ascii := ascii_of_N (Z.to_N (48 + d)).

(** White space dropped from the front of a list of characters. *)
Fixpoint dropSpaces (l : list ascii) : list ascii :=
  match l with
  | [] => []
  | c :: rest => if JS.isWhiteSpace c then dropSpaces rest else l
  end.

(** A list of characters that does not start with white space. *)
Definition startsClean (l : list ascii) : Prop :=
  match l with
  | [] => True
  | c :: _ => JS.isWhiteSpace c = false
  end.

(** Whether a string starts, or ends, with white space. *)
Definition startsWithSpace (s : string) : bool :=
  match s with
  | String c _ => JS.isWhiteSpace c
  | EmptyString => false
  end.

Definition endsWithSpace (s : string) : bool := startsWithSpace (JS.reverse s).

(** A pattern that can only match at a [<] and one that can only match at
    a [<] or a [&]. *)
Definition matchesAtTagOnly (pattern : string -> option nat) : Prop :=
  forall c rest, Ascii.eqb c "<" = false -> pattern (String c rest) = None.

Definition matchesAtMarkupOnly (pattern : string -> option nat) : Prop :=
  forall c rest,
    Ascii.eqb c "<" = false -> Ascii.eqb c "&" = false ->
    pattern (String c rest) = None.


(** A filter whose pattern, when it has one, is accepted by [new RegExp]. *)
Definition compiles (E : Env) (filter : option AttachmentFilterParams) : Prop :=
  match filter with
  | Some f =>
      match JS.orUndefined (nameRegex f) with
      | Some source =>
          JS.syntaxError (matcher E) source (JS.orElse (nameRegexFlags f) "") = None
      | None => True
      end
  | None => True
  end.

(** The outcome of an operation that met a refused connection in the world
    [w]: it threw an [Error] with the message of the operation followed by
    the cause, and [connect] is all it requested. *)
Definition reportsRefusal {A} (message : string) (cause : Thrown) (w : World)
    (r : Completion A * World) : Prop :=
  fst r = Throw (ErrorObject (message ++ errorMessage cause))
  /\ trace (snd r) = (trace w ++ [AConnect])%list
  /\ connected (snd r) = connected w.

(** A store that refuses every connection. *)
Module Offline.

Definition env : Env :=
  {| connectReply := fun _ => Failed (ErrorObject "connect ECONNREFUSED");
     connectionError := connectionError Demo.env;
     openBoxReply := openBoxReply Demo.env;
     searchReply := searchReply Demo.env;
     fetchEvents := fetchEvents Demo.env;
     simpleParser := simpleParser Demo.env;
     writeFileReply := writeFileReply Demo.env;
     randomBytes6 := randomBytes6 Demo.env;
     tmpdir := tmpdir Demo.env;
     join := join Demo.env;
     matcher := matcher Demo.env |}.

End Offline.

(** The process of a server started with a password that has white space
    around it, and one that names a secret file. *)
Definition processWithPassword : Config.Process :=
  processOf [("EMAIL_ADDRESS", "me@example.com"); ("EMAIL_PASSWORD", " s3cret ");
             ("IMAP_PORT", "1993")].

Definition configWithPassword : Config.EmailMcpEnvConfig :=
  {| Config.emailAddress := "me@example.com"; Config.emailPassword := "s3cret";
     Config.imapHost := "imap.gmail.com"; Config.imapPort := 1993;
     Config.smtpHost := "smtp.gmail.com"; Config.smtpPort := 587 |}.

(** Parameters used in the examples. *)
Definition getSeven : GetMessageParams :=
  {| gm_id := "7"; gm_format := FormatText; gm_saveRawToFile := false;
     gm_mailbox := "INBOX" |}.

Definition downloadSeven (filter : option AttachmentFilterParams)
  : DownloadAttachmentsParams :=
  {| da_messageIds := inl "7"; da_idType := UidType; da_mailbox := "INBOX";
     da_filter := filter |}.

Definition peekSeven : PeekMessageParams :=
  {| pm_messageIds := inl "7"; pm_idType := UidType; pm_mailbox := "INBOX" |}.

Definition byBrokenPattern : AttachmentFilterParams :=
  {| name := None; nameContains := None; nameRegex := Some "(";
     nameRegexFlags := None; mimeTypes := None |}.

(** ** Properties *)

Lemma tick_requests : forall l w, tick (requests l w) = (tick w + List.length l)%nat.
Proof.
  induction l as [|a l IH]; intros w; simpl.
  - lia.
  - unfold requests in *. simpl. rewrite IH. simpl. lia.
Qed.

Lemma trace_requests : forall l w, trace (requests l w) = (trace w ++ l)%list.
Proof.
  induction l as [|a l IH]; intros w; simpl.
  - now rewrite app_nil_r.
  - unfold requests in *. simpl. rewrite IH. simpl. now rewrite <- app_assoc.
Qed.

Section Resolution.

Variable E : Env.

Lemma candidates_after_trim : forall id,
  buildMessageIdCandidates id =
  if JS.truthy (JS.trim id) then claimedCandidates (JS.trim id) else [].
Proof.
  intros id. unfold buildMessageIdCandidates, claimedCandidates.
  destruct (JS.truthy (JS.trim id)); reflexivity.
Qed.

Lemma search_one : forall c w,
  searchUidsByHeader E "MESSAGE-ID" c w =
  match searchReply E (tick w) "MESSAGE-ID" c with
  | Silent => (Hang, request (ASearch "MESSAGE-ID" c) w)
  | Failed e => (Throw e, request (ASearch "MESSAGE-ID" c) w)
  | Replied r => (Value (match r with Some l => l | None => [] end),
                  request (ASearch "MESSAGE-ID" c) w)
  end.
Proof.
  intros c w. unfold searchUidsByHeader, bind, imap_search, await, ret, throw.
  destruct (searchReply E (tick w) "MESSAGE-ID" c); reflexivity.
Qed.

Lemma searchCandidates_cons : forall c rest w,
  searchCandidates E (c :: rest) w =
  match searchReply E (tick w) "MESSAGE-ID" c with
  | Silent => (Hang, request (ASearch "MESSAGE-ID" c) w)
  | Failed e => (Throw e, request (ASearch "MESSAGE-ID" c) w)
  | Replied (Some (first :: _)) =>
      (Value (Some first), request (ASearch "MESSAGE-ID" c) w)
  | Replied _ => searchCandidates E rest (request (ASearch "MESSAGE-ID" c) w)
  end.
Proof.
  intros c rest w. simpl. unfold bind at 1. rewrite search_one.
  destruct (searchReply E (tick w) "MESSAGE-ID" c) as [|e|[[|first l]|]];
    reflexivity.
Qed.

Lemma misses_inv : forall r,
  misses r = true -> r = Replied None \/ r = Replied (Some []).
Proof.
  intros [|e|[[|x l]|]]; simpl; intros H; try discriminate; auto.
Qed.

(** When every candidate misses, all of them are searched, in order, and the
    result is [null]. *)
Lemma search_all_miss : forall cands w,
  (forall i c, nth_error cands i = Some c ->
     misses (searchReply E (tick w + i) "MESSAGE-ID" c) = true) ->
  searchCandidates E cands w = (Value None, requests (searchesFor cands) w).
Proof.
  induction cands as [|c rest IH]; intros w Hmiss.
  - reflexivity.
  - rewrite searchCandidates_cons.
    pose proof (Hmiss O c eq_refl) as H0. rewrite Nat.add_0_r in H0.
    assert (Hrest : searchCandidates E rest (request (ASearch "MESSAGE-ID" c) w) =
                    (Value None, requests (searchesFor (c :: rest)) w)).
    { apply IH. intros i c' Hi. simpl.
      replace (S (tick w + i))%nat with (tick w + S i)%nat by lia.
      apply Hmiss. exact Hi. }
    destruct (misses_inv _ H0) as [-> | ->]; exact Hrest.
Qed.

(** The first candidate with a match ends the search, and its first match is
    the result. *)
Lemma search_first_hit : forall cands w k c u us,
  nth_error cands k = Some c ->
  (forall i c', (i < k)%nat -> nth_error cands i = Some c' ->
     misses (searchReply E (tick w + i) "MESSAGE-ID" c') = true) ->
  searchReply E (tick w + k) "MESSAGE-ID" c = Replied (Some (u :: us)) ->
  searchCandidates E cands w =
  (Value (Some u), requests (searchesFor (firstn (S k) cands)) w).
Proof.
  induction cands as [|c0 rest IH]; intros w k c u us Hk Hmiss Hhit.
  - destruct k; discriminate.
  - rewrite searchCandidates_cons. destruct k as [|k].
    + simpl in Hk. injection Hk as ->. rewrite Nat.add_0_r in Hhit.
      rewrite Hhit. reflexivity.
    + pose proof (Hmiss O c0 (Nat.lt_0_succ k) eq_refl) as H0.
      rewrite Nat.add_0_r in H0.
      assert (Hrest : searchCandidates E rest (request (ASearch "MESSAGE-ID" c0) w) =
                      (Value (Some u),
                       requests (searchesFor (firstn (S (S k)) (c0 :: rest))) w)).
      { apply (IH _ k c u us).
        - exact Hk.
        - intros i c' Hi Hnth. simpl.
          replace (S (tick w + i))%nat with (tick w + S i)%nat by lia.
          apply Hmiss; [lia | exact Hnth].
        - simpl. replace (S (tick w + k))%nat with (tick w + S k)%nat by lia.
          exact Hhit. }
      destruct (misses_inv _ H0) as [-> | ->]; exact Hrest.
Qed.

(** [null] is only returned after every candidate has missed. *)
Lemma search_null_inv : forall cands w,
  fst (searchCandidates E cands w) = Value None ->
  forall i c, nth_error cands i = Some c ->
    misses (searchReply E (tick w + i) "MESSAGE-ID" c) = true.
Proof.
  induction cands as [|c0 rest IH]; intros w Hnull i c Hi.
  - destruct i; discriminate.
  - rewrite searchCandidates_cons in Hnull.
    destruct (searchReply E (tick w) "MESSAGE-ID" c0) as [|e|[[|first l]|]] eqn:R;
      simpl in Hnull; try discriminate.
    + destruct i as [|i].
      * simpl in Hi. injection Hi as <-. rewrite Nat.add_0_r, R. reflexivity.
      * replace (tick w + S i)%nat
          with (tick (request (ASearch "MESSAGE-ID" c0) w) + i)%nat
          by (simpl; lia).
        apply IH; assumption.
    + destruct i as [|i].
      * simpl in Hi. injection Hi as <-. rewrite Nat.add_0_r, R. reflexivity.
      * replace (tick w + S i)%nat
          with (tick (request (ASearch "MESSAGE-ID" c0) w) + i)%nat
          by (simpl; lia).
        apply IH; assumption.
Qed.

End Resolution.

(** C5, as amended.  The candidates of an address-kind identifier are
    computed on the identifier with surrounding white space trimmed: none
    for a blank identifier, [bracketed, stripped] for a bracket-delimited
    one (the stripped form only when it is not empty), [bracketed-form,
    trimmed-form] otherwise.  Resolution issues one MESSAGE-ID header search
    per candidate, in order, stops at the first candidate with a match and
    returns its first match; it returns [null] after every candidate has
    missed, and only then. *)
Theorem resolveUidForMessageId_tries_candidates_in_order :
  forall (E : Env) (id : string) (w : World),
    buildMessageIdCandidates id =
      (if JS.truthy (JS.trim id) then claimedCandidates (JS.trim id) else [])
    /\ (forall k c u us,
          nth_error (buildMessageIdCandidates id) k = Some c ->
          (forall i c', (i < k)%nat ->
             nth_error (buildMessageIdCandidates id) i = Some c' ->
             misses (searchReply E (tick w + i) "MESSAGE-ID" c') = true) ->
          searchReply E (tick w + k) "MESSAGE-ID" c = Replied (Some (u :: us)) ->
          resolveUidForMessageId E id w =
          (Value (Some u),
           requests (searchesFor (firstn (S k) (buildMessageIdCandidates id))) w))
    /\ ((forall i c, nth_error (buildMessageIdCandidates id) i = Some c ->
           misses (searchReply E (tick w + i) "MESSAGE-ID" c) = true) ->
        resolveUidForMessageId E id w =
        (Value None, requests (searchesFor (buildMessageIdCandidates id)) w))
    /\ (fst (resolveUidForMessageId E id w) = Value None ->
        forall i c, nth_error (buildMessageIdCandidates id) i = Some c ->
          misses (searchReply E (tick w + i) "MESSAGE-ID" c) = true).
Proof.
  intros E id w. split; [apply candidates_after_trim|].
  unfold resolveUidForMessageId. repeat split.
  - intros k c u us Hk Hmiss Hhit. eapply search_first_hit; eassumption.
  - intros Hmiss. apply search_all_miss. exact Hmiss.
  - intros Hnull. apply search_null_inv. exact Hnull.
Qed.

(** In the demo store the bracketed form of [" a@b "] trimmed is searched
    first and found. *)
Lemma resolveUidForMessageId_tries_candidates_in_order_witness :
  resolveUidForMessageId Demo.env " a@b " Demo.world0 =
  (Value (Some 7), requests [ASearch "MESSAGE-ID" "<a@b>"] Demo.world0).
Proof.
  destruct (resolveUidForMessageId_tries_candidates_in_order
              Demo.env " a@b " Demo.world0) as (_ & Hhit & _).
  apply (Hhit O "<a@b>" 7 []).
  - reflexivity.
  - intros i c' Hi. lia.
  - reflexivity.
Defined.

(** C5 as stated fails on an identifier with surrounding white space: the
    searches issued are not those of the candidates formed on the input as
    it is. *)
Lemma candidates_of_untrimmed_input_counterexample :
  trace (snd (resolveUidForMessageId Demo.env " zzz " Demo.world0))
  <> searchesFor (claimedCandidates " zzz ").
Proof. vm_compute. discriminate. Qed.

Example candidates_blank : buildMessageIdCandidates "   " = [].
Proof. reflexivity. Qed.

Example candidates_bracketed : buildMessageIdCandidates "<a@b>" = ["<a@b>"; "a@b"].
Proof. reflexivity. Qed.

Example candidates_empty_brackets : buildMessageIdCandidates "<>" = ["<>"].
Proof. reflexivity. Qed.

Example candidates_bare : buildMessageIdCandidates "a@b" = ["<a@b>"; "a@b"].
Proof. reflexivity. Qed.

(** ** What an operation may request *)

Section Frame.

(** [P] is the policy on requests that the lemmas below propagate through
    the service. *)
Variable P : Action -> Prop.

Lemma Extends_refl : forall w, Extends P w w.
Proof.
  intros w. split; [|reflexivity].
  exists []. split; [now rewrite app_nil_r | constructor].
Qed.

Lemma Extends_trans : forall w1 w2 w3,
  Extends P w1 w2 -> Extends P w2 w3 -> Extends P w1 w3.
Proof.
  intros w1 w2 w3 [(a1 & T1 & F1) G1] [(a2 & T2 & F2) G2]. split.
  - exists (a1 ++ a2)%list. split.
    + rewrite T2, T1. now rewrite app_assoc.
    + apply Forall_app. split; assumption.
  - congruence.
Qed.

Lemma Extends_request : forall a w, P a -> Extends P w (request a w).
Proof.
  intros a w Ha. split; [|reflexivity].
  exists [a]. split; [reflexivity | repeat constructor; exact Ha].
Qed.

Lemma Extends_same_trace : forall w w',
  trace w' = trace w -> flagged w' = flagged w -> Extends P w w'.
Proof.
  intros w w' T G. split; [|exact G].
  exists []. split; [now rewrite T, app_nil_r | constructor].
Qed.

Lemma Keeps_ret : forall A (a : A), Keeps P (ret a).
Proof. intros A a w. apply Extends_refl. Qed.

Lemma Keeps_throw : forall A e, Keeps P (@throw A e).
Proof. intros A e w. apply Extends_refl. Qed.

Lemma Keeps_bind : forall A B (c : M A) (k : A -> M B),
  Keeps P c -> (forall a, Keeps P (k a)) -> Keeps P (bind c k).
Proof.
  intros A B c k Hc Hk w. unfold bind. specialize (Hc w).
  destruct (c w) as [[a|e|] w']; simpl in *; try exact Hc.
  eapply Extends_trans; [exact Hc | apply Hk].
Qed.

Lemma Keeps_tryCatch : forall A (c : M A) (h : Thrown -> M A),
  Keeps P c -> (forall e, Keeps P (h e)) -> Keeps P (tryCatch c h).
Proof.
  intros A c h Hc Hh w. unfold tryCatch. specialize (Hc w).
  destruct (c w) as [[a|e|] w']; simpl in *; try exact Hc.
  eapply Extends_trans; [exact Hc | apply Hh].
Qed.

Lemma Keeps_await : forall A (r : Reply A), Keeps P (await r).
Proof. intros A [|e|a] w; apply Extends_refl. Qed.

Lemma Keeps_awaitSettled : forall A (s : option (Thrown + A)), Keeps P (awaitSettled s).
Proof. intros A [[e|a]|] w; apply Extends_refl. Qed.

Variable E : Env.

Hypothesis P_connect : P AConnect.
Hypothesis P_openBox : forall mailbox, P (AOpenBox mailbox true).
Hypothesis P_search : forall value, P (ASearch "MESSAGE-ID" value).
Hypothesis P_fetch : forall uid, P (AFetch uid peekOptions).
Hypothesis P_end : P AEnd.
Hypothesis P_write : forall path data, P (AWriteFile path data).

Lemma Keeps_connect : Keeps P (imap_connect E).
Proof.
  intros w. unfold imap_connect.
  destruct (connectReply E (tick w)); simpl;
    apply Extends_request; exact P_connect.
Qed.

Lemma Keeps_openBox : forall mailbox, Keeps P (imap_openBox E mailbox true).
Proof.
  intros mailbox w. unfold imap_openBox.
  destruct (openBoxReply E (tick w) mailbox true); simpl;
    apply Extends_request; apply P_openBox.
Qed.

Lemma Extends_end : forall w, Extends P w (snd (imap_end w)).
Proof.
  intros w. unfold imap_end. simpl.
  apply (Extends_trans w (request AEnd w));
    [apply Extends_request; exact P_end | apply Extends_same_trace; reflexivity].
Qed.

Lemma snd_orConnectionError : forall A (c : M A) w,
  snd (orConnectionError E c w) = snd (c w).
Proof.
  intros A c w. unfold orConnectionError.
  destruct (c w) as [r w']. destruct (connectionError E (tick w)); reflexivity.
Qed.

Lemma Keeps_orConnectionError : forall A (c : M A),
  Keeps P c -> Keeps P (orConnectionError E c).
Proof. intros A c Hc w. rewrite snd_orConnectionError. apply Hc. Qed.

Lemma Keeps_thenEnd : forall A (c : M A), Keeps P c -> Keeps P (thenEnd c).
Proof.
  intros A c Hc w. unfold thenEnd. specialize (Hc w).
  destruct (c w) as [[a|e|] w']; simpl in *; try exact Hc;
    (eapply Extends_trans; [exact Hc | apply Extends_end]).
Qed.

Lemma Keeps_search : forall value, Keeps P (imap_search E "MESSAGE-ID" value).
Proof.
  intros value w. unfold imap_search.
  eapply Extends_trans; [apply Extends_request; apply P_search|].
  apply Keeps_await.
Qed.

(** A fetch with [markSeen] off leaves the flags alone, however the mailbox
    was opened. *)
Lemma Keeps_fetch : forall uid, Keeps P (imap_fetch E uid peekOptions).
Proof.
  intros uid w. unfold imap_fetch. simpl. apply Extends_request. apply P_fetch.
Qed.

Lemma Keeps_writeFile : forall path data, Keeps P (fs_writeFile E path data).
Proof.
  intros path data w. unfold fs_writeFile.
  destruct (writeFileReply E (tick w) path data); simpl;
    apply Extends_request; apply P_write.
Qed.

Lemma Keeps_randomToken : Keeps P (randomToken E).
Proof. intros w. apply Extends_same_trace; reflexivity. Qed.

Lemma Keeps_parseMail : forall raw, Keeps P (parseMail E raw).
Proof.
  intros raw. unfold parseMail.
  destruct (simpleParser E raw); [apply Keeps_throw | apply Keeps_ret].
Qed.

Lemma Keeps_buildAttachmentPredicate : forall filter,
  Keeps P (buildAttachmentPredicate E filter).
Proof.
  intros [f|]; [|apply Keeps_ret]. unfold buildAttachmentPredicate.
  destruct (JS.orUndefined (nameRegex f)) as [source|]; [|apply Keeps_ret].
  destruct (JS.RegExp_new (matcher E) source (JS.orElse (nameRegexFlags f) ""));
    [apply Keeps_throw|].
  intros w. apply Extends_same_trace; reflexivity.
Qed.

Lemma Keeps_testNameRegex : forall re fname, Keeps P (testNameRegex E re fname).
Proof.
  intros re fname w. unfold testNameRegex.
  destruct (JS.test _ _ _) as [b r']. apply Extends_same_trace; reflexivity.
Qed.

Lemma Keeps_predicate : forall p a, Keeps P (predicate E p a).
Proof.
  intros [c|] a; [|apply Keeps_ret]. unfold predicate.
  repeat match goal with
         | |- Keeps P (if ?b then _ else _) => destruct b
         | |- Keeps P (match ?x with Some _ => _ | None => _ end) => destruct x
         | |- Keeps P (ret _) => apply Keeps_ret
         | |- Keeps P (bind _ _) => apply Keeps_bind; [apply Keeps_testNameRegex | intros ?]
         end.
Qed.

Lemma Keeps_Array_filter : forall p l, Keeps P (Array_filter E p l).
Proof.
  intros p l. induction l as [|a rest IH]; simpl.
  - apply Keeps_ret.
  - apply Keeps_bind; [apply Keeps_predicate | intros keep].
    apply Keeps_bind; [exact IH | intros kept]. apply Keeps_ret.
Qed.

Lemma Keeps_writeAttachmentToTemp : forall data fname uid,
  Keeps P (writeAttachmentToTemp E data fname uid).
Proof.
  intros data fname uid. unfold writeAttachmentToTemp.
  apply Keeps_bind; [apply Keeps_randomToken | intros token].
  apply Keeps_bind; [apply Keeps_writeFile | intros _]. apply Keeps_ret.
Qed.

Lemma Keeps_writeRawToTemp : forall raw uid, Keeps P (writeRawToTemp E raw uid).
Proof.
  intros raw uid. unfold writeRawToTemp.
  apply Keeps_bind; [apply Keeps_randomToken | intros token].
  apply Keeps_bind; [apply Keeps_writeFile | intros _]. apply Keeps_ret.
Qed.

Lemma Keeps_processAttachments : forall uid matching processed,
  Keeps P (processAttachments E uid matching processed).
Proof.
  intros uid matching. induction matching as [|a rest IH]; intros processed; simpl.
  - apply Keeps_ret.
  - destruct (shouldInlineTextAttachment _ _); [apply IH|].
    apply Keeps_bind; [apply Keeps_writeAttachmentToTemp | intros savedTo]. apply IH.
Qed.

Lemma Keeps_fetchRawByUid : forall uid, Keeps P (fetchRawByUid E uid).
Proof.
  intros uid. unfold fetchRawByUid.
  apply Keeps_bind; [apply Keeps_fetch | intros events]. apply Keeps_awaitSettled.
Qed.

Lemma Keeps_searchCandidates : forall cands, Keeps P (searchCandidates E cands).
Proof.
  induction cands as [|c rest IH]; simpl.
  - apply Keeps_ret.
  - apply Keeps_bind.
    + unfold searchUidsByHeader.
      apply Keeps_bind; [apply Keeps_search | intros r; apply Keeps_ret].
    + intros [|first l]; [exact IH | apply Keeps_ret].
Qed.

Lemma Keeps_resolveUid : forall idType id, Keeps P (resolveUid E idType id).
Proof.
  intros [|] id; simpl.
  - apply Keeps_searchCandidates.
  - apply Keeps_ret.
Qed.

Lemma Keeps_downloadTry : forall p idType mailbox id results,
  Keeps P (downloadTry E p idType mailbox id results).
Proof.
  intros p idType mailbox id results. unfold downloadTry.
  apply Keeps_bind; [apply Keeps_resolveUid | intros uid].
  destruct (missing uid); [apply Keeps_ret|].
  apply Keeps_bind; [apply Keeps_fetchRawByUid | intros raw].
  apply Keeps_bind; [apply Keeps_parseMail | intros mail].
  apply Keeps_bind; [apply Keeps_Array_filter | intros matching].
  apply Keeps_bind; [apply Keeps_processAttachments | intros processed].
  apply Keeps_ret.
Qed.

Lemma Keeps_runDownload : forall p idType mailbox ids results,
  Keeps P (runDownload E p idType mailbox ids results).
Proof.
  intros p idType mailbox ids. induction ids as [|id rest IH]; intros results; simpl.
  - apply Keeps_ret.
  - apply Keeps_bind; [|intros results'; apply IH].
    apply Keeps_tryCatch; [apply Keeps_downloadTry | intros e; apply Keeps_ret].
Qed.

Lemma Keeps_downloadAttachments : forall messageIds idType filter mailbox,
  Keeps P (downloadAttachments E messageIds idType filter mailbox).
Proof.
  intros messageIds idType filter mailbox. unfold downloadAttachments.
  apply Keeps_bind; [apply Keeps_buildAttachmentPredicate | intros p].
  apply Keeps_bind; [apply Keeps_connect | intros _].
  apply Keeps_orConnectionError.
  apply Keeps_bind; [apply Keeps_openBox | intros _].
  apply Keeps_thenEnd. apply Keeps_runDownload.
Qed.

Lemma Keeps_peekTry : forall idType mailbox id results,
  Keeps P (peekTry E idType mailbox id results).
Proof.
  intros idType mailbox id results. unfold peekTry.
  apply Keeps_bind; [apply Keeps_resolveUid | intros uid].
  destruct (missing uid); [apply Keeps_ret|].
  apply Keeps_bind; [apply Keeps_fetchRawByUid | intros raw].
  apply Keeps_bind; [apply Keeps_parseMail | intros mail].
  apply Keeps_bind; [|intros iso; apply Keeps_ret].
  destruct (date mail) as [[e|iso]|];
    [apply Keeps_throw | apply Keeps_ret | apply Keeps_ret].
Qed.

Lemma Keeps_runPeek : forall idType mailbox ids results,
  Keeps P (runPeek E idType mailbox ids results).
Proof.
  intros idType mailbox ids. induction ids as [|id rest IH]; intros results; simpl.
  - apply Keeps_ret.
  - apply Keeps_bind; [|intros results'; apply IH].
    apply Keeps_tryCatch; [apply Keeps_peekTry | intros e; apply Keeps_ret].
Qed.

Lemma Keeps_peekMessages : forall messageIds idType mailbox,
  Keeps P (peekMessages E messageIds idType mailbox).
Proof.
  intros messageIds idType mailbox. unfold peekMessages.
  apply Keeps_bind; [apply Keeps_connect | intros _].
  apply Keeps_orConnectionError.
  apply Keeps_bind; [apply Keeps_openBox | intros _].
  apply Keeps_thenEnd. apply Keeps_runPeek.
Qed.

Variable htmlToText : string -> string.

Lemma Keeps_finalize : forall id format save mailbox uid foundMessage rawChunks,
  Keeps P (finalize E htmlToText id format save mailbox uid foundMessage rawChunks).
Proof.
  intros id format save mailbox uid foundMessage rawChunks. unfold finalize.
  destruct (negb foundMessage); [apply Keeps_throw|].
  apply Keeps_bind.
  - destruct format; try apply Keeps_ret;
      (apply Keeps_bind; [apply Keeps_parseMail | intros parsed; apply Keeps_ret]).
  - intros [[body hasHtml] hasText].
    apply Keeps_bind; [|intros saved; apply Keeps_ret].
    destruct save; [|apply Keeps_ret].
    apply Keeps_bind; [apply Keeps_writeRawToTemp | intros s; apply Keeps_ret].
Qed.

Lemma Extends_onContentEvent : forall id format save mailbox uid st ev,
  Extends P (snd st)
          (snd (onContentEvent E htmlToText id format save mailbox uid st ev)).
Proof.
  intros id format save mailbox uid [x w] ev. unfold onContentEvent.
  destruct ev as [body|err|].
  - apply Extends_refl.
  - destruct (c_errorSeen x); apply Extends_refl.
  - destruct (c_endSeen x); [apply Extends_refl|].
    pose proof (Keeps_finalize id format save mailbox uid
                  (foundMessage x) (rawChunks x) (snd (imap_end w))) as K.
    destruct (finalize E htmlToText id format save mailbox uid
                (foundMessage x) (rawChunks x) (snd (imap_end w)))
      as [outcome w2].
    simpl in *. eapply Extends_trans; [apply Extends_end | exact K].
Qed.

Lemma Extends_content_events : forall id format save mailbox uid events st,
  Extends P (snd st)
          (snd (fold_left (onContentEvent E htmlToText id format save mailbox uid)
                          events st)).
Proof.
  intros id format save mailbox uid events.
  induction events as [|ev rest IH]; intros st; simpl.
  - apply Extends_refl.
  - eapply Extends_trans; [apply Extends_onContentEvent | apply IH].
Qed.

Lemma Keeps_getMessageContent : forall id format save mailbox,
  Keeps P (getMessageContent E htmlToText id format save mailbox).
Proof.
  intros id format save mailbox. unfold getMessageContent.
  destruct (negb (JS.isFinite (JS.parseInt10 id)) || le0 (JS.parseInt10 id));
    [apply Keeps_throw|].
  apply Keeps_bind; [apply Keeps_connect | intros _].
  apply Keeps_bind; [apply Keeps_openBox | intros _].
  apply Keeps_bind; [apply Keeps_fetch | intros events].
  intros w.
  pose proof (Extends_content_events id format save mailbox
                (match JS.parseInt10 id with JS.Num z => z | _ => 0 end) events
                ({| rawChunks := []; foundMessage := false; c_errorSeen := false;
                    c_endSeen := false; c_settled := None |}, w)) as X.
  destruct (fold_left _ events _) as [x w']. simpl in X.
  eapply Extends_trans; [exact X|]. apply Keeps_awaitSettled.
Qed.

End Frame.

(** ** Reading never marks a message read *)

Lemma perform_peekOnly : forall E htmlToText op w,
  Extends peekOnly w (perform E htmlToText w op).
Proof.
  intros E htmlToText op w.
  assert (Hfetch : forall uid, peekOnly (AFetch uid peekOptions))
    by (intros uid; simpl; auto).
  destruct op as [messageIds idType filter mailbox
                 |messageIds idType mailbox
                 |id format save mailbox]; simpl.
  - apply Keeps_downloadAttachments; simpl; auto.
  - apply Keeps_peekMessages; simpl; auto.
  - apply Keeps_getMessageContent; simpl; auto.
Qed.

Lemma performAll_peekOnly : forall E htmlToText ops w,
  Extends peekOnly w (performAll E htmlToText ops w).
Proof.
  intros E htmlToText ops. unfold performAll.
  induction ops as [|op rest IH]; intros w; simpl.
  - apply Extends_refl.
  - eapply Extends_trans; [apply perform_peekOnly | apply IH].
Qed.

(** C8.  Whatever the store answers, over any sequence of calls to
    [downloadAttachments], [peekMessages] and [getMessageContent] (the same
    identifier may be read again and again): every fetch that is issued asks
    for the whole raw body ([bodies: '']) with [markSeen] off, every mailbox
    is opened read-only, and the [\Seen] flags of the store are what they
    were before. *)
Theorem reading_never_marks_seen :
  forall (E : Env) (htmlToText : string -> string) (ops : list Operation) (w : World),
    exists added,
      trace (performAll E htmlToText ops w) = (trace w ++ added)%list
      /\ (forall uid opts, In (AFetch uid opts) added ->
            bodies opts = "" /\ struct opts = false /\ markSeen opts = false)
      /\ (forall mailbox readOnly, In (AOpenBox mailbox readOnly) added ->
            readOnly = true)
      /\ flagged (performAll E htmlToText ops w) = flagged w.
Proof.
  intros E htmlToText ops w.
  destruct (performAll_peekOnly E htmlToText ops w) as [(added & T & F) G].
  exists added. rewrite Forall_forall in F. repeat split; auto.
  - apply (F (AFetch uid opts)); assumption.
  - apply (F (AFetch uid opts)); assumption.
  - apply (F (AFetch uid opts)); assumption.
  - intros mailbox readOnly H. apply (F (AOpenBox mailbox readOnly)). exact H.
Qed.

Example peek_twice_in_demo :
  flagged (performAll Demo.env Demo.render
             [Peek (inl "7") UidType "INBOX"; Peek (inl "7") UidType "INBOX";
              Download (inl "<a@b>") MessageIdType None "INBOX"]
             Demo.world0) = [].
Proof. reflexivity. Qed.

(** ** The single-identifier operation *)

Example getMessageContent_zero :
  fst (getMessageContent Demo.env Demo.render "0" FormatRaw false "INBOX" Demo.world0) =
  Throw (ErrorObject "Invalid message id: 0").
Proof. reflexivity. Qed.

Example getMessageContent_numeric_prefix :
  trace (snd (getMessageContent Demo.env Demo.render "7@example.com" FormatRaw false
                "INBOX" Demo.world0)) =
  [AConnect; AOpenBox "INBOX" true; AFetch 7 peekOptions; AEnd].
Proof. reflexivity. Qed.

(** ** Handle-kind identifiers *)

Lemma digitValue_nonneg : forall c, JS.isDigit c = true -> 0 <= JS.digitValue c.
Proof.
  intros c H. unfold JS.isDigit in H. unfold JS.digitValue.
  apply andb_true_iff in H. destruct H as [H _]. apply N.leb_le in H. lia.
Qed.

Lemma digits_nonneg : forall s seen acc,
  0 <= acc -> 0 <= snd (JS.digits s seen acc).
Proof.
  induction s as [|c rest IH]; intros seen acc Hacc; cbn [JS.digits].
  - exact Hacc.
  - destruct (JS.isDigit c) eqn:D; [|exact Hacc].
    apply IH. pose proof (digitValue_nonneg c D). lia.
Qed.

Lemma toDouble_nonneg : forall m,
  0 <= m ->
  match JS.toDouble m with
  | JS.Num v => 0 <= v
  | JS.PosInf => True
  | _ => False
  end.
Proof.
  intros m Hm. unfold JS.toDouble.
  destruct (m <? 2 ^ 53); [exact Hm|].
  set (e := Z.log2 m - 52).
  set (q := m / 2 ^ e).
  assert (Hq : 0 <= q).
  { unfold q. destruct (Z.eq_dec (2 ^ e) 0) as [Z0|NZ].
    - rewrite Z0. rewrite Z.div_0_r. lia.
    - apply Z.div_pos; [exact Hm|]. pose proof (Z.pow_nonneg 2 e). lia. }
  match goal with
  | |- context [if ?b then q + 1 else q] => destruct b
  end;
  match goal with
  | |- context [if ?b then JS.PosInf else _] => destruct b; [exact I|]
  end;
  apply Z.mul_nonneg_nonneg; try lia; apply Z.pow_nonneg; lia.
Qed.

(** An identifier without a leading integer, or whose leading integer is
    not positive, is not a positive finite number for [parseInt]. *)
Lemma parseInt10_not_positive : forall id,
  (leadingInteger id = None \/ exists z, leadingInteger id = Some z /\ z <= 0) ->
  JS.isFinite (JS.parseInt10 id) && JS.gt0 (JS.parseInt10 id) = false.
Proof.
  intros id H. unfold leadingInteger in H. unfold JS.parseInt10.
  destruct (JS.sign (JS.trimStart id)) as [neg body].
  pose proof (digits_nonneg body false 0 (Z.le_refl 0)) as Hm.
  destruct (JS.digits body false 0) as [[|] m]; simpl in Hm; [|reflexivity].
  destruct H as [H | (z & Hz & Hle)]; [discriminate|].
  injection Hz as <-.
  pose proof (toDouble_nonneg m Hm) as Hd.
  destruct neg.
  - destruct (JS.toDouble m) as [|v| |]; simpl; try reflexivity; try contradiction.
    apply Z.ltb_ge. lia.
  - assert (m = 0) by lia. subst m. reflexivity.
Qed.

Section Handles.

Variable E : Env.

Lemma resolveUid_handle : forall id w,
  resolveUid E UidType id w =
  (Value (if JS.isFinite (JS.parseInt10 id) && JS.gt0 (JS.parseInt10 id)
          then match JS.parseInt10 id with JS.Num z => Some z | _ => None end
          else None), w).
Proof. reflexivity. Qed.

(** A leading integer that is positive and below 2^53 is what [parseInt]
    returns: it is read exactly. *)
Lemma parseInt10_leading : forall id z,
  leadingInteger id = Some z -> 0 < z < 2 ^ 53 -> JS.parseInt10 id = JS.Num z.
Proof.
  intros id z H Hz. unfold leadingInteger in H. unfold JS.parseInt10.
  destruct (JS.sign (JS.trimStart id)) as [neg body].
  pose proof (digits_nonneg body false 0 (Z.le_refl 0)) as Hm.
  destruct (JS.digits body false 0) as [[|] m]; simpl in Hm; [|discriminate H].
  injection H as H. destruct neg; [lia|]. subst m.
  unfold JS.toDouble. replace (z <? 2 ^ 53) with true; [reflexivity|].
  symmetry. apply Z.ltb_lt. lia.
Qed.

Lemma resolveUid_leading : forall id z w,
  leadingInteger id = Some z -> 0 < z < 2 ^ 53 ->
  resolveUid E UidType id w = (Value (Some z), w).
Proof.
  intros id z w H Hz. rewrite resolveUid_handle, (parseInt10_leading id z H Hz).
  simpl. replace (0 <? z) with true; [reflexivity|].
  symmetry. apply Z.ltb_lt. lia.
Qed.

(** What starts with the raw fetch of a handle requests that fetch first. *)
Lemma fetchRawByUid_first : forall A (k : JS.Buffer -> M A) uid w,
  (forall raw, Keeps (fun _ => True) (k raw)) ->
  exists added,
    trace (snd ((raw <- fetchRawByUid E uid ;; k raw) w)) =
    (trace w ++ AFetch uid peekOptions :: added)%list.
Proof.
  intros A k uid w Hk. unfold bind at 1. unfold fetchRawByUid, bind, imap_fetch.
  cbn [markSeen peekOptions andb].
  set (w1 := request (AFetch uid peekOptions) w).
  destruct (awaitSettled _ w1) as [[raw|e|] w2] eqn:Hs;
    assert (w2 = w1)
      by (revert Hs; unfold awaitSettled;
          destruct (settled _) as [[e'|a]|]; unfold throw, ret; congruence);
    subst w2.
  - destruct (Hk raw w1) as [(added & T & _) _]. exists added. rewrite T.
    unfold w1. cbn [trace request]. rewrite <- app_assoc. reflexivity.
  - exists []. reflexivity.
  - exists []. reflexivity.
Qed.

Lemma downloadTry_fetches : forall p mailbox id results w z,
  leadingInteger id = Some z -> 0 < z < 2 ^ 53 ->
  exists added,
    trace (snd (downloadTry E p UidType mailbox id results w)) =
    (trace w ++ AFetch z peekOptions :: added)%list.
Proof.
  intros p mailbox id results w z H Hz. unfold downloadTry. unfold bind at 1.
  rewrite (resolveUid_leading id z w H Hz). cbn [missing].
  replace (z =? 0) with false by (symmetry; apply Z.eqb_neq; lia).
  apply fetchRawByUid_first. intros raw.
  apply Keeps_bind; [apply Keeps_parseMail | intros mail].
  apply Keeps_bind; [apply Keeps_Array_filter | intros matching].
  apply Keeps_bind; [apply Keeps_processAttachments; intros; exact I | intros processed].
  apply Keeps_ret.
Qed.

Lemma peekTry_fetches : forall mailbox id results w z,
  leadingInteger id = Some z -> 0 < z < 2 ^ 53 ->
  exists added,
    trace (snd (peekTry E UidType mailbox id results w)) =
    (trace w ++ AFetch z peekOptions :: added)%list.
Proof.
  intros mailbox id results w z H Hz. unfold peekTry. unfold bind at 1.
  rewrite (resolveUid_leading id z w H Hz). cbn [missing].
  replace (z =? 0) with false by (symmetry; apply Z.eqb_neq; lia).
  apply fetchRawByUid_first. intros raw.
  apply Keeps_bind; [apply Keeps_parseMail | intros mail].
  apply Keeps_bind; [|intros iso; apply Keeps_ret].
  destruct (date mail) as [[e|iso]|];
    [apply Keeps_throw | apply Keeps_ret | apply Keeps_ret].
Qed.

End Handles.

(** C2, as amended.  A handle-kind identifier is read by
    [Number.parseInt(id, 10)]: white space and a sign are skipped and the
    digits are read as far as they go.  When no digit is found there, or the
    integer read is not positive, the identifier's record is the not-found
    record and the world is unchanged: nothing was searched, nothing was
    fetched.  When the integer read is positive and below 2^53, whatever
    follows its digits, the identifier is taken for that handle: no search
    is made, and the first request for it is the fetch of the handle. *)
Theorem invalid_handle_is_not_found_without_store_access :
  forall (E : Env) (p : Predicate) (mailbox id : string)
         (downloads : list MessageAttachmentsResult) (peeks : list MessagePeekResult)
         (w : World),
    ((leadingInteger id = None \/ exists z, leadingInteger id = Some z /\ z <= 0) ->
     downloadTry E p UidType mailbox id downloads w =
       (Value (downloads ++ [notFoundAttachments UidType mailbox id])%list, w)
     /\ peekTry E UidType mailbox id peeks w =
       (Value (peeks ++ [notFoundPeek UidType mailbox id])%list, w))
    /\ (forall z,
          leadingInteger id = Some z -> 0 < z < 2 ^ 53 ->
          resolveUid E UidType id w = (Value (Some z), w)
          /\ (exists added,
                trace (snd (downloadTry E p UidType mailbox id downloads w)) =
                (trace w ++ AFetch z peekOptions :: added)%list)
          /\ (exists added,
                trace (snd (peekTry E UidType mailbox id peeks w)) =
                (trace w ++ AFetch z peekOptions :: added)%list)).
Proof.
  intros E p mailbox id downloads peeks w. split.
  - intros H. pose proof (parseInt10_not_positive id H) as Hp.
    unfold downloadTry, peekTry, bind. rewrite resolveUid_handle, Hp. simpl.
    split; reflexivity.
  - intros z H Hz. split; [|split].
    + apply resolveUid_leading; assumption.
    + apply downloadTry_fetches; assumption.
    + apply peekTry_fetches; assumption.
Qed.

Lemma invalid_handle_is_not_found_without_store_access_witness :
  (downloadTry Demo.env None UidType "INBOX" "-3" [] Demo.world0 =
     (Value [notFoundAttachments UidType "INBOX" "-3"], Demo.world0)
   /\ peekTry Demo.env UidType "INBOX" "-3" [] Demo.world0 =
     (Value [notFoundPeek UidType "INBOX" "-3"], Demo.world0))
  /\ (exists added,
        trace (snd (downloadTry Demo.env None UidType "INBOX" "12abc" [] Demo.world0)) =
        (trace Demo.world0 ++ AFetch 12 peekOptions :: added)%list).
Proof.
  split.
  - apply (proj1 (invalid_handle_is_not_found_without_store_access
                    Demo.env None "INBOX" "-3" [] [] Demo.world0)).
    right. exists (-3). split; [reflexivity | lia].
  - apply (proj2 (invalid_handle_is_not_found_without_store_access
                    Demo.env None "INBOX" "12abc" [] [] Demo.world0) 12);
      [reflexivity | lia].
Defined.

(** C2 as stated fails on [12abc]: the string is not numeric, yet it is
    taken for the handle 12 and a fetch is sent to the store. *)
Lemma non_numeric_handle_counterexample :
  claimedInvalidHandle "12abc" = true
  /\ trace (snd (downloadTry Demo.env None UidType "INBOX" "12abc" [] Demo.world0))
     = [AFetch 12 peekOptions]
  /\ trace (snd (peekTry Demo.env UidType "INBOX" "12abc" [] Demo.world0))
     = [AFetch 12 peekOptions].
Proof. vm_compute. repeat split. Qed.

Example leadingInteger_prefix : leadingInteger "12abc" = Some 12.
Proof. reflexivity. Qed.

Example leadingInteger_none : leadingInteger "abc" = None.
Proof. reflexivity. Qed.

Example leadingInteger_zero : leadingInteger " 0.5" = Some 0.
Proof. reflexivity. Qed.

(** ** The raw fetch exchange *)

Section FetchExchange.

Variable uid : Z.

Lemma settled_is_final : forall events x s,
  settled x = Some s ->
  settled (fold_left (onFetchEvent uid) events x) = Some s.
Proof.
  induction events as [|ev rest IH]; intros x s Hs; simpl.
  - exact Hs.
  - apply IH. destruct ev as [body|err|]; simpl.
    + exact Hs.
    + destruct (errorSeen x); simpl; [exact Hs|]. rewrite Hs. reflexivity.
    + destruct (endSeen x); simpl; [exact Hs|]. rewrite Hs. reflexivity.
Qed.




Lemma fresh_step : forall x ev, fresh x -> fresh (onFetchEvent uid x ev).
Proof.
  intros x ev Hx. unfold fresh in *. destruct ev as [body|err|]; simpl.
  - exact Hx.
  - destruct (errorSeen x) eqn:Es; simpl.
    + intros H. destruct (Hx H) as [A _]. discriminate A.
    + destruct (settled x); simpl; intros H; discriminate H.
  - destruct (endSeen x) eqn:Es; simpl.
    + intros H. destruct (Hx H) as [_ B]. discriminate B.
    + destruct (settled x); simpl; intros H; discriminate H.
Qed.

Lemma terminal_settles : forall events x,
  fresh x ->
  existsb isTerminal events = true ->
  settled (fold_left (onFetchEvent uid) events x) <> None.
Proof.
  induction events as [|ev rest IH]; intros x Hx Hex; simpl in *.
  - discriminate.
  - destruct (settled (onFetchEvent uid x ev)) as [s|] eqn:S.
    + rewrite (settled_is_final rest _ s S). discriminate.
    + apply IH; [apply fresh_step; exact Hx|].
      destruct ev as [body|err|]; simpl in *.
      * exact Hex.
      * exfalso. destruct (errorSeen x) eqn:Es.
        -- destruct (Hx S) as [H _]. congruence.
        -- simpl in S. destruct (settled x); discriminate.
      * exfalso. destruct (endSeen x) eqn:Es.
        -- destruct (Hx S) as [_ H]. congruence.
        -- simpl in S. destruct (settled x); discriminate.
Qed.

End FetchExchange.






(** A handle below 2^53 is printed with its decimal digits. *)
Lemma Number_toString_small : forall z,
  0 < z < 2 ^ 53 -> JS.Number_toString z = JS.decimal z.
Proof.
  intros z Hz. unfold JS.Number_toString.
  destruct (z =? 0) eqn:H0; [apply Z.eqb_eq in H0; lia|].
  rewrite Z.abs_eq by lia.
  assert (H53 : (z <? 2 ^ 53) = true) by (apply Z.ltb_lt; lia).
  rewrite H53.
  destruct (z <? 0) eqn:Hneg; [apply Z.ltb_lt in Hneg; lia | reflexivity].
Qed.




Example fetch_not_found :
  fst (fetchRawByUid Demo.env 12 Demo.world0) =
  Throw (ErrorObject "Message not found for UID: 12").
Proof. reflexivity. Qed.

(** ** Placement of an attachment *)

Lemma shouldInline_iff_eligible_and_short : forall contentType content,
  shouldInlineTextAttachment contentType content =
  eligibleFamily contentType
  && (List.length (JS.toString_utf8 content) <? 1000)%nat.
Proof.
  intros contentType content.
  unfold shouldInlineTextAttachment, eligibleFamily. simpl.
  repeat match goal with
         | |- context [JS.startsWith ?a ?b] => destruct (JS.startsWith a b)
         | |- context [String.eqb ?a ?b] => destruct (String.eqb a b)
         end; reflexivity.
Qed.

Section Placement.

Variable E : Env.

Lemma writeAttachmentToTemp_run : forall uid a w,
  writeAttachmentToTemp E (content a) (effectiveName uid a) (JS.Number_toString uid) w =
  match writeFileReply E (S (tick w)) (tempPath E uid a w) (content a) with
  | Some e => (Throw e, afterWrite E uid a w)
  | None => (Value (tempPath E uid a w), afterWrite E uid a w)
  end.
Proof.
  intros uid a w.
  unfold writeAttachmentToTemp, bind, randomToken, fs_writeFile, ret, afterWrite, tempPath.
  simpl.
  destruct (writeFileReply E (S (tick w)) _ (content a)); reflexivity.
Qed.

Lemma processAttachments_cons : forall uid a rest processed w,
  processAttachments E uid (a :: rest) processed w =
  if shouldInlineTextAttachment (declaredType a) (content a)
  then processAttachments E uid rest (processed ++ [placedInline uid a])%list w
  else
    match writeFileReply E (S (tick w)) (tempPath E uid a w) (content a) with
    | Some e => (Throw e, afterWrite E uid a w)
    | None =>
        processAttachments E uid rest
          (processed ++ [placedInFile uid a (tempPath E uid a w)])%list
          (afterWrite E uid a w)
    end.
Proof.
  intros uid a rest processed w.
  change (processAttachments E uid (a :: rest) processed w) with
    ((if shouldInlineTextAttachment (declaredType a) (content a)
      then processAttachments E uid rest (processed ++ [placedInline uid a])%list
      else bind (writeAttachmentToTemp E (content a) (effectiveName uid a)
                   (JS.Number_toString uid))
             (fun savedTo =>
                processAttachments E uid rest
                  (processed ++ [placedInFile uid a savedTo])%list)) w).
  destruct (shouldInlineTextAttachment (declaredType a) (content a)); [reflexivity|].
  unfold bind. rewrite writeAttachmentToTemp_run.
  destruct (writeFileReply E (S (tick w)) (tempPath E uid a w) (content a));
    reflexivity.
Qed.

End Placement.

(** C4, as amended.  An attachment is placed inline exactly when its
    content type is in an eligible family and its content, decoded as UTF-8,
    is shorter than 1000 UTF-16 code units, which is what the [length] of a
    string counts: a character outside the Basic Multilingual Plane counts
    for two.  An attachment placed inline is returned with its decoded text
    and nothing is written; any other attachment is written to a temporary
    file, and once the write succeeds it is returned with the path of that
    file and without text. *)
Theorem inline_iff_eligible_and_short :
  forall (E : Env) (uid : Z) (a : Attachment) (rest : list Attachment)
         (processed : list AttachmentResult) (w : World),
    (shouldInlineTextAttachment (declaredType a) (content a) = true <->
     eligibleFamily (declaredType a) = true
     /\ (List.length (JS.toString_utf8 (content a)) < 1000)%nat)
    /\ (shouldInlineTextAttachment (declaredType a) (content a) = true ->
        processAttachments E uid (a :: rest) processed w =
        processAttachments E uid rest (processed ++ [placedInline uid a])%list w)
    /\ (shouldInlineTextAttachment (declaredType a) (content a) = false ->
        writeFileReply E (S (tick w)) (tempPath E uid a w) (content a) = None ->
        processAttachments E uid (a :: rest) processed w =
        processAttachments E uid rest
          (processed ++ [placedInFile uid a (tempPath E uid a w)])%list
          (request (AWriteFile (tempPath E uid a w) (content a)) (drawn w))).
Proof.
  intros E uid a rest processed w. repeat split.
  - rewrite shouldInline_iff_eligible_and_short in H.
    apply andb_true_iff in H. tauto.
  - rewrite shouldInline_iff_eligible_and_short in H.
    apply andb_true_iff in H. destruct H as [_ H]. apply Nat.ltb_lt in H. exact H.
  - intros [He Hl]. rewrite shouldInline_iff_eligible_and_short, He.
    apply Nat.ltb_lt in Hl. rewrite Hl. reflexivity.
  - intros H. rewrite processAttachments_cons, H. reflexivity.
  - intros H Hw. rewrite processAttachments_cons, H, Hw. reflexivity.
Qed.

Lemma inline_iff_eligible_and_short_witness :
  processAttachments Demo.env 7 [Demo.note; Demo.pdf "x.pdf" "%PDF-2"] [] Demo.world0 =
  (Value [placedInline 7 Demo.note;
          placedInFile 7 (Demo.pdf "x.pdf" "%PDF-2") "/tmp/0a1b2c3d4e00-x.pdf"],
   request (AWriteFile "/tmp/0a1b2c3d4e00-x.pdf" (Demo.bytesOf "%PDF-2"))
     (drawn Demo.world0)).
Proof.
  destruct (inline_iff_eligible_and_short Demo.env 7 Demo.note
              [Demo.pdf "x.pdf" "%PDF-2"] [] Demo.world0) as (_ & Hin & _).
  rewrite Hin by reflexivity.
  destruct (inline_iff_eligible_and_short Demo.env 7 (Demo.pdf "x.pdf" "%PDF-2")
              [] ([] ++ [placedInline 7 Demo.note])%list Demo.world0)
    as (_ & _ & Hout).
  rewrite Hout by reflexivity.
  reflexivity.
Defined.

(** C4 as stated fails on a text of 500 characters outside the Basic
    Multilingual Plane: its type is eligible and it has fewer than 1000
    characters, yet it decodes to 1000 code units and is written to a
    file. *)
Lemma astral_text_counterexample :
  claimedInline (declaredType smileys) (content smileys) = true
  /\ characters (JS.toString_utf8 (content smileys)) = 500%nat
  /\ List.length (JS.toString_utf8 (content smileys)) = 1000%nat
  /\ shouldInlineTextAttachment (declaredType smileys) (content smileys) = false
  /\ fst (processAttachments Demo.env 7 [smileys] [] Demo.world0) =
     Value [placedInFile 7 smileys "/tmp/0a1b2c3d4e00-smileys.txt"].
Proof. vm_compute. repeat split. Qed.

(** One character fewer is inline. *)
Example astral_text_of_499_is_inline :
  shouldInlineTextAttachment "text/plain"
    (List.concat (repeat [xf0; x9f; x98; x80] 499)) = true.
Proof. vm_compute. reflexivity. Qed.

(** The placement boundary: 999 characters of [text/plain] are inline, 1000
    are not, and [application/pdf] never is. *)
Example text_of_999_is_inline :
  shouldInlineTextAttachment "text/plain" (repeat x61 999) = true.
Proof. vm_compute. reflexivity. Qed.

Example text_of_1000_is_materialized :
  shouldInlineTextAttachment "text/plain" (repeat x61 1000) = false.
Proof. vm_compute. reflexivity. Qed.

Lemma pdf_is_never_inline : forall content,
  shouldInlineTextAttachment "application/pdf" content = false.
Proof. reflexivity. Qed.

Example json_is_eligible : eligibleFamily "Application/JSON" = true.
Proof. reflexivity. Qed.

(** ** A failed write *)

Section WriteFailure.

Variable E : Env.

Lemma processAttachments_app : forall uid l1 l2 processed w,
  processAttachments E uid (l1 ++ l2) processed w =
  bind (processAttachments E uid l1 processed)
       (fun done => processAttachments E uid l2 done) w.
Proof.
  intros uid l1 l2. induction l1 as [|a rest IH]; intros processed w.
  - reflexivity.
  - rewrite <- app_comm_cons. rewrite processAttachments_cons.
    unfold bind in *. rewrite processAttachments_cons.
    destruct (shouldInlineTextAttachment (declaredType a) (content a)).
    + apply IH.
    + destruct (writeFileReply E (S (tick w)) (tempPath E uid a w) (content a)).
      * reflexivity.
      * apply IH.
Qed.

(** A write that fails throws out of the inner loop: the results gathered
    before it are not returned, and the attachments after it are not
    visited. *)
Lemma processAttachments_write_failure :
  forall uid before a after processed w w1 e,
    processAttachments E uid before [] w = (Value processed, w1) ->
    shouldInlineTextAttachment (declaredType a) (content a) = false ->
    writeFileReply E (S (tick w1)) (tempPath E uid a w1) (content a) = Some e ->
    processAttachments E uid (before ++ a :: after) [] w =
    (Throw e, afterWrite E uid a w1).
Proof.
  intros uid before a after processed w w1 e Hbefore Hinline Hwrite.
  rewrite processAttachments_app. unfold bind. rewrite Hbefore.
  rewrite processAttachments_cons, Hinline, Hwrite. reflexivity.
Qed.

Lemma runDownload_cons : forall p idType mailbox id rest results w,
  runDownload E p idType mailbox (id :: rest) results w =
  match downloadTry E p idType mailbox id results w with
  | (Value results', w') => runDownload E p idType mailbox rest results' w'
  | (Throw e, w') =>
      runDownload E p idType mailbox rest
        (results ++ [failedAttachments idType mailbox id e])%list w'
  | (Hang, w') => (Hang, w')
  end.
Proof.
  intros p idType mailbox id rest results w. simpl. unfold bind, tryCatch.
  destruct (downloadTry E p idType mailbox id results w) as [[rs|e|] w'];
    reflexivity.
Qed.

End WriteFailure.

(** C3, as amended.  When the write of one matching attachment fails, the
    failure is that of the identifier: its record is the failure record,
    with [found: false], the message of the error and no attachment (neither
    those placed before the failing one nor those after it), and the loop
    goes on with the next identifier, so the records of the other
    identifiers are not affected. *)
Theorem write_failure_fails_the_record_of_its_message :
  forall (E : Env) (p : Predicate) (idType : IdType) (mailbox id : string)
         (rest : list string) (results : list MessageAttachmentsResult)
         (w w1 w2 w3 w4 : World) (uid : Z) (raw : JS.Buffer) (mail : ParsedMail)
         (before after : list Attachment) (a : Attachment)
         (processed : list AttachmentResult) (e : Thrown),
    resolveUid E idType id w = (Value (Some uid), w1) ->
    uid <> 0 ->
    fetchRawByUid E uid w1 = (Value raw, w2) ->
    simpleParser E raw = inr mail ->
    Array_filter E p (match attachments mail with Some l => l | None => [] end) w2 =
      (Value (before ++ a :: after)%list, w3) ->
    processAttachments E uid before [] w3 = (Value processed, w4) ->
    shouldInlineTextAttachment (declaredType a) (content a) = false ->
    writeFileReply E (S (tick w4)) (tempPath E uid a w4) (content a) = Some e ->
    runDownload E p idType mailbox (id :: rest) results w =
    runDownload E p idType mailbox rest
      (results ++ [failedAttachments idType mailbox id e])%list
      (afterWrite E uid a w4).
Proof.
  intros E p idType mailbox id rest results w w1 w2 w3 w4 uid raw mail
         before after a processed e Hres Hne Hfetch Hparse Hfilter Hbefore Hinline Hwrite.
  rewrite runDownload_cons.
  assert (Htry : downloadTry E p idType mailbox id results w =
                 (Throw e, afterWrite E uid a w4)).
  { unfold downloadTry, bind. rewrite Hres. simpl.
    destruct (uid =? 0) eqn:Hz; [apply Z.eqb_eq in Hz; contradiction|].
    rewrite Hfetch. unfold parseMail. rewrite Hparse. unfold ret at 1.
    rewrite Hfilter.
    rewrite (processAttachments_write_failure E uid before a after processed
               w3 w4 e Hbefore Hinline Hwrite).
    reflexivity. }
  rewrite Htry. reflexivity.
Qed.

Lemma write_failure_fails_the_record_of_its_message_witness :
  runDownload Demo.env None UidType "INBOX" ["8"; "7"] [] Demo.world0 =
  runDownload Demo.env None UidType "INBOX" ["7"]
    [failedAttachments UidType "INBOX" "8"
       (ErrorObject "ENOSPC: no space left on device, write")]
    (afterWrite Demo.env 8 (Demo.pdf "second.pdf" "DISK-FULL")
       (afterWrite Demo.env 8 (Demo.pdf "first.pdf" "%PDF-3")
          (request (AFetch 8 peekOptions) Demo.world0))).
Proof.
  apply (write_failure_fails_the_record_of_its_message
           Demo.env None UidType "INBOX" "8" ["7"] [] Demo.world0 Demo.world0
           (request (AFetch 8 peekOptions) Demo.world0)
           (request (AFetch 8 peekOptions) Demo.world0)
           (afterWrite Demo.env 8 (Demo.pdf "first.pdf" "%PDF-3")
              (request (AFetch 8 peekOptions) Demo.world0))
           8 (Demo.bytesOf "raw-8") Demo.mail8
           [Demo.pdf "first.pdf" "%PDF-3"] [] (Demo.pdf "second.pdf" "DISK-FULL")
           [placedInFile 8 (Demo.pdf "first.pdf" "%PDF-3") "/tmp/0a1b2c3d4e01-first.pdf"]
           (ErrorObject "ENOSPC: no space left on device, write"));
    try reflexivity.
  lia.
Defined.

(** C3 as stated fails in the demo store: the second PDF of message 8
    cannot be written, and the record of message 8 carries no attachment at
    all, although the first PDF had been written to its file. *)
Lemma sibling_attachment_counterexample :
  fst (downloadAttachments Demo.env (inl "8") UidType None "INBOX" Demo.world0) =
    Value [failedAttachments UidType "INBOX" "8"
             (ErrorObject "ENOSPC: no space left on device, write")]
  /\ In (AWriteFile "/tmp/0a1b2c3d4e03-first.pdf" (Demo.bytesOf "%PDF-3"))
        (trace (snd (downloadAttachments Demo.env (inl "8") UidType None "INBOX"
                       Demo.world0))).
Proof. vm_compute. split; [reflexivity | auto 10]. Qed.

(** ** Classification *)

Lemma Subsequence_filter : forall A (f : A -> bool) l,
  Subsequence (List.filter f l) l.
Proof.
  intros A f l. induction l as [|x rest IH]; simpl.
  - constructor.
  - destruct (f x); constructor; exact IH.
Qed.

Lemma orUndefined_toLowerCase : forall x,
  JS.orUndefined (option_map JS.toLowerCase x) =
  option_map JS.toLowerCase (JS.orUndefined x).
Proof. intros [[|c s]|]; reflexivity. Qed.

Lemma test_stateless : forall m source flags li fname,
  JS.isStateful flags = false ->
  JS.test m {| JS.re_source := source; JS.re_flags := flags; JS.re_lastIndex := li |}
          fname =
  (patternMatches m source flags fname,
   {| JS.re_source := source; JS.re_flags := flags; JS.re_lastIndex := li |}).
Proof.
  intros m source flags li fname H. unfold patternMatches, JS.test. simpl.
  rewrite H. destruct (JS.scan m source flags fname (String.length fname) 0);
    reflexivity.
Qed.

Lemma existsb_map_compose : forall A B (g : B -> bool) (h : A -> B) l,
  existsb (fun x => g (h x)) l = existsb g (map h l).
Proof.
  intros A B g h l. induction l as [|x rest IH]; simpl; [reflexivity|].
  rewrite IH. reflexivity.
Qed.

Section Classification.

Variable E : Env.

Lemma build_captured : forall f w p w1,
  buildAttachmentPredicate E (Some f) w = (Value p, w1) ->
  p = Some (captured f).
Proof.
  intros f w p w1. unfold buildAttachmentPredicate, captured.
  destruct (JS.orUndefined (nameRegex f)) as [source|].
  - destruct (JS.RegExp_new (matcher E) source (JS.orElse (nameRegexFlags f) ""));
      intros H; [discriminate H | injection H as <- _; reflexivity].
  - intros H. injection H as <- _. reflexivity.
Qed.

Lemma testNameRegex_stateless : forall source flags fname w,
  JS.isStateful flags = false ->
  testNameRegex E (source, flags) fname w =
  (Value (patternMatches (matcher E) source flags fname), w).
Proof.
  intros source flags fname w H. unfold testNameRegex. simpl.
  rewrite (test_stateless _ _ _ _ _ H). destruct w; reflexivity.
Qed.

Lemma mimeMatches_captured : forall f a,
  mimeMatches (captured f) a =
  match mimeTypes f with
  | Some (t :: ts) =>
      existsb (fun listed =>
                 typeMatches
                   (JS.orElse (option_map JS.toLowerCase (contentType a)) "")
                   (JS.toLowerCase listed))
              (t :: ts)
  | _ => true
  end.
Proof.
  intros f a. unfold mimeMatches, captured. cbn [normalizedMimeTypes].
  destruct (mimeTypes f) as [[|t ts]|]; [reflexivity | | reflexivity].
  change (existsb
            (typeMatches (JS.orElse (option_map JS.toLowerCase (contentType a)) ""))
            (map JS.toLowerCase (t :: ts)) =
          existsb
            (fun listed =>
               typeMatches (JS.orElse (option_map JS.toLowerCase (contentType a)) "")
                           (JS.toLowerCase listed))
            (t :: ts)).
  symmetry. apply existsb_map_compose.
Qed.

(** Without the [g] and [y] flags a call of the predicate is a pure test. *)
Lemma predicate_stateless : forall f a w,
  statelessFilter f = true ->
  predicate E (Some (captured f)) a w = (Value (satisfies (matcher E) f a), w).
Proof.
  intros f a w Hs. unfold predicate, satisfies, isTruthy.
  rewrite <- mimeMatches_captured.
  generalize (mimeMatches (captured f) a). intros mime.
  unfold statelessFilter in Hs. unfold captured at 1 2 3 4 5 6 7. simpl.
  rewrite !orUndefined_toLowerCase.
  unfold JS.orElse. rewrite !orUndefined_toLowerCase. unfold nameOf, JS.orElse.
  destruct (JS.orUndefined (name f)) as [n|];
    destruct (JS.orUndefined (nameContains f)) as [c|];
    destruct (JS.orUndefined (nameRegex f)) as [source|]; simpl;
    repeat match goal with
           | |- context [String.eqb ?x ?y] => destruct (String.eqb x y); simpl
           | |- context [JS.includes ?x ?y] => destruct (JS.includes x y); simpl
           end;
    try reflexivity;
    unfold bind;
    try (apply negb_true_iff in Hs; rewrite (testNameRegex_stateless _ _ _ _ Hs);
         destruct (patternMatches _ _ _ _); reflexivity).
Qed.

Lemma Array_filter_stateless : forall f l w,
  statelessFilter f = true ->
  Array_filter E (Some (captured f)) l w =
  (Value (List.filter (satisfies (matcher E) f) l), w).
Proof.
  intros f l w Hs. induction l as [|a rest IH]; cbn [Array_filter List.filter].
  - reflexivity.
  - unfold bind. rewrite (predicate_stateless f a w Hs), IH.
    destruct (satisfies (matcher E) f a); reflexivity.
Qed.

Lemma predicate_returns : forall p a w,
  exists b w', predicate E p a w = (Value b, w').
Proof.
  intros [c|] a w; [|eexists; eexists; reflexivity]. unfold predicate.
  repeat match goal with
         | |- context [if ?b then _ else _] => destruct b
         | |- context [match p_nameRegex c with Some _ => _ | None => _ end] =>
             destruct (p_nameRegex c) as [re|]
         end;
    try (eexists; eexists; reflexivity);
    unfold bind, testNameRegex;
    destruct (JS.test _ _ _) as [[|] r']; simpl; eexists; eexists; reflexivity.
Qed.

Lemma Array_filter_subsequence : forall p l w,
  exists kept w', Array_filter E p l w = (Value kept, w') /\ Subsequence kept l.
Proof.
  intros p l. induction l as [|a rest IH]; intros w; cbn [Array_filter].
  - exists [], w. split; [reflexivity | constructor].
  - unfold bind. destruct (predicate_returns p a w) as (b & w1 & Hp). rewrite Hp.
    destruct (IH w1) as (kept & w2 & Hk & Hsub). rewrite Hk.
    destruct b; eexists; eexists; (split; [reflexivity|]); constructor; exact Hsub.
Qed.

Lemma Array_filter_all : forall l w, Array_filter E None l w = (Value l, w).
Proof.
  induction l as [|a rest IH]; intros w; cbn [Array_filter].
  - reflexivity.
  - unfold bind. cbn [predicate ret]. rewrite IH. reflexivity.
Qed.

End Classification.

(** X21.  Classification always returns an order-preserving subsequence of
    the attachments, and all of them when there is no filter.  When the
    filter has no pattern, or a pattern whose flags contain neither [g] nor
    [y], the subsequence is that of the attachments satisfying every
    configured constraint: exact name and substring without regard to case,
    the pattern under its flags, and, when content types are listed, a
    listed type equal to the declared one without regard to case or, for a
    listed type ending in [/*], a declared type starting with what precedes
    the [/*]. *)
Theorem classification_keeps_the_satisfying_attachments :
  forall (E : Env) (f : AttachmentFilterParams) (l : list Attachment) (w : World),
    (forall p w1,
       buildAttachmentPredicate E (Some f) w = (Value p, w1) ->
       statelessFilter f = true ->
       Array_filter E p l w1 =
       (Value (List.filter (satisfies (matcher E) f) l), w1))
    /\ Array_filter E None l w = (Value l, w)
    /\ (forall p, exists kept w',
          Array_filter E p l w = (Value kept, w') /\ Subsequence kept l).
Proof.
  intros E f l w. repeat split.
  - intros p w1 Hb Hs. rewrite (build_captured E f w p w1 Hb).
    apply Array_filter_stateless. exact Hs.
  - apply Array_filter_all.
  - intros p. apply Array_filter_subsequence.
Qed.

Lemma classification_keeps_the_satisfying_attachments_witness :
  Array_filter Demo.env (Some (captured Demo.bySubstringAndType))
    [Demo.pdf "report.pdf" "%PDF-1"; Demo.note; Demo.pdf "x.pdf" "%PDF-2"]
    Demo.world0 =
  (Value [Demo.pdf "report.pdf" "%PDF-1"; Demo.pdf "x.pdf" "%PDF-2"], Demo.world0).
Proof.
  destruct (classification_keeps_the_satisfying_attachments
              Demo.env Demo.bySubstringAndType
              [Demo.pdf "report.pdf" "%PDF-1"; Demo.note; Demo.pdf "x.pdf" "%PDF-2"]
              Demo.world0) as (H & _).
  apply (H (Some (captured Demo.bySubstringAndType)) Demo.world0); reflexivity.
Defined.

(** C7 at a failing input: a filter whose pattern [pdf] has the [g] flag,
    on the two PDFs of message 8.  Both file names satisfy the pattern, so
    both attachments satisfy the filter, yet classification keeps the first
    only: the predicate calls [test] on the one RegExp object it holds, and
    with the [g] flag [test] resumes at the [lastIndex] that the match in
    the first name left behind. *)
Theorem global_pattern_drops_a_matching_attachment :
  List.filter (satisfies Demo.literal Demo.byGlobalPattern)
    [Demo.pdf "first.pdf" "%PDF-3"; Demo.pdf "second.pdf" "DISK-FULL"]
  = [Demo.pdf "first.pdf" "%PDF-3"; Demo.pdf "second.pdf" "DISK-FULL"]
  /\ fst (classify Demo.env (Some Demo.byGlobalPattern)
            [Demo.pdf "first.pdf" "%PDF-3"; Demo.pdf "second.pdf" "DISK-FULL"]
            Demo.world0)
     = Value [Demo.pdf "first.pdf" "%PDF-3"]
  /\ fst (classify Demo.env (Some Demo.byGlobalPattern)
            [Demo.pdf "first.pdf" "%PDF-3"; Demo.pdf "second.pdf" "DISK-FULL"]
            Demo.world0)
     <> Value (List.filter (satisfies Demo.literal Demo.byGlobalPattern)
                 [Demo.pdf "first.pdf" "%PDF-3"; Demo.pdf "second.pdf" "DISK-FULL"]).
Proof.
  split; [reflexivity | split; [reflexivity |]].
  vm_compute. discriminate.
Qed.

(** The filter ["image/*"] keeps [image/png] and [image/jpeg] and drops
    [application/json]. *)
Example images_keep_png :
  satisfies Demo.literal Demo.images (Demo.typed "a.png" "image/png") = true.
Proof. reflexivity. Qed.

Example images_keep_jpeg :
  satisfies Demo.literal Demo.images (Demo.typed "a.jpg" "Image/JPEG") = true.
Proof. reflexivity. Qed.

Example images_drop_json :
  satisfies Demo.literal Demo.images (Demo.typed "a.json" "application/json") = false.
Proof. reflexivity. Qed.

(** A file-name constraint and a content-type constraint must both hold. *)
Example name_and_type_are_conjunctive :
  List.filter (satisfies Demo.literal Demo.reportImages)
    [Demo.typed "Report.png" "image/png"; Demo.typed "report.pdf" "application/pdf";
     Demo.typed "logo.png" "image/png"]
  = [Demo.typed "Report.png" "image/png"].
Proof. reflexivity. Qed.

(** ** The batch loop *)

Lemma Settles_ret : forall A (a : A), Settles (ret a).
Proof. intros A a w. discriminate. Qed.

Lemma Settles_throw : forall A e, Settles (@throw A e).
Proof. intros A e w. discriminate. Qed.

Lemma Settles_bind : forall A B (c : M A) (k : A -> M B),
  Settles c -> (forall a, Settles (k a)) -> Settles (bind c k).
Proof.
  intros A B c k Hc Hk w. unfold bind. specialize (Hc w).
  destruct (c w) as [[a|e|] w']; simpl in *.
  - apply Hk.
  - discriminate.
  - exfalso. apply Hc. reflexivity.
Qed.

Lemma Settles_tryCatch : forall A (c : M A) (h : Thrown -> M A),
  Settles c -> (forall e, Settles (h e)) -> Settles (tryCatch c h).
Proof.
  intros A c h Hc Hh w. unfold tryCatch. specialize (Hc w).
  destruct (c w) as [[a|e|] w']; simpl in *.
  - discriminate.
  - apply Hh.
  - exfalso. apply Hc. reflexivity.
Qed.

Section Batch.

Variable E : Env.

Section Responsive.

Hypothesis responsive : Responsive E.

Lemma Settles_fetchRawByUid : forall uid, Settles (fetchRawByUid E uid).
Proof.
  intros uid w. destruct responsive as [_ Hfetch].
  assert (Hs : settled (fold_left (onFetchEvent uid)
                          (fetchEvents E (tick w) uid peekOptions) pending) <> None).
  { apply terminal_settles; [|apply Hfetch]. intros _. split; reflexivity. }
  unfold fetchRawByUid, bind, imap_fetch. simpl.
  destruct (settled _) as [[e|raw]|]; simpl; try discriminate. contradiction.
Qed.

Lemma Settles_searchCandidates : forall cands, Settles (searchCandidates E cands).
Proof.
  destruct responsive as [Hsearch _].
  induction cands as [|c rest IH]; intros w.
  - discriminate.
  - rewrite searchCandidates_cons. specialize (Hsearch (tick w) "MESSAGE-ID" c).
    destruct (searchReply E (tick w) "MESSAGE-ID" c) as [|e|[[|first l]|]];
      simpl; try discriminate; try apply IH. contradiction.
Qed.

Lemma Settles_resolveUid : forall idType id, Settles (resolveUid E idType id).
Proof.
  intros [|] id.
  - apply Settles_searchCandidates.
  - intros w. discriminate.
Qed.

Lemma Settles_parseMail : forall raw, Settles (parseMail E raw).
Proof.
  intros raw w. unfold parseMail. destruct (simpleParser E raw); discriminate.
Qed.

Lemma Settles_Array_filter : forall p l, Settles (Array_filter E p l).
Proof.
  intros p l w. destruct (Array_filter_subsequence E p l w) as (kept & w' & H & _).
  rewrite H. discriminate.
Qed.

Lemma Settles_processAttachments : forall uid matching processed,
  Settles (processAttachments E uid matching processed).
Proof.
  intros uid matching. induction matching as [|a rest IH]; intros processed w.
  - discriminate.
  - rewrite processAttachments_cons.
    destruct (shouldInlineTextAttachment (declaredType a) (content a)); [apply IH|].
    destruct (writeFileReply E (S (tick w)) (tempPath E uid a w) (content a));
      [discriminate | apply IH].
Qed.

Lemma Settles_downloadTry : forall p idType mailbox id results,
  Settles (downloadTry E p idType mailbox id results).
Proof.
  intros p idType mailbox id results. unfold downloadTry.
  apply Settles_bind; [apply Settles_resolveUid | intros uid].
  destruct (missing uid); [apply Settles_ret|].
  apply Settles_bind; [apply Settles_fetchRawByUid | intros raw].
  apply Settles_bind; [apply Settles_parseMail | intros mail].
  apply Settles_bind; [apply Settles_Array_filter | intros matching].
  apply Settles_bind; [apply Settles_processAttachments | intros processed].
  apply Settles_ret.
Qed.


Lemma Settles_runDownload : forall p idType mailbox ids results,
  Settles (runDownload E p idType mailbox ids results).
Proof.
  intros p idType mailbox ids. induction ids as [|id rest IH]; intros results.
  - apply Settles_ret.
  - cbn [runDownload]. apply Settles_bind; [|intros results'; apply IH].
    apply Settles_tryCatch; [apply Settles_downloadTry | intros e; apply Settles_ret].
Qed.


End Responsive.






(** The connection is ended when [run] settles, whichever way. *)
Lemma thenEnd_closes : forall A (c : M A) w,
  fst (c w) <> Hang -> connected (snd (thenEnd c w)) = false.
Proof.
  intros A c w H. unfold thenEnd.
  destruct (c w) as [[a|e|] w']; simpl in *; [reflexivity | reflexivity | contradiction].
Qed.

Lemma build_keeps_tick : forall filter w p w1,
  buildAttachmentPredicate E filter w = (Value p, w1) -> tick w1 = tick w.
Proof.
  intros [f|] w p w1; unfold buildAttachmentPredicate.
  - destruct (JS.orUndefined (nameRegex f)) as [source|].
    + destruct (JS.RegExp_new (matcher E) source (JS.orElse (nameRegexFlags f) ""));
        intros H; [discriminate H | injection H as _ <-; reflexivity].
    + intros H. injection H as _ <-. reflexivity.
  - intros H. injection H as _ <-. reflexivity.
Qed.

(** The outcome of a pending promise beside the error listener of the
    connection. *)
Lemma fst_orConnectionError : forall A (c : M A) w,
  fst (orConnectionError E c w) =
  match connectionError E (tick w) with
  | Some err => Throw err
  | None => fst (c w)
  end.
Proof.
  intros A c w. unfold orConnectionError.
  destruct (c w) as [r w']. destruct (connectionError E (tick w)); reflexivity.
Qed.

(** Once the mailbox is open, [downloadAttachments] is its loop followed by
    the end of the connection, beside the error listener of the
    connection. *)
Lemma downloadAttachments_opened : forall messageIds idType filter mailbox w p w1 u1 u2,
  buildAttachmentPredicate E filter w = (Value p, w1) ->
  connectReply E (tick w) = Replied u1 ->
  openBoxReply E (S (tick w)) mailbox true = Replied u2 ->
  fst (downloadAttachments E messageIds idType filter mailbox w) =
    match connectionError E (S (tick w)) with
    | Some err => Throw err
    | None =>
        fst (thenEnd (runDownload E p idType mailbox (normalizeMessageIds messageIds) [])
               (opened mailbox w1))
    end
  /\ snd (downloadAttachments E messageIds idType filter mailbox w) =
     snd (thenEnd (runDownload E p idType mailbox (normalizeMessageIds messageIds) [])
            (opened mailbox w1)).
Proof.
  intros messageIds idType filter mailbox w p w1 u1 u2 Hb Hc Ho.
  pose proof (build_keeps_tick _ _ _ _ Hb) as Ht.
  assert (Hready :
    downloadAttachments E messageIds idType filter mailbox w =
    orConnectionError E
      (imap_openBox E mailbox true ;;;
       thenEnd (runDownload E p idType mailbox (normalizeMessageIds messageIds) []))
      (setConnected true (request AConnect w1))).
  { unfold downloadAttachments. unfold bind at 1. rewrite Hb.
    unfold bind at 1. unfold imap_connect. rewrite Ht, Hc. reflexivity. }
  assert (Hopen :
    (imap_openBox E mailbox true ;;;
     thenEnd (runDownload E p idType mailbox (normalizeMessageIds messageIds) []))
      (setConnected true (request AConnect w1)) =
    thenEnd (runDownload E p idType mailbox (normalizeMessageIds messageIds) [])
      (opened mailbox w1)).
  { unfold bind, imap_openBox. cbn [tick request setConnected]. rewrite Ht, Ho.
    reflexivity. }
  rewrite Hready, fst_orConnectionError, snd_orConnectionError, Hopen.
  cbn [tick request setConnected]. rewrite Ht. split; reflexivity.
Qed.




End Batch.




Example all_failed_in_demo :
  fst (downloadAttachments Demo.env (inr ["12abc"; "x"; "10"]) UidType None "INBOX"
         Demo.world0) =
  Value [failedAttachments UidType "INBOX" "12abc"
           (ErrorObject "Message not found for UID: 12");
         notFoundAttachments UidType "INBOX" "x";
         failedAttachments UidType "INBOX" "10" (ErrorObject "connection reset")].
Proof. reflexivity. Qed.

(** ** Closing the connection *)

(** After the mailbox is open, the connection is closed when the operation
    settles. *)
Lemma batch_closes_after_open :
  forall (E : Env) (messageIds : string + list string) (idType : IdType)
         (filter : option AttachmentFilterParams) (mailbox : string)
         (w w1 : World) (p : Predicate),
    buildAttachmentPredicate E filter w = (Value p, w1) ->
    connectReply E (tick w) = Replied tt ->
    openBoxReply E (S (tick w)) mailbox true = Replied tt ->
    Responsive E ->
    fst (downloadAttachments E messageIds idType filter mailbox w) <> Hang ->
    connected (snd (downloadAttachments E messageIds idType filter mailbox w)) = false.
Proof.
  intros E messageIds idType filter mailbox w w1 p Hb Hc Ho Hr.
  destruct (downloadAttachments_opened E messageIds idType filter mailbox w p w1 tt tt
              Hb Hc Ho) as [_ ->].
  intros _. apply thenEnd_closes.
  apply Settles_runDownload. exact Hr.
Qed.

(** When the mailbox cannot be opened, the operation rejects with the error
    of [openBox] and the connection, which was established, stays open: no
    [end] is requested. *)
Lemma openBox_failure_keeps_connection :
  forall (E : Env) (messageIds : string + list string) (idType : IdType)
         (filter : option AttachmentFilterParams) (mailbox : string)
         (w w1 : World) (p : Predicate) (err : Thrown),
    buildAttachmentPredicate E filter w = (Value p, w1) ->
    connectReply E (tick w) = Replied tt ->
    openBoxReply E (S (tick w)) mailbox true = Failed err ->
    connectionError E (S (tick w)) = None ->
    downloadAttachments E messageIds idType filter mailbox w =
      (Throw err, request (AOpenBox mailbox true)
                    (setConnected true (request AConnect w1)))
    /\ peekMessages E messageIds idType mailbox w =
      (Throw err, request (AOpenBox mailbox true)
                    (setConnected true (request AConnect w))).
Proof.
  intros E messageIds idType filter mailbox w w1 p err Hb Hc Ho Hq.
  pose proof (build_keeps_tick E _ _ _ _ Hb) as Ht.
  unfold downloadAttachments, peekMessages, bind, orConnectionError. rewrite Hb.
  unfold imap_connect. rewrite Ht, Hc.
  unfold imap_openBox. simpl. rewrite Ht, Ho, Hq. split; reflexivity.
Qed.

(** C9 at a failing input: a batch on a mailbox the store does not know.
    The connection is established, [openBox] fails, and both operations
    reject while the connection is still open; the trace has no [end]. *)
Theorem connection_left_open_when_openBox_fails :
  fst (downloadAttachments Demo.env (inl "7") UidType None "Archive" Demo.world0)
    = Throw (ErrorObject "Unknown Mailbox")
  /\ connected (snd (downloadAttachments Demo.env (inl "7") UidType None "Archive"
                       Demo.world0)) = true
  /\ trace (snd (downloadAttachments Demo.env (inl "7") UidType None "Archive"
                   Demo.world0)) = [AConnect; AOpenBox "Archive" true]
  /\ fst (peekMessages Demo.env (inl "7") UidType "Archive" Demo.world0)
    = Throw (ErrorObject "Unknown Mailbox")
  /\ connected (snd (peekMessages Demo.env (inl "7") UidType "Archive" Demo.world0))
    = true
  /\ trace (snd (peekMessages Demo.env (inl "7") UidType "Archive" Demo.world0))
    = [AConnect; AOpenBox "Archive" true].
Proof. repeat split. Qed.

(** ** More on identifier resolution *)

Section ResolutionErrors.

Variable E : Env.

(** A search that fails ends the resolution: the error is thrown and no
    further candidate is searched. *)
Lemma search_first_failure : forall cands w k c e,
  nth_error cands k = Some c ->
  (forall i c', (i < k)%nat -> nth_error cands i = Some c' ->
     misses (searchReply E (tick w + i) "MESSAGE-ID" c') = true) ->
  searchReply E (tick w + k) "MESSAGE-ID" c = Failed e ->
  searchCandidates E cands w =
  (Throw e, requests (searchesFor (firstn (S k) cands)) w).
Proof.
  induction cands as [|c0 rest IH]; intros w k c e Hk Hmiss Hfail.
  - destruct k; discriminate.
  - rewrite searchCandidates_cons. destruct k as [|k].
    + simpl in Hk. injection Hk as ->. rewrite Nat.add_0_r in Hfail.
      rewrite Hfail. reflexivity.
    + pose proof (Hmiss O c0 (Nat.lt_0_succ k) eq_refl) as H0.
      rewrite Nat.add_0_r in H0.
      assert (Hrest : searchCandidates E rest (request (ASearch "MESSAGE-ID" c0) w) =
                      (Throw e,
                       requests (searchesFor (firstn (S (S k)) (c0 :: rest))) w)).
      { apply (IH _ k c e).
        - exact Hk.
        - intros i c' Hi Hnth. simpl.
          replace (S (tick w + i))%nat with (tick w + S i)%nat by lia.
          apply Hmiss; [lia | exact Hnth].
        - simpl. replace (S (tick w + k))%nat with (tick w + S k)%nat by lia.
          exact Hfail. }
      destruct (misses_inv _ H0) as [-> | ->]; exact Hrest.
Qed.

(** Whatever the replies, the searches issued are those of the first [n]
    candidates, in order, for some [n]. *)
Lemma searches_are_a_prefix : forall cands w,
  exists n, (n <= List.length cands)%nat
            /\ snd (searchCandidates E cands w) =
               requests (searchesFor (firstn n cands)) w.
Proof.
  induction cands as [|c rest IH]; intros w.
  - exists O. split; [apply Nat.le_refl | reflexivity].
  - rewrite searchCandidates_cons.
    destruct (IH (request (ASearch "MESSAGE-ID" c) w)) as (n & Hn & Hw).
    destruct (searchReply E (tick w) "MESSAGE-ID" c) as [|e|[[|first l]|]];
      try (exists 1%nat; split; [simpl; lia | reflexivity]);
      (exists (S n); split; [simpl; lia | exact Hw]).
Qed.

End ResolutionErrors.

Lemma candidates_at_most_two : forall id,
  (List.length (buildMessageIdCandidates id) <= 2)%nat.
Proof.
  intros id. unfold buildMessageIdCandidates.
  destruct (negb (JS.truthy (JS.trim id))); [simpl; lia|].
  destruct (JS.startsWith (JS.trim id) "<" && JS.endsWith (JS.trim id) ">");
    [destruct (JS.truthy (JS.slice_1_m1 (JS.trim id)))|]; simpl; lia.
Qed.

(** X1.  A transport error during resolution is not a miss and is not
    retried: when the search of a candidate fails after the candidates
    before it have missed, [resolveUidForMessageId] throws that error
    without searching any further candidate, and in a batch the identifier
    gets the failure record carrying the message of the error while the
    loop goes on. *)
Theorem search_error_is_thrown_not_retried :
  forall (E : Env) (p : Predicate) (mailbox id : string) (rest : list string)
         (results : list MessageAttachmentsResult) (w : World)
         (k : nat) (c : string) (e : Thrown),
    nth_error (buildMessageIdCandidates id) k = Some c ->
    (forall i c', (i < k)%nat ->
       nth_error (buildMessageIdCandidates id) i = Some c' ->
       misses (searchReply E (tick w + i) "MESSAGE-ID" c') = true) ->
    searchReply E (tick w + k) "MESSAGE-ID" c = Failed e ->
    resolveUidForMessageId E id w =
      (Throw e,
       requests (searchesFor (firstn (S k) (buildMessageIdCandidates id))) w)
    /\ runDownload E p MessageIdType mailbox (id :: rest) results w =
       runDownload E p MessageIdType mailbox rest
         (results ++ [failedAttachments MessageIdType mailbox id e])%list
         (requests (searchesFor (firstn (S k) (buildMessageIdCandidates id))) w).
Proof.
  intros E p mailbox id rest results w k c e Hk Hmiss Hfail.
  assert (Hres : resolveUidForMessageId E id w =
                 (Throw e,
                  requests (searchesFor (firstn (S k) (buildMessageIdCandidates id))) w)).
  { unfold resolveUidForMessageId. eapply search_first_failure; eassumption. }
  split; [exact Hres|].
  rewrite runDownload_cons. unfold downloadTry, bind.
  change (resolveUid E MessageIdType id w) with (resolveUidForMessageId E id w).
  rewrite Hres. reflexivity.
Qed.

(** X2.  Resolving an address costs at most two searches: the searches that
    [resolveUidForMessageId] issues are the MESSAGE-ID header searches of
    the first [n] candidates, in order, with [n <= 2], and nothing else is
    requested. *)
Theorem resolution_issues_at_most_two_searches :
  forall (E : Env) (id : string) (w : World),
    exists n,
      (n <= 2)%nat
      /\ snd (resolveUidForMessageId E id w) =
         requests (searchesFor (firstn n (buildMessageIdCandidates id))) w.
Proof.
  intros E id w. unfold resolveUidForMessageId.
  destruct (searches_are_a_prefix E (buildMessageIdCandidates id) w) as (n & Hn & Hw).
  exists n. split; [|exact Hw].
  pose proof (candidates_at_most_two id). lia.
Qed.

Lemma search_error_is_thrown_not_retried_witness :
  resolveUidForMessageId Flaky.env "lost@x" Demo.world0 =
    (Throw (ErrorObject "socket closed"),
     requests [ASearch "MESSAGE-ID" "<lost@x>"; ASearch "MESSAGE-ID" "lost@x"]
       Demo.world0)
  /\ runDownload Flaky.env None MessageIdType "INBOX" ["lost@x"; "zzz"] [] Demo.world0 =
     runDownload Flaky.env None MessageIdType "INBOX" ["zzz"]
       [failedAttachments MessageIdType "INBOX" "lost@x" (ErrorObject "socket closed")]
       (requests [ASearch "MESSAGE-ID" "<lost@x>"; ASearch "MESSAGE-ID" "lost@x"]
          Demo.world0).
Proof.
  apply (search_error_is_thrown_not_retried
           Flaky.env None "INBOX" "lost@x" ["zzz"] [] Demo.world0 1 "lost@x"
           (ErrorObject "socket closed")).
  - reflexivity.
  - intros i c' Hi Hnth. assert (i = O) by lia. subst i.
    simpl in Hnth. injection Hnth as <-. reflexivity.
  - reflexivity.
Defined.

(** ** The records of a batch *)

Lemma orElse_truthy : forall x d, JS.truthy d = true -> JS.truthy (JS.orElse x d) = true.
Proof.
  intros [[|c s]|] d Hd; unfold JS.orElse; simpl; auto.
Qed.

Lemma effectiveName_truthy : forall uid a, JS.truthy (effectiveName uid a) = true.
Proof. intros uid a. apply orElse_truthy. reflexivity. Qed.

Lemma declaredType_truthy : forall a, JS.truthy (declaredType a) = true.
Proof. intros a. apply orElse_truthy. reflexivity. Qed.

Lemma placed_is_sound : forall uid a r, placed uid a r -> soundAttachment r.
Proof.
  intros uid a r [[Hin ->] | [Hout (path & ->)]]; split; simpl.
  - exists (effectiveName uid a). split; [reflexivity | apply effectiveName_truthy].
  - split; [apply declaredType_truthy|]. right.
    exists (JS.toString_utf8 (content a)). repeat split.
    rewrite shouldInline_iff_eligible_and_short in Hin.
    apply andb_true_iff in Hin. destruct Hin as [_ Hin]. apply Nat.ltb_lt. exact Hin.
  - exists (effectiveName uid a). split; [reflexivity | apply effectiveName_truthy].
  - split; [apply declaredType_truthy|]. left. exists path. split; reflexivity.
Qed.

Section Records.

Variable E : Env.

(** The inner loop appends one result per attachment, in the order of the
    attachments. *)
Lemma processAttachments_appends : forall uid l processed w rs w',
  processAttachments E uid l processed w = (Value rs, w') ->
  exists new, rs = (processed ++ new)%list /\ Forall2 (placed uid) l new.
Proof.
  intros uid l. induction l as [|a rest IH]; intros processed w rs w' H.
  - simpl in H. injection H as <- _. exists []. split; [now rewrite app_nil_r | constructor].
  - rewrite processAttachments_cons in H.
    destruct (shouldInlineTextAttachment (declaredType a) (content a)) eqn:Hin.
    + destruct (IH _ _ _ _ H) as (new & -> & Hnew).
      exists (placedInline uid a :: new). split.
      * rewrite <- app_assoc. reflexivity.
      * constructor; [left; split; [exact Hin | reflexivity] | exact Hnew].
    + destruct (writeFileReply E (S (tick w)) (tempPath E uid a w) (content a));
        [discriminate|].
      destruct (IH _ _ _ _ H) as (new & -> & Hnew).
      exists (placedInFile uid a (tempPath E uid a w) :: new). split.
      * rewrite <- app_assoc. reflexivity.
      * constructor; [right; split; [exact Hin | eexists; reflexivity] | exact Hnew].
Qed.

Lemma Forall2_placed_sound : forall uid l rs,
  Forall2 (placed uid) l rs -> Forall soundAttachment rs.
Proof.
  intros uid l rs H. induction H; constructor; [|assumption].
  eapply placed_is_sound. eassumption.
Qed.

Lemma downloadTry_sound : forall p idType mailbox id results w rs w',
  Forall soundRecord results ->
  downloadTry E p idType mailbox id results w = (Value rs, w') ->
  Forall soundRecord rs.
Proof.
  intros p idType mailbox id results w rs w' Hres. unfold downloadTry, bind.
  destruct (resolveUid E idType id w) as [[uid|e|] w1]; try discriminate.
  destruct (missing uid).
  - intros H. injection H as <- _. apply Forall_app. split; [exact Hres|].
    repeat constructor.
  - destruct (fetchRawByUid E _ w1) as [[raw|e|] w2]; try discriminate.
    destruct (parseMail E raw w2) as [[mail|e|] w3]; try discriminate.
    destruct (Array_filter E p _ w3) as [[matching|e|] w4]; try discriminate.
    destruct (processAttachments E _ matching [] w4) as [[processed|e|] w5] eqn:Hp;
      try discriminate.
    intros H. injection H as <- _. apply Forall_app. split; [exact Hres|].
    constructor; [|constructor].
    destruct (processAttachments_appends _ _ _ _ _ _ Hp) as (new & -> & Hnew).
    unfold soundRecord. simpl. repeat split.
    + eexists. reflexivity.
    + eapply Forall2_placed_sound. exact Hnew.
Qed.

Lemma runDownload_sound : forall p idType mailbox ids results w rs w',
  Forall soundRecord results ->
  runDownload E p idType mailbox ids results w = (Value rs, w') ->
  Forall soundRecord rs.
Proof.
  intros p idType mailbox ids. induction ids as [|id rest IH];
    intros results w rs w' Hres H.
  - simpl in H. injection H as <- _. exact Hres.
  - rewrite runDownload_cons in H.
    destruct (downloadTry E p idType mailbox id results w) as [[rs1|e|] w1] eqn:T.
    + apply (IH _ _ _ _ (downloadTry_sound _ _ _ _ _ _ _ _ Hres T) H).
    + refine (IH _ _ _ _ _ H). apply Forall_app. split; [exact Hres|].
      repeat constructor.
    + discriminate.
Qed.

Lemma thenEnd_value : forall A (c : M A) w a w',
  thenEnd c w = (Value a, w') -> exists w1, c w = (Value a, w1).
Proof.
  intros A c w a w'. unfold thenEnd.
  destruct (c w) as [[a1|e|] w1]; intros H; try discriminate.
  injection H as <- _. exists w1. reflexivity.
Qed.

(** A value that comes out beside the error listener is the value of what
    was pending. *)
Lemma orConnectionError_value : forall A (c : M A) w a,
  fst (orConnectionError E c w) = Value a -> fst (c w) = Value a.
Proof.
  intros A c w a. unfold orConnectionError.
  destruct (c w) as [r w']. destruct (connectionError E (tick w)); simpl;
    [discriminate | trivial].
Qed.

End Records.

(** X3.  Every record that [downloadAttachments] returns is sound: a found
    record has a handle, no error, and attachments that each carry a
    non-empty file name, a non-empty content type and exactly one of
    [savedTo] and [inlineContent], an inline text being shorter than 1000
    characters; a record that is not found has no handle and an empty
    attachment list. *)
Theorem downloadAttachments_returns_sound_records :
  forall (E : Env) (messageIds : string + list string) (idType : IdType)
         (filter : option AttachmentFilterParams) (mailbox : string) (w : World)
         (rs : list MessageAttachmentsResult),
    fst (downloadAttachments E messageIds idType filter mailbox w) = Value rs ->
    Forall soundRecord rs.
Proof.
  intros E messageIds idType filter mailbox w rs. unfold downloadAttachments.
  unfold bind at 1.
  destruct (buildAttachmentPredicate E filter w) as [[p|e|] w1]; try discriminate.
  unfold bind at 1.
  destruct (imap_connect E w1) as [[u|e|] w2]; try discriminate.
  intros H. apply orConnectionError_value in H. revert H. unfold bind.
  destruct (imap_openBox E mailbox true w2) as [[u'|e|] w3]; try discriminate.
  destruct (thenEnd _ w3) as [c w4] eqn:T. simpl. intros ->.
  destruct (thenEnd_value _ _ _ _ _ T) as (w5 & Hrun).
  eapply runDownload_sound; [constructor | exact Hrun].
Qed.

Lemma downloadAttachments_returns_sound_records_witness :
  Forall soundRecord
    (match fst (downloadAttachments Demo.env (inr ["7"; "x"; "8"]) UidType None "INBOX"
                  Demo.world0) with
     | Value rs => rs
     | _ => []
     end).
Proof.
  apply (downloadAttachments_returns_sound_records
           Demo.env (inr ["7"; "x"; "8"]) UidType None "INBOX" Demo.world0).
  reflexivity.
Defined.

(** X4.  The results of a message follow its matching attachments one for
    one and in order: when the inner loop of [downloadAttachments] returns,
    the i-th result is the i-th attachment placed inline (name, type, size
    and decoded text) if it is inline-eligible, and the same attachment
    placed in a file otherwise. *)
Theorem attachment_results_follow_the_attachments :
  forall (E : Env) (uid : Z) (matching : list Attachment) (w w' : World)
         (rs : list AttachmentResult),
    processAttachments E uid matching [] w = (Value rs, w') ->
    Forall2 (placed uid) matching rs.
Proof.
  intros E uid matching w w' rs H.
  destruct (processAttachments_appends E _ _ _ _ _ _ H) as (new & -> & Hnew).
  exact Hnew.
Qed.

Lemma attachment_results_follow_the_attachments_witness :
  Forall2 (placed 7)
    [Demo.pdf "report.pdf" "%PDF-1"; Demo.note]
    [placedInFile 7 (Demo.pdf "report.pdf" "%PDF-1") "/tmp/0a1b2c3d4e00-report.pdf";
     placedInline 7 Demo.note].
Proof.
  apply (attachment_results_follow_the_attachments
           Demo.env 7 [Demo.pdf "report.pdf" "%PDF-1"; Demo.note] Demo.world0
           (afterWrite Demo.env 7 (Demo.pdf "report.pdf" "%PDF-1") Demo.world0)).
  reflexivity.
Defined.

(** ** The records of a peek *)

Lemma length_attachmentMetas : forall uid index l,
  List.length (attachmentMetas uid index l) = List.length l.
Proof.
  intros uid index l. revert index.
  induction l as [|a rest IH]; intros index; simpl; [reflexivity|].
  rewrite IH. reflexivity.
Qed.

Lemma truthy_iff_positive_length : forall x,
  isTruthy x = (0 <? stringLength (JS.orElse x "")).
Proof.
  intros [[|c s]|]; reflexivity.
Qed.

Lemma html_flag_iff_positive_length : forall h : option string,
  isTruthy h = (0 <? stringLength (match h with Some s => s | None => "" end)).
Proof.
  intros [[|c s]|]; reflexivity.
Qed.

Section PeekRecords.

Variable E : Env.

Lemma peekTry_sound : forall idType mailbox id results w rs w',
  Forall soundPeek results ->
  peekTry E idType mailbox id results w = (Value rs, w') ->
  Forall soundPeek rs.
Proof.
  intros idType mailbox id results w rs w' Hres. unfold peekTry, bind.
  destruct (resolveUid E idType id w) as [[uid|e|] w1]; try discriminate.
  destruct (missing uid).
  - intros H. injection H as <- _. apply Forall_app. split; [exact Hres|].
    repeat constructor.
  - destruct (fetchRawByUid E _ w1) as [[raw|e|] w2]; try discriminate.
    destruct (parseMail E raw w2) as [[mail|e|] w3]; try discriminate.
    assert (Hrec : forall iso,
              soundPeek
                {| mpr_id := id; mpr_idType := idType; mpr_mailbox := mailbox;
                   mpr_found := true;
                   mpr_uid := Some (JS.Number_toString
                                      (match uid with Some z => z | None => 0 end));
                   mpr_subject := JS.orUndefined (subject mail);
                   mpr_from := formatAddress (from mail);
                   mpr_to := formatAddress (to mail);
                   mpr_date := iso;
                   mpr_messageId := JS.orUndefined (messageId mail);
                   mpr_hasHtml := Some (isTruthy (html mail));
                   mpr_hasText := Some (isTruthy (text mail));
                   mpr_htmlSize :=
                     Some (stringLength
                             (match html mail with Some h => h | None => "" end));
                   mpr_textSize := Some (stringLength (JS.orElse (text mail) ""));
                   mpr_attachmentCount :=
                     Z.of_nat
                       (List.length
                          (attachmentMetas
                             (match uid with Some z => z | None => 0 end) 0
                             (match attachments mail with Some l => l | None => [] end)));
                   mpr_attachments :=
                     attachmentMetas (match uid with Some z => z | None => 0 end) 0
                       (match attachments mail with Some l => l | None => [] end);
                   mpr_error := None |}).
    { intros iso. unfold soundPeek. simpl. repeat split.
      - eexists. reflexivity.
      - eexists. split; [reflexivity|]. f_equal. apply html_flag_iff_positive_length.
      - eexists. split; [reflexivity|]. f_equal. apply truthy_iff_positive_length. }
    destruct (date mail) as [[e|iso]|]; try discriminate;
      intros H; injection H as <- _; apply Forall_app; (split; [exact Hres|]);
      (constructor; [apply Hrec | constructor]).
Qed.

Lemma runPeek_sound : forall idType mailbox ids results w rs w',
  Forall soundPeek results ->
  runPeek E idType mailbox ids results w = (Value rs, w') ->
  Forall soundPeek rs.
Proof.
  intros idType mailbox ids. induction ids as [|id rest IH];
    intros results w rs w' Hres H.
  - simpl in H. injection H as <- _. exact Hres.
  - cbn [runPeek] in H. unfold bind, tryCatch in H.
    destruct (peekTry E idType mailbox id results w) as [[rs1|e|] w1] eqn:T.
    + apply (IH _ _ _ _ (peekTry_sound _ _ _ _ _ _ _ Hres T) H).
    + unfold peekCatch, ret at 1 in H. refine (IH _ _ _ _ _ H).
      apply Forall_app. split; [exact Hres|]. repeat constructor.
    + discriminate.
Qed.

End PeekRecords.

(** X5.  Every record that [peekMessages] returns is sound: its
    [attachmentCount] is the length of its attachment inventory; a found
    record has a handle and no error, [hasHtml] is true exactly when
    [htmlSize] is positive and [hasText] exactly when [textSize] is; a
    record that is not found has no handle and an empty inventory. *)
Theorem peekMessages_returns_sound_records :
  forall (E : Env) (messageIds : string + list string) (idType : IdType)
         (mailbox : string) (w : World) (rs : list MessagePeekResult),
    fst (peekMessages E messageIds idType mailbox w) = Value rs ->
    Forall soundPeek rs.
Proof.
  intros E messageIds idType mailbox w rs. unfold peekMessages.
  unfold bind at 1.
  destruct (imap_connect E w) as [[u|e|] w2]; try discriminate.
  intros H. apply orConnectionError_value in H. revert H. unfold bind.
  destruct (imap_openBox E mailbox true w2) as [[u'|e|] w3]; try discriminate.
  destruct (thenEnd _ w3) as [c w4] eqn:T. simpl. intros ->.
  destruct (thenEnd_value _ _ _ _ _ T) as (w5 & Hrun).
  eapply runPeek_sound; [constructor | exact Hrun].
Qed.

Lemma peekMessages_returns_sound_records_witness :
  Forall soundPeek
    (match fst (peekMessages Demo.env (inr ["7"; "x"; "10"]) UidType "INBOX"
                  Demo.world0) with
     | Value rs => rs
     | _ => []
     end).
Proof.
  apply (peekMessages_returns_sound_records
           Demo.env (inr ["7"; "x"; "10"]) UidType "INBOX" Demo.world0).
  reflexivity.
Defined.

(** X6.  A peek downloads nothing: whatever the store answers,
    [peekMessages] never asks for a file to be written. *)
Theorem peekMessages_never_writes :
  forall (E : Env) (messageIds : string + list string) (idType : IdType)
         (mailbox : string) (w : World),
    exists added,
      trace (snd (peekMessages E messageIds idType mailbox w)) = (trace w ++ added)%list
      /\ forall path data, ~ In (AWriteFile path data) added.
Proof.
  intros E messageIds idType mailbox w.
  destruct (Keeps_peekMessages notWrite E) with
    (messageIds := messageIds) (idType := idType) (mailbox := mailbox) (w := w)
    as [(added & T & F) _]; simpl; auto.
  exists added. split; [exact T|].
  intros path data Hin. rewrite Forall_forall in F. apply (F _ Hin).
Qed.

(** ** Observations that an operation preserves *)

Section Preservation.

Variables (X : Type) (f : World -> X).

Lemma Preserves_ret : forall A (a : A), Preserves f (ret a).
Proof. intros A a w. reflexivity. Qed.

Lemma Preserves_throw : forall A e, Preserves f (@throw A e).
Proof. intros A e w. reflexivity. Qed.

Lemma Preserves_bind : forall A B (c : M A) (k : A -> M B),
  Preserves f c -> (forall a, Preserves f (k a)) -> Preserves f (bind c k).
Proof.
  intros A B c k Hc Hk w. unfold bind. specialize (Hc w).
  destruct (c w) as [[a|e|] w']; simpl in *; try exact Hc.
  rewrite Hk. exact Hc.
Qed.

Variable E : Env.

Lemma Preserves_parseMail : forall raw, Preserves f (parseMail E raw).
Proof.
  intros raw. unfold parseMail.
  destruct (simpleParser E raw); [apply Preserves_throw | apply Preserves_ret].
Qed.

Hypothesis f_request : forall a w, f (request a w) = f w.
Hypothesis f_drawn : forall w, f (drawn w) = f w.

Lemma Preserves_writeRawToTemp : forall raw uid, Preserves f (writeRawToTemp E raw uid).
Proof.
  intros raw uid. unfold writeRawToTemp.
  apply Preserves_bind; [intros w; apply f_drawn | intros token].
  apply Preserves_bind; [|intros _; apply Preserves_ret].
  intros w. unfold fs_writeFile.
  destruct (writeFileReply E (tick w) _ _); apply f_request.
Qed.

End Preservation.

(** ** getMessageContent *)

Section Content.

Variable E : Env.
Variable htmlToText : string -> string.
Variables (id : string) (format : Format) (saveRawToFile : bool) (mailbox : string).
Variable uid : Z.

Let step := onContentEvent E htmlToText id format saveRawToFile mailbox uid.
Let finish := finalize E htmlToText id format saveRawToFile mailbox uid.

Lemma onContentEvent_end : forall x w,
  c_endSeen x = false ->
  step (x, w) EvEnd =
  ({| rawChunks := rawChunks x; foundMessage := foundMessage x;
      c_errorSeen := c_errorSeen x; c_endSeen := true;
      c_settled :=
        settlement (fst (finish (foundMessage x) (rawChunks x) (snd (imap_end w))))
                   (c_settled x) |},
   snd (finish (foundMessage x) (rawChunks x) (snd (imap_end w)))).
Proof.
  intros x w H. unfold step, finish, onContentEvent. rewrite H.
  destruct (finalize E htmlToText id format saveRawToFile mailbox uid
              (foundMessage x) (rawChunks x) (snd (imap_end w))) as [[r|e|] w2];
    reflexivity.
Qed.

Lemma finalize_settles : forall found raw w, fst (finish found raw w) <> Hang.
Proof.
  intros found raw. unfold finish, finalize.
  destruct (negb found); [apply Settles_throw|].
  apply Settles_bind.
  - destruct format; try apply Settles_ret;
      (apply Settles_bind; [apply Settles_parseMail | intros parsed; apply Settles_ret]).
  - intros [[body hasHtml] hasText].
    apply Settles_bind; [|intros saved; apply Settles_ret].
    destruct saveRawToFile; [|apply Settles_ret].
    apply Settles_bind; [|intros s; apply Settles_ret].
    unfold writeRawToTemp.
    apply Settles_bind; [intros w; discriminate | intros token].
    apply Settles_bind; [|intros _; apply Settles_ret].
    intros w. unfold fs_writeFile.
    destruct (writeFileReply E (tick w) _ _); discriminate.
Qed.

Lemma finalize_keeps_connected : forall found raw w,
  connected (snd (finish found raw w)) = connected w.
Proof.
  intros found raw.
  change (Preserves connected
            (finalize E htmlToText id format saveRawToFile mailbox uid found raw)).
  unfold finalize.
  destruct (negb found); [apply Preserves_throw|].
  apply Preserves_bind.
  - destruct format; try apply Preserves_ret;
      (apply Preserves_bind;
       [apply Preserves_parseMail | intros parsed; apply Preserves_ret]).
  - intros [[body hasHtml] hasText].
    apply Preserves_bind; [|intros saved; apply Preserves_ret].
    destruct saveRawToFile; [|apply Preserves_ret].
    apply Preserves_bind; [|intros s; apply Preserves_ret].
    apply Preserves_writeRawToTemp; reflexivity.
Qed.

(** Message events accumulate the chunks and leave the world alone. *)
Lemma content_fold_messages : forall pre x w,
  forallb isMessage pre = true ->
  fold_left step pre (x, w) =
  ({| rawChunks := (rawChunks x ++ bodyData pre)%list;
      foundMessage := foundMessage x || existsb isMessage pre;
      c_errorSeen := c_errorSeen x; c_endSeen := c_endSeen x;
      c_settled := c_settled x |}, w).
Proof.
  induction pre as [|ev rest IH]; intros x w Hall.
  - destruct x. simpl. rewrite app_nil_r, orb_false_r. reflexivity.
  - simpl in Hall. apply andb_true_iff in Hall. destruct Hall as [Hev Hrest].
    destruct ev as [body|err|]; try discriminate.
    cbn [fold_left]. unfold step at 2. cbn [onContentEvent].
    fold step. rewrite (IH _ _ Hrest). cbn.
    rewrite <- app_assoc, orb_true_r. reflexivity.
Qed.

(** Once the end has been handled and the promise is settled, further
    events change neither the settlement nor the world. *)
Lemma content_fold_after_end : forall post x w s,
  c_endSeen x = true ->
  c_settled x = Some s ->
  c_settled (fst (fold_left step post (x, w))) = Some s
  /\ snd (fold_left step post (x, w)) = w.
Proof.
  induction post as [|ev rest IH]; intros x w s Hend Hs.
  - split; [exact Hs | reflexivity].
  - cbn [fold_left]. destruct ev as [body|err|]; unfold step at 2 4;
      cbn [onContentEvent]; fold step.
    + apply IH; [exact Hend | exact Hs].
    + destruct (c_errorSeen x); [apply IH; assumption|].
      apply IH; [exact Hend | cbn; rewrite Hs; reflexivity].
    + rewrite Hend. apply IH; assumption.
Qed.

(** The connection is ended by the first end event, and by nothing else. *)
Lemma content_fold_connected : forall events x w,
  connected (snd (fold_left step events (x, w))) =
  if c_endSeen x then connected w
  else if existsb isEnd events then false else connected w.
Proof.
  induction events as [|ev rest IH]; intros x w.
  - simpl. destruct (c_endSeen x); reflexivity.
  - cbn [fold_left existsb]. destruct ev as [body|err|].
    + unfold step at 2. cbn [onContentEvent]. fold step. rewrite IH. reflexivity.
    + unfold step at 2. cbn [onContentEvent]. fold step.
      destruct (c_errorSeen x); rewrite IH; reflexivity.
    + destruct (c_endSeen x) eqn:Hend.
      * unfold step at 2. cbn [onContentEvent]. rewrite Hend. fold step.
        rewrite IH, Hend. reflexivity.
      * rewrite (onContentEvent_end x w Hend). rewrite IH. cbn.
        apply finalize_keeps_connected.
Qed.

End Content.

Section ContentRun.

Variable E : Env.
Variable htmlToText : string -> string.

(** With a valid handle, a ready connection and an open mailbox,
    [getMessageContent] is the run of its listeners over the events of one
    fetch. *)
Lemma getMessageContent_running :
  forall id format saveRawToFile mailbox w uid u1 u2,
    JS.parseInt10 id = JS.Num uid ->
    0 < uid ->
    connectReply E (tick w) = Replied u1 ->
    openBoxReply E (S (tick w)) mailbox true = Replied u2 ->
    getMessageContent E htmlToText id format saveRawToFile mailbox w =
    awaitSettled
      (c_settled
         (fst (fold_left (onContentEvent E htmlToText id format saveRawToFile mailbox uid)
                 (fetchEvents E (S (S (tick w))) uid peekOptions)
                 ({| rawChunks := []; foundMessage := false; c_errorSeen := false;
                     c_endSeen := false; c_settled := None |},
                  fetching mailbox uid w))))
      (snd (fold_left (onContentEvent E htmlToText id format saveRawToFile mailbox uid)
              (fetchEvents E (S (S (tick w))) uid peekOptions)
              ({| rawChunks := []; foundMessage := false; c_errorSeen := false;
                  c_endSeen := false; c_settled := None |},
               fetching mailbox uid w))).
Proof.
  intros id format saveRawToFile mailbox w uid u1 u2 Hp Hpos Hc Ho.
  unfold getMessageContent. rewrite Hp.
  assert (Hz : (uid <=? 0) = false) by (apply Z.leb_gt; exact Hpos).
  cbn [JS.isFinite negb orb le0]. rewrite Hz.
  unfold bind. unfold imap_connect. rewrite Hc.
  unfold imap_openBox. cbn [tick request setConnected]. rewrite Ho.
  unfold imap_fetch. cbn [markSeen peekOptions andb].
  cbn [tick request setConnected setReadOnlyBox].
  destruct (fold_left _ _ _) as [x w']. reflexivity.
Qed.

(** When the exchange delivers messages and then its end, the outcome is
    that of [finalize] on the chunks delivered, run after the connection has
    been ended. *)
Lemma getMessageContent_finalizes :
  forall id format saveRawToFile mailbox w uid pre post,
    JS.parseInt10 id = JS.Num uid ->
    0 < uid ->
    connectReply E (tick w) = Replied tt ->
    openBoxReply E (S (tick w)) mailbox true = Replied tt ->
    fetchEvents E (S (S (tick w))) uid peekOptions = (pre ++ EvEnd :: post)%list ->
    forallb isMessage pre = true ->
    getMessageContent E htmlToText id format saveRawToFile mailbox w =
    finalize E htmlToText id format saveRawToFile mailbox uid
      (existsb isMessage pre) (bodyData pre) (ended mailbox uid w).
Proof.
  intros id format saveRawToFile mailbox w uid pre post Hp Hpos Hc Ho Hev Hall.
  rewrite (getMessageContent_running id format saveRawToFile mailbox w uid tt tt
             Hp Hpos Hc Ho).
  rewrite Hev, fold_left_app. rewrite (content_fold_messages _ _ _ _ _ _ _ _ _ _ Hall).
  cbn [fold_left rawChunks foundMessage c_errorSeen c_endSeen c_settled app orb].
  rewrite onContentEvent_end by reflexivity.
  cbn [rawChunks foundMessage c_errorSeen c_endSeen c_settled].
  fold (fetching mailbox uid w). fold (ended mailbox uid w).
  pose proof (finalize_settles E htmlToText id format saveRawToFile mailbox uid
                (existsb isMessage pre) (bodyData pre) (ended mailbox uid w)) as Hs.
  destruct (finalize E htmlToText id format saveRawToFile mailbox uid
              (existsb isMessage pre) (bodyData pre) (ended mailbox uid w))
    as [[r|e|] w2] eqn:F; cbn [fst snd settlement settle] in *.
  - match goal with
    | |- awaitSettled (c_settled (fst (fold_left ?f post (?x, w2)))) _ = _ =>
        destruct (content_fold_after_end E htmlToText id format saveRawToFile mailbox
                    uid post x w2 (inr r) eq_refl eq_refl) as [H1 H2]
    end.
    rewrite H1, H2. reflexivity.
  - match goal with
    | |- awaitSettled (c_settled (fst (fold_left ?f post (?x, w2)))) _ = _ =>
        destruct (content_fold_after_end E htmlToText id format saveRawToFile mailbox
                    uid post x w2 (inl e) eq_refl eq_refl) as [H1 H2]
    end.
    rewrite H1, H2. reflexivity.
  - exfalso. apply Hs. reflexivity.
Qed.

End ContentRun.

Lemma snd_awaitSettled : forall A (s : option (Thrown + A)) w,
  snd (awaitSettled s w) = w.
Proof. intros A [[e|a]|] w; reflexivity. Qed.

Section ContentWithoutSave.

Variable E : Env.
Variable htmlToText : string -> string.
Variables (id : string) (format : Format) (mailbox : string) (uid : Z).

Lemma finalize_without_save_requests_nothing : forall found raw w,
  trace (snd (finalize E htmlToText id format false mailbox uid found raw w)) = trace w.
Proof.
  intros found raw.
  change (Preserves trace (finalize E htmlToText id format false mailbox uid found raw)).
  unfold finalize.
  destruct (negb found); [apply Preserves_throw|].
  apply Preserves_bind.
  - destruct format; try apply Preserves_ret;
      (apply Preserves_bind;
       [apply Preserves_parseMail | intros parsed; apply Preserves_ret]).
  - intros [[body hasHtml] hasText].
    apply Preserves_bind; [apply Preserves_ret | intros saved; apply Preserves_ret].
Qed.

Lemma content_fold_trace : forall events x w,
  trace (snd (fold_left (onContentEvent E htmlToText id format false mailbox uid)
                events (x, w))) =
  (trace w ++ (if c_endSeen x then []
               else if existsb isEnd events then [AEnd] else []))%list.
Proof.
  induction events as [|ev rest IH]; intros x w.
  - simpl. destruct (c_endSeen x); now rewrite app_nil_r.
  - cbn [fold_left existsb]. destruct ev as [body|err|].
    + cbn [onContentEvent]. rewrite IH. reflexivity.
    + cbn [onContentEvent]. destruct (c_errorSeen x); rewrite IH; reflexivity.
    + destruct (c_endSeen x) eqn:Hend.
      * cbn [onContentEvent]. rewrite Hend. rewrite IH, Hend. reflexivity.
      * rewrite (onContentEvent_end E htmlToText id format false mailbox uid x w Hend).
        rewrite IH. cbn [c_endSeen isEnd orb].
        rewrite finalize_without_save_requests_nothing. rewrite app_nil_r.
        reflexivity.
Qed.

End ContentWithoutSave.

(** X7.  [getMessageContent] ends its connection exactly when the end event
    of the fetch is delivered: with a valid handle, a ready connection and
    an open mailbox, the connection is closed after the call if the exchange
    delivers an end, and is still open if it does not (an exchange that only
    reports an error leaves it open). *)
Theorem getMessageContent_closes_iff_end_is_delivered :
  forall (E : Env) (htmlToText : string -> string) (id : string) (format : Format)
         (saveRawToFile : bool) (mailbox : string) (w : World) (uid : Z),
    JS.parseInt10 id = JS.Num uid ->
    0 < uid ->
    connectReply E (tick w) = Replied tt ->
    openBoxReply E (S (tick w)) mailbox true = Replied tt ->
    connected (snd (getMessageContent E htmlToText id format saveRawToFile mailbox w)) =
    negb (existsb isEnd (fetchEvents E (S (S (tick w))) uid peekOptions)).
Proof.
  intros E htmlToText id format saveRawToFile mailbox w uid Hp Hpos Hc Ho.
  rewrite (getMessageContent_running E htmlToText id format saveRawToFile mailbox w
             uid tt tt Hp Hpos Hc Ho).
  rewrite snd_awaitSettled, content_fold_connected. cbn [c_endSeen].
  destruct (existsb isEnd _); reflexivity.
Qed.

Lemma getMessageContent_closes_iff_end_is_delivered_witness :
  connected (snd (getMessageContent Demo.env Demo.render "7" FormatHtml false "INBOX"
                    Demo.world0)) = negb true.
Proof.
  apply (getMessageContent_closes_iff_end_is_delivered
           Demo.env Demo.render "7" FormatHtml false "INBOX" Demo.world0 7);
    reflexivity || lia.
Defined.

(** X8.  Without [saveRawToFile], [getMessageContent] requests a
    connection, the mailbox read-only, one fetch of its handle, and the end
    of the connection if the end event comes; it requests nothing else, and
    in particular writes no file. *)
Theorem getMessageContent_without_save_requests :
  forall (E : Env) (htmlToText : string -> string) (id : string) (format : Format)
         (mailbox : string) (w : World) (uid : Z),
    JS.parseInt10 id = JS.Num uid ->
    0 < uid ->
    connectReply E (tick w) = Replied tt ->
    openBoxReply E (S (tick w)) mailbox true = Replied tt ->
    trace (snd (getMessageContent E htmlToText id format false mailbox w)) =
    (trace w ++ [AConnect; AOpenBox mailbox true; AFetch uid peekOptions]
     ++ (if existsb isEnd (fetchEvents E (S (S (tick w))) uid peekOptions)
         then [AEnd] else []))%list.
Proof.
  intros E htmlToText id format mailbox w uid Hp Hpos Hc Ho.
  rewrite (getMessageContent_running E htmlToText id format false mailbox w
             uid tt tt Hp Hpos Hc Ho).
  rewrite snd_awaitSettled, content_fold_trace. cbn [c_endSeen].
  unfold fetching, opened. cbn [trace request setConnected setReadOnlyBox].
  rewrite <- !app_assoc. reflexivity.
Qed.

Lemma getMessageContent_without_save_requests_witness :
  trace (snd (getMessageContent Demo.env Demo.render "10" FormatText false "INBOX"
                Demo.world0)) =
  [AConnect; AOpenBox "INBOX" true; AFetch 10 peekOptions; AEnd].
Proof.
  apply (getMessageContent_without_save_requests
           Demo.env Demo.render "10" FormatText "INBOX" Demo.world0 10);
    reflexivity || lia.
Defined.

(** X9.  When the exchange ends before any message was found,
    [getMessageContent] ends the connection and then fails with
    [Message not found for id: <id>]. *)
Theorem getMessageContent_without_message_is_not_found :
  forall (E : Env) (htmlToText : string -> string) (id : string) (format : Format)
         (saveRawToFile : bool) (mailbox : string) (w : World) (uid : Z)
         (post : list FetchEvent),
    JS.parseInt10 id = JS.Num uid ->
    0 < uid ->
    connectReply E (tick w) = Replied tt ->
    openBoxReply E (S (tick w)) mailbox true = Replied tt ->
    fetchEvents E (S (S (tick w))) uid peekOptions = EvEnd :: post ->
    getMessageContent E htmlToText id format saveRawToFile mailbox w =
      (Throw (ErrorObject ("Message not found for id: " ++ id)), ended mailbox uid w)
    /\ connected (ended mailbox uid w) = false.
Proof.
  intros E htmlToText id format saveRawToFile mailbox w uid post Hp Hpos Hc Ho Hev.
  split; [|reflexivity].
  rewrite (getMessageContent_finalizes E htmlToText id format saveRawToFile mailbox w
             uid [] post Hp Hpos Hc Ho Hev eq_refl).
  reflexivity.
Qed.

Lemma getMessageContent_without_message_is_not_found_witness :
  getMessageContent Demo.env Demo.render "12abc" FormatHtml true "INBOX" Demo.world0 =
    (Throw (ErrorObject "Message not found for id: 12abc"), ended "INBOX" 12 Demo.world0)
  /\ connected (ended "INBOX" 12 Demo.world0) = false.
Proof.
  apply (getMessageContent_without_message_is_not_found
           Demo.env Demo.render "12abc" FormatHtml true "INBOX" Demo.world0 12 []);
    reflexivity || lia.
Defined.

(** X10.  In the raw format the body is the delivered chunks, concatenated
    in order and decoded as UTF-8, and the parser plays no part: so it is
    for a handle below 2^53 whose exchange delivers messages, then its end,
    and no error after it.  With [saveRawToFile] the same bytes are written
    to the file that [join] of node:path gives for the temporary directory
    and [message-<uid>-<token>.eml]: when the write succeeds the result
    carries that path and the number of bytes, and when it fails the call
    fails with the error of the write. *)
Theorem getMessageContent_raw_returns_the_delivered_bytes :
  forall (E : Env) (htmlToText : string -> string) (id mailbox : string) (w : World)
         (uid : Z) (pre post : list FetchEvent),
    JS.parseInt10 id = JS.Num uid ->
    0 < uid < 2 ^ 53 ->
    connectReply E (tick w) = Replied tt ->
    openBoxReply E (S (tick w)) mailbox true = Replied tt ->
    fetchEvents E (S (S (tick w))) uid peekOptions = (pre ++ EvEnd :: post)%list ->
    forallb isMessage pre = true ->
    existsb isMessage pre = true ->
    existsb isError post = false ->
    getMessageContent E htmlToText id FormatRaw false mailbox w =
      (Value (rawResult id mailbox (JS.Buffer_concat (bodyData pre)) (None, None)),
       ended mailbox uid w)
    /\ (writeFileReply E (S (tick (ended mailbox uid w)))
          (rawPath E uid (ended mailbox uid w)) (JS.Buffer_concat (bodyData pre)) = None ->
        getMessageContent E htmlToText id FormatRaw true mailbox w =
        (Value (rawResult id mailbox (JS.Buffer_concat (bodyData pre))
                  (Some (rawPath E uid (ended mailbox uid w)),
                   Some (Z.of_nat (List.length (JS.Buffer_concat (bodyData pre)))))),
         request (AWriteFile (rawPath E uid (ended mailbox uid w))
                    (JS.Buffer_concat (bodyData pre)))
           (drawn (ended mailbox uid w))))
    /\ (forall e,
          writeFileReply E (S (tick (ended mailbox uid w)))
            (rawPath E uid (ended mailbox uid w)) (JS.Buffer_concat (bodyData pre))
          = Some e ->
          fst (getMessageContent E htmlToText id FormatRaw true mailbox w) = Throw e).
Proof.
  intros E htmlToText id mailbox w uid pre post Hp [Hpos _] Hc Ho Hev Hall Hfound _.
  repeat split.
  - rewrite (getMessageContent_finalizes E htmlToText id FormatRaw false mailbox w
               uid pre post Hp Hpos Hc Ho Hev Hall).
    rewrite Hfound. reflexivity.
  - intros Hw.
    rewrite (getMessageContent_finalizes E htmlToText id FormatRaw true mailbox w
               uid pre post Hp Hpos Hc Ho Hev Hall).
    rewrite Hfound. unfold finalize, bind, writeRawToTemp, bind, randomToken, fs_writeFile.
    cbn [negb ret fst snd tick drawn]. fold (rawPath E uid (ended mailbox uid w)).
    rewrite Hw. reflexivity.
  - intros e Hw.
    rewrite (getMessageContent_finalizes E htmlToText id FormatRaw true mailbox w
               uid pre post Hp Hpos Hc Ho Hev Hall).
    rewrite Hfound. unfold finalize, bind, writeRawToTemp, bind, randomToken, fs_writeFile.
    cbn [negb ret fst snd tick drawn]. fold (rawPath E uid (ended mailbox uid w)).
    rewrite Hw. reflexivity.
Qed.

Lemma getMessageContent_raw_returns_the_delivered_bytes_witness :
  getMessageContent Demo.env Demo.render "7" FormatRaw true "INBOX" Demo.world0 =
  (Value (rawResult "7" "INBOX" (Demo.bytesOf "raw-7")
            (Some "/tmp/message-7-0a1b2c3d4e04.eml", Some 5)),
   request (AWriteFile "/tmp/message-7-0a1b2c3d4e04.eml" (Demo.bytesOf "raw-7"))
     (drawn (ended "INBOX" 7 Demo.world0))).
Proof.
  destruct (getMessageContent_raw_returns_the_delivered_bytes
              Demo.env Demo.render "7" "INBOX" Demo.world0 7
              [EvMessage [ChunkBuffer (Demo.bytesOf "raw-"); ChunkBuffer (Demo.bytesOf "7")]]
              [] eq_refl (conj eq_refl eq_refl) eq_refl eq_refl eq_refl eq_refl eq_refl
              eq_refl)
    as (_ & Hsave & _).
  apply Hsave. reflexivity.
Defined.

(** ** Which identifiers the single-identifier operation takes *)

Section HandlesOnly.

Variable E : Env.
Variable htmlToText : string -> string.

(** An identifier whose leading integer is positive and below 2^53 is
    fetched as that handle once the mailbox is open. *)
Lemma getMessageContent_fetches_leading_integer :
  forall id format saveRawToFile mailbox w z,
    leadingInteger id = Some z ->
    0 < z < 2 ^ 53 ->
    connectReply E (tick w) = Replied tt ->
    openBoxReply E (S (tick w)) mailbox true = Replied tt ->
    exists added,
      trace (snd (getMessageContent E htmlToText id format saveRawToFile mailbox w)) =
      (trace w ++ [AConnect; AOpenBox mailbox true; AFetch z peekOptions] ++ added)%list.
Proof.
  intros id format saveRawToFile mailbox w z Hl Hz Hc Ho.
  rewrite (getMessageContent_running E htmlToText id format saveRawToFile mailbox w z
             tt tt (parseInt10_leading id z Hl Hz) (proj1 Hz) Hc Ho).
  rewrite snd_awaitSettled.
  destruct (Extends_content_events (fun _ => True) E I (fun _ _ => I) htmlToText
              id format saveRawToFile mailbox z
              (fetchEvents E (S (S (tick w))) z peekOptions)
              ({| rawChunks := []; foundMessage := false; c_errorSeen := false;
                  c_endSeen := false; c_settled := None |}, fetching mailbox z w))
    as [(added & T & _) _].
  exists added. rewrite T. cbn [snd]. unfold fetching, opened.
  cbn [trace request setConnected setReadOnlyBox]. rewrite <- !app_assoc. reflexivity.
Qed.

End HandlesOnly.

(** C10, as amended.  [getMessageContent] reads its identifier with
    [Number.parseInt(id, 10)]: white space and a sign are skipped and the
    digits are read as far as they go.  When no digit is found there, or
    the integer read is not positive, the call throws
    [Invalid message id: <id>] and nothing has been requested from any
    collaborator, so no connection exists.  When the integer read is
    positive and below 2^53, whatever follows its digits, the identifier is
    taken for that handle, and the handle is fetched once the mailbox is
    open.  For no identifier at all does this path issue a search, so an
    address is never resolved. *)
Theorem getMessageContent_takes_handles_only :
  forall (E : Env) (htmlToText : string -> string) (id : string) (format : Format)
         (saveRawToFile : bool) (mailbox : string) (w : World),
    ((leadingInteger id = None \/ exists z, leadingInteger id = Some z /\ z <= 0) ->
     getMessageContent E htmlToText id format saveRawToFile mailbox w =
     (Throw (ErrorObject ("Invalid message id: " ++ id)), w))
    /\ (forall z,
          leadingInteger id = Some z ->
          0 < z < 2 ^ 53 ->
          connectReply E (tick w) = Replied tt ->
          openBoxReply E (S (tick w)) mailbox true = Replied tt ->
          exists added,
            trace (snd (getMessageContent E htmlToText id format saveRawToFile
                          mailbox w)) =
            (trace w ++ [AConnect; AOpenBox mailbox true; AFetch z peekOptions]
             ++ added)%list)
    /\ (exists added,
          trace (snd (getMessageContent E htmlToText id format saveRawToFile mailbox w))
          = (trace w ++ added)%list
          /\ forall header value, ~ In (ASearch header value) added).
Proof.
  intros E htmlToText id format save mailbox w. split; [|split].
  - intros Hnot. pose proof (parseInt10_not_positive id Hnot) as Hp.
    unfold getMessageContent.
    destruct (JS.parseInt10 id) as [|z| |]; simpl in *; try reflexivity.
    destruct (z <=? 0) eqn:Hz; [reflexivity|].
    apply Z.leb_gt in Hz. apply Z.ltb_ge in Hp. lia.
  - intros z Hl Hz Hc Ho.
    apply getMessageContent_fetches_leading_integer; assumption.
  - destruct (Keeps_getMessageContent notSearch E) with
      (htmlToText := htmlToText) (id := id) (format := format) (save := save)
      (mailbox := mailbox) (w := w) as [(added & T & F) _]; simpl; auto.
    exists added. split; [exact T|].
    intros header value Hin. rewrite Forall_forall in F.
    apply (F _ Hin).
Qed.

Lemma getMessageContent_takes_handles_only_witness :
  getMessageContent Demo.env Demo.render "<a@b>" FormatHtml false "INBOX" Demo.world0 =
    (Throw (ErrorObject "Invalid message id: <a@b>"), Demo.world0)
  /\ (exists added,
        trace (snd (getMessageContent Demo.env Demo.render "7@example.com" FormatRaw
                      false "INBOX" Demo.world0)) =
        (trace Demo.world0 ++ [AConnect; AOpenBox "INBOX" true; AFetch 7 peekOptions]
         ++ added)%list).
Proof.
  split.
  - apply (proj1 (getMessageContent_takes_handles_only
                    Demo.env Demo.render "<a@b>" FormatHtml false "INBOX" Demo.world0)).
    left. reflexivity.
  - apply (proj1 (proj2 (getMessageContent_takes_handles_only
                           Demo.env Demo.render "7@example.com" FormatRaw false "INBOX"
                           Demo.world0)) 7);
      [reflexivity | lia | reflexivity | reflexivity].
Defined.

(** C10 as stated fails on [7@example.com]: the string is not a base-10
    integer, yet the call does not throw [Invalid message id]; it connects,
    opens the mailbox and fetches the handle 7. *)
Lemma numeric_prefix_address_counterexample :
  claimedInvalidHandle "7@example.com" = true
  /\ fst (getMessageContent Demo.env Demo.render "7@example.com" FormatRaw false
            "INBOX" Demo.world0)
     <> Throw (ErrorObject "Invalid message id: 7@example.com")
  /\ trace (snd (getMessageContent Demo.env Demo.render "7@example.com" FormatRaw false
                   "INBOX" Demo.world0))
     = [AConnect; AOpenBox "INBOX" true; AFetch 7 peekOptions; AEnd].
Proof.
  split; [reflexivity | split; [|reflexivity]].
  vm_compute. discriminate.
Qed.

(** ** Round trips *)

Lemma digitChar_facts : forall d,
  0 <= d < 10 ->
  JS.isDigit (digitChar d) = true
  /\ JS.digitValue (digitChar d) = d
  /\ JS.isWhiteSpace (digitChar d) = false
  /\ Ascii.eqb (digitChar d) "-" = false
  /\ Ascii.eqb (digitChar d) "+" = false.
Proof.
  intros d Hd.
  assert (H : d = 0 \/ d = 1 \/ d = 2 \/ d = 3 \/ d = 4 \/ d = 5 \/ d = 6 \/ d = 7
              \/ d = 8 \/ d = 9) by lia.
  repeat (destruct H as [-> | H]; [repeat split|]); subst; repeat split.
Qed.

Lemma decimalDigits_read_back : forall fuel n acc seen a,
  0 <= n ->
  JS.digits (JS.decimalDigits fuel n acc) seen a =
  match fuel with
  | O => JS.digits acc seen a
  | S _ => JS.digits acc true (pushDigits fuel n a)
  end.
Proof.
  induction fuel as [|fuel IH]; intros n acc seen a Hn.
  - reflexivity.
  - cbn [JS.decimalDigits pushDigits].
    assert (Hm : 0 <= n mod 10 < 10) by (apply Z.mod_pos_bound; lia).
    destruct (digitChar_facts (n mod 10) Hm) as (Hd & Hv & _).
    fold (digitChar (n mod 10)).
    destruct (n <? 10) eqn:Hlt.
    + cbn [JS.digits]. rewrite Hd, Hv.
      apply Z.ltb_lt in Hlt. rewrite Z.mod_small by lia. reflexivity.
    + rewrite IH by (apply Z.div_pos; lia).
      destruct fuel as [|fuel']; cbn [JS.digits]; rewrite Hd, Hv; reflexivity.
Qed.

Lemma pushDigits_enough_fuel : forall fuel n,
  0 <= n < 2 ^ Z.of_nat fuel ->
  (0 < fuel)%nat ->
  pushDigits fuel n 0 = n.
Proof.
  induction fuel as [|fuel IH]; intros n Hn Hf; [lia|].
  cbn [pushDigits]. destruct (n <? 10) eqn:Hlt; [lia|].
  apply Z.ltb_ge in Hlt.
  assert (Hdiv : 0 <= n / 10 < 2 ^ Z.of_nat fuel).
  { split; [apply Z.div_pos; lia|].
    rewrite Nat2Z.inj_succ, Z.pow_succ_r in Hn by lia.
    apply Z.div_lt_upper_bound; lia. }
  assert (Hfuel : (0 < fuel)%nat).
  { destruct fuel; [|lia]. simpl in Hdiv.
    assert (n / 10 = 0) by lia.
    assert (1 <= n / 10) by (apply Z.div_le_lower_bound; lia). lia. }
  rewrite (IH _ Hdiv Hfuel).
  pose proof (Z.div_mod n 10). lia.
Qed.

Lemma decimal_starts_with_a_digit : forall fuel n acc,
  0 <= n ->
  exists d rest, JS.decimalDigits (S fuel) n acc = String (digitChar d) rest
                 /\ 0 <= d < 10.
Proof.
  induction fuel as [|fuel IH]; intros n acc Hn.
  - cbn [JS.decimalDigits]. fold (digitChar (n mod 10)).
    exists (n mod 10). eexists. split.
    + destruct (n <? 10); reflexivity.
    + apply Z.mod_pos_bound. lia.
  - change (JS.decimalDigits (S (S fuel)) n acc) with
      (let acc' := String (digitChar (n mod 10)) acc in
       if n <? 10 then acc' else JS.decimalDigits (S fuel) (n / 10) acc').
    cbv zeta. destruct (n <? 10).
    + exists (n mod 10). eexists. split; [reflexivity | apply Z.mod_pos_bound; lia].
    + apply IH. apply Z.div_pos; lia.
Qed.

(** What [parseInt] reads from the decimal writing of a positive integer
    below 2^53. *)
Lemma parseInt10_decimal : forall z,
  0 < z < 2 ^ 53 -> JS.parseInt10 (JS.decimal z) = JS.Num z.
Proof.
  intros z Hz. unfold JS.parseInt10, JS.decimal.
  destruct (decimal_starts_with_a_digit (Z.to_nat (Z.log2 z)) z "" ltac:(lia))
    as (d & rest & Hs & Hd).
  destruct (digitChar_facts d Hd) as (_ & _ & Hws & Hminus & Hplus).
  assert (Htrim : JS.trimStart (JS.decimalDigits (S (Z.to_nat (Z.log2 z))) z "") =
                  JS.decimalDigits (S (Z.to_nat (Z.log2 z))) z "").
  { rewrite Hs. cbn [JS.trimStart]. rewrite Hws. reflexivity. }
  rewrite Htrim.
  assert (Hsign : JS.sign (JS.decimalDigits (S (Z.to_nat (Z.log2 z))) z "") =
                  (false, JS.decimalDigits (S (Z.to_nat (Z.log2 z))) z "")).
  { rewrite Hs. unfold JS.sign. rewrite Hminus, Hplus. reflexivity. }
  rewrite Hsign.
  rewrite decimalDigits_read_back by lia.
  rewrite pushDigits_enough_fuel.
  - cbn [JS.digits]. unfold JS.toDouble.
    destruct (z <? 2 ^ 53) eqn:Hlt; [reflexivity|]. apply Z.ltb_ge in Hlt. lia.
  - split; [lia|].
    rewrite Nat2Z.inj_succ, Z2Nat.id by (apply Z.log2_nonneg).
    apply Z.log2_spec. lia.
  - lia.
Qed.

(** X11.  The [uid] of a found record can be given back as a handle-kind
    identifier: for every handle from 1 to 2^53 - 1 (every IMAP UID is far
    below), the string the records carry, [uid.toString()], is read by the
    batch operations and by [getMessageContent] as that same handle, without
    any search. *)
Theorem uid_string_reads_back_as_the_handle :
  forall (E : Env) (z : Z) (w : World),
    0 < z < 2 ^ 53 ->
    JS.parseInt10 (JS.Number_toString z) = JS.Num z
    /\ resolveUid E UidType (JS.Number_toString z) w = (Value (Some z), w).
Proof.
  intros E z w Hz.
  assert (Hp : JS.parseInt10 (JS.Number_toString z) = JS.Num z).
  { rewrite Number_toString_small by exact Hz. apply parseInt10_decimal. exact Hz. }
  split; [exact Hp|].
  rewrite resolveUid_handle, Hp. cbn [JS.isFinite JS.gt0 andb].
  assert (H0 : (0 <? z) = true) by (apply Z.ltb_lt; lia).
  rewrite H0. reflexivity.
Qed.

Lemma uid_string_reads_back_as_the_handle_witness :
  JS.parseInt10 (JS.Number_toString 4294967295) = JS.Num 4294967295
  /\ resolveUid Demo.env UidType (JS.Number_toString 4294967295) Demo.world0 =
     (Value (Some 4294967295), Demo.world0).
Proof.
  apply (uid_string_reads_back_as_the_handle Demo.env 4294967295 Demo.world0).
  split; reflexivity.
Defined.

(** ** Bytes and text *)

Lemma utf8_unit_decodes : forall c rest,
  JS.utf8_decode JS.utf8_idle (JS.utf8_encode_unit c ++ rest)%list =
  JS.code c :: JS.utf8_decode JS.utf8_idle rest.
Proof.
  intros [[] [] [] [] [] [] [] []] rest; reflexivity.
Qed.

Lemma utf8_string_decodes : forall s rest,
  JS.utf8_decode JS.utf8_idle (JS.Buffer_from_string s ++ rest)%list =
  (units s ++ JS.utf8_decode JS.utf8_idle rest)%list.
Proof.
  induction s as [|c s IH]; intros rest.
  - reflexivity.
  - cbn [JS.Buffer_from_string]. rewrite <- app_assoc, utf8_unit_decodes, IH.
    reflexivity.
Qed.

Lemma utf8_chunks_decode : forall ss rest,
  JS.utf8_decode JS.utf8_idle
    (JS.Buffer_concat (map coerce (map ChunkString ss)) ++ rest)%list =
  (List.concat (map units ss) ++ JS.utf8_decode JS.utf8_idle rest)%list.
Proof.
  induction ss as [|s ss IH]; intros rest.
  - reflexivity.
  - cbn [map coerce List.concat JS.Buffer_concat].
    change (List.concat (map coerce (map ChunkString ss)))
      with (JS.Buffer_concat (map coerce (map ChunkString ss))).
    rewrite <- !app_assoc, utf8_string_decodes, IH. reflexivity.
Qed.

(** X12.  Text delivered as string chunks survives the buffer: the chunks
    are stored as UTF-8 by [Buffer.from], and decoding the accumulated
    buffer as UTF-8, as the raw format and the inline placement do, gives
    back the code units of the strings, in order. *)
Theorem string_chunks_decode_to_their_text :
  forall ss : list string,
    JS.toString_utf8 (JS.Buffer_concat (map coerce (map ChunkString ss))) =
    List.concat (map units ss).
Proof.
  intros ss. unfold JS.toString_utf8.
  rewrite <- (app_nil_r (JS.Buffer_concat (map coerce (map ChunkString ss)))).
  rewrite utf8_chunks_decode. apply app_nil_r.
Qed.

Example string_chunk_with_accent_decodes :
  JS.toString_utf8 (coerce (ChunkString (String (ascii_of_N 233) "t" ++ "e"))) =
  [233; 116; 101]%N.
Proof. reflexivity. Qed.

(** ** Temporary files *)

Lemma hasSeparator_app : forall a b,
  hasSeparator (a ++ b) = hasSeparator a || hasSeparator b.
Proof.
  induction a as [|c a IH]; intros b; simpl; [reflexivity|].
  rewrite IH. rewrite !orb_assoc. reflexivity.
Qed.

Lemma replaceSeparators_has_none : forall s, hasSeparator (replaceSeparators s) = false.
Proof.
  induction s as [|c s IH]; simpl; [reflexivity|]. rewrite IH.
  destruct (Ascii.eqb c "\") eqn:B; [reflexivity|].
  destruct (Ascii.eqb c "/") eqn:F; [reflexivity|].
  simpl. rewrite B, F. reflexivity.
Qed.

Lemma replaceSeparators_truthy : forall s,
  JS.truthy (replaceSeparators s) = JS.truthy s.
Proof. intros [|c s]; reflexivity. Qed.

Lemma hex_of_byte_has_no_separator : forall b : byte,
  hasSeparator (toString_hex [b]) = false.
Proof. intros b. destruct b; reflexivity. Qed.

Lemma hex_has_no_separator : forall buf, hasSeparator (toString_hex buf) = false.
Proof.
  induction buf as [|b rest IH]; [reflexivity|].
  change (toString_hex (b :: rest)) with (toString_hex [b] ++ toString_hex rest).
  rewrite hasSeparator_app, hex_of_byte_has_no_separator, IH. reflexivity.
Qed.

(** X13.  An attachment is written exactly once, with exactly its bytes, to
    the file that [join] of node:path gives for the temporary directory and
    a single name: the name joined to [tmpdir] is the random token, a
    hyphen and the safe name, and it has no path separator, whatever the
    file name of the attachment is (the fall-back name is only used for an
    empty file name, and is separator-free when the handle string is).  The
    path returned is the path written. *)
Theorem writeAttachmentToTemp_writes_inside_tmpdir :
  forall (E : Env) (data : JS.Buffer) (fname uid : string) (w : World),
    JS.truthy fname = true \/ hasSeparator uid = false ->
    exists safeName,
      let name := toString_hex (randomBytes6 E (tick w)) ++ "-" ++ safeName in
      hasSeparator name = false
      /\ snd (writeAttachmentToTemp E data fname uid w) =
         request (AWriteFile (join E (tmpdir E) name) data) (drawn w)
      /\ forall path,
           fst (writeAttachmentToTemp E data fname uid w) = Value path ->
           path = join E (tmpdir E) name.
Proof.
  intros E data fname uid w H.
  set (token := toString_hex (randomBytes6 E (tick w))).
  set (safe := if JS.truthy (replaceSeparators fname) then replaceSeparators fname
               else "attachment-" ++ uid ++ "-" ++ token).
  exists safe. cbv zeta.
  assert (Hrun : writeAttachmentToTemp E data fname uid w =
                 match writeFileReply E (S (tick w))
                         (join E (tmpdir E) (token ++ "-" ++ safe)) data with
                 | Some e => (Throw e,
                              request (AWriteFile (join E (tmpdir E)
                                                     (token ++ "-" ++ safe)) data)
                                (drawn w))
                 | None => (Value (join E (tmpdir E) (token ++ "-" ++ safe)),
                            request (AWriteFile (join E (tmpdir E)
                                                   (token ++ "-" ++ safe)) data)
                              (drawn w))
                 end).
  { unfold writeAttachmentToTemp, bind, randomToken, fs_writeFile, ret.
    cbn [tick drawn]. fold token. fold safe.
    destruct (writeFileReply E (S (tick w)) _ data); reflexivity. }
  split; [|split].
  - rewrite !hasSeparator_app. unfold token at 1. rewrite hex_has_no_separator.
    cbn [hasSeparator Ascii.eqb orb]. unfold safe.
    rewrite replaceSeparators_truthy.
    destruct (JS.truthy fname) eqn:T.
    + apply replaceSeparators_has_none.
    + destruct H as [H | H]; [discriminate|].
      rewrite !hasSeparator_app, H. unfold token. rewrite hex_has_no_separator.
      reflexivity.
  - rewrite Hrun.
    destruct (writeFileReply E (S (tick w)) _ data); reflexivity.
  - intros path. rewrite Hrun.
    destruct (writeFileReply E (S (tick w)) _ data); simpl; intros Hp;
      [discriminate | injection Hp as <-; reflexivity].
Qed.

Lemma writeAttachmentToTemp_writes_inside_tmpdir_witness :
  exists safeName,
    let name := "0a1b2c3d4e00" ++ "-" ++ safeName in
    hasSeparator name = false
    /\ snd (writeAttachmentToTemp Demo.env (Demo.bytesOf "x") "../../etc/passwd" "7"
              Demo.world0) =
       request (AWriteFile (join Demo.env "/tmp" name) (Demo.bytesOf "x"))
         (drawn Demo.world0)
    /\ forall path,
         fst (writeAttachmentToTemp Demo.env (Demo.bytesOf "x") "../../etc/passwd" "7"
                Demo.world0) = Value path ->
         path = join Demo.env "/tmp" name.
Proof.
  apply (writeAttachmentToTemp_writes_inside_tmpdir
           Demo.env (Demo.bytesOf "x") "../../etc/passwd" "7" Demo.world0).
  left. reflexivity.
Defined.

Example traversal_name_is_flattened :
  fst (writeAttachmentToTemp Demo.env (Demo.bytesOf "x") "../../etc/passwd" "7"
         Demo.world0) = Value "/tmp/0a1b2c3d4e00-.._.._etc_passwd".
Proof. reflexivity. Qed.

(** ** trim *)

Lemma chars_trimStart : forall s,
  list_ascii_of_string (JS.trimStart s) = dropSpaces (list_ascii_of_string s).
Proof.
  induction s as [|c s IH]; simpl; [reflexivity|].
  destruct (JS.isWhiteSpace c); [exact IH | reflexivity].
Qed.

Lemma chars_reverse : forall s,
  list_ascii_of_string (JS.reverse s) = rev (list_ascii_of_string s).
Proof. intros s. unfold JS.reverse. apply list_ascii_of_string_of_list_ascii. Qed.

Lemma chars_trim : forall s,
  list_ascii_of_string (JS.trim s) =
  rev (dropSpaces (rev (dropSpaces (list_ascii_of_string s)))).
Proof.
  intros s. unfold JS.trim, JS.trimEnd.
  rewrite chars_reverse, chars_trimStart, chars_reverse, chars_trimStart.
  reflexivity.
Qed.

Lemma dropSpaces_startsClean : forall l, startsClean (dropSpaces l).
Proof.
  induction l as [|c l IH]; simpl; [exact I|].
  destruct (JS.isWhiteSpace c) eqn:W; [exact IH | exact W].
Qed.

Lemma dropSpaces_clean : forall l, startsClean l -> dropSpaces l = l.
Proof. intros [|c l] H; simpl in *; [reflexivity | rewrite H; reflexivity]. Qed.

Lemma dropSpaces_is_a_suffix : forall l, exists p, l = (p ++ dropSpaces l)%list.
Proof.
  induction l as [|c l [p Hp]]; simpl.
  - exists []. reflexivity.
  - destruct (JS.isWhiteSpace c).
    + exists (c :: p). simpl. f_equal. exact Hp.
    + exists []. reflexivity.
Qed.

(** What [trim] returns starts and ends clean. *)
Lemma trimmed_chars_are_clean : forall l,
  startsClean (rev (dropSpaces (rev (dropSpaces l))))
  /\ startsClean (rev (rev (dropSpaces (rev (dropSpaces l))))).
Proof.
  intros l. split.
  - pose proof (dropSpaces_startsClean l) as Ha.
    destruct (dropSpaces_is_a_suffix (rev (dropSpaces l))) as (p & Hp).
    apply (f_equal (@rev ascii)) in Hp. rewrite rev_involutive, rev_app_distr in Hp.
    destruct (rev (dropSpaces (rev (dropSpaces l)))) as [|c b]; [exact I|].
    rewrite Hp in Ha. exact Ha.
  - rewrite rev_involutive. apply dropSpaces_startsClean.
Qed.

Lemma trim_has_no_outer_space : forall s,
  startsWithSpace (JS.trim s) = false /\ endsWithSpace (JS.trim s) = false.
Proof.
  intros s.
  destruct (trimmed_chars_are_clean (list_ascii_of_string s)) as [H1 H2].
  rewrite <- chars_trim in H1, H2. rewrite <- chars_reverse in H2.
  unfold endsWithSpace. split.
  - destruct (JS.trim s); [reflexivity | exact H1].
  - destruct (JS.reverse (JS.trim s)); [reflexivity | exact H2].
Qed.

(** ** htmlToText *)

Lemma fold_is_not_tag_start : forall c,
  Ascii.eqb c "<" = false ->
  Ascii.eqb (Html.foldCase "<") (Html.foldCase c) = false.
Proof.
  intros [[] [] [] [] [] [] [] []] H; vm_compute in H; try discriminate H; reflexivity.
Qed.

Lemma fold_is_not_ampersand : forall c,
  Ascii.eqb c "&" = false ->
  Ascii.eqb (Html.foldCase "&") (Html.foldCase c) = false.
Proof.
  intros [[] [] [] [] [] [] [] []] H; vm_compute in H; try discriminate H; reflexivity.
Qed.

Lemma block_at_tag_only : forall opener closer,
  matchesAtTagOnly (Html.block (String "<" opener) closer).
Proof.
  intros opener closer c rest H. unfold Html.block. cbn [Html.literalAt].
  rewrite (fold_is_not_tag_start c H). reflexivity.
Qed.

Lemma literal_at_tag_only : forall pattern,
  matchesAtTagOnly (Html.literal (String "<" pattern)).
Proof.
  intros pattern c rest H. unfold Html.literal. cbn [Html.literalAt].
  rewrite (fold_is_not_tag_start c H). reflexivity.
Qed.

Lemma lineBreak_at_tag_only : matchesAtTagOnly Html.lineBreak.
Proof.
  intros c rest H. unfold Html.lineBreak. cbn [Html.literalAt].
  rewrite (fold_is_not_tag_start c H). reflexivity.
Qed.

Lemma tag_at_tag_only : matchesAtTagOnly Html.tag.
Proof. intros c rest H. unfold Html.tag. rewrite H. reflexivity. Qed.

Lemma literal_at_ampersand_only : forall pattern,
  matchesAtMarkupOnly (Html.literal (String "&" pattern)).
Proof.
  intros pattern c rest _ H. unfold Html.literal. cbn [Html.literalAt].
  rewrite (fold_is_not_ampersand c H). reflexivity.
Qed.

Lemma tag_only_is_markup_only : forall pattern,
  matchesAtTagOnly pattern -> matchesAtMarkupOnly pattern.
Proof. intros pattern H c rest Hc _. apply H. exact Hc. Qed.

(** A pass leaves text without markup as it is. *)
Lemma replace_plain : forall pattern replacement s,
  matchesAtMarkupOnly pattern ->
  plainText s = true ->
  Html.replace pattern replacement s = s.
Proof.
  intros pattern replacement s Hp. unfold Html.replace.
  induction s as [|c s IH]; intros Hs; [reflexivity|].
  cbn [plainText] in Hs. apply andb_true_iff in Hs. destruct Hs as [Hc Hs].
  apply andb_true_iff in Hc. destruct Hc as [Hlt Hamp].
  apply negb_true_iff in Hlt. apply negb_true_iff in Hamp.
  cbn [Html.replaceAll]. rewrite (Hp c s Hlt Hamp). rewrite (IH Hs). reflexivity.
Qed.

(** A pass copies what precedes the first [<]. *)
Lemma replace_before_tag : forall pattern replacement a x,
  matchesAtTagOnly pattern ->
  noTagStart a = true ->
  Html.replace pattern replacement (a ++ x) = a ++ Html.replace pattern replacement x.
Proof.
  intros pattern replacement a x Hp. unfold Html.replace.
  induction a as [|c a IH]; intros Ha; [reflexivity|].
  cbn [noTagStart] in Ha. apply andb_true_iff in Ha. destruct Ha as [Hc Ha].
  apply negb_true_iff in Hc.
  cbn [append Html.replaceAll]. rewrite (Hp c (a ++ x) Hc). rewrite (IH Ha).
  reflexivity.
Qed.

(** The characters of a match are passed over. *)
Lemma replaceAll_skips : forall pattern replacement u v,
  Html.replaceAll pattern replacement (u ++ v) (String.length u) =
  Html.replaceAll pattern replacement v O.
Proof.
  intros pattern replacement u v. induction u as [|c u IH]; [reflexivity|].
  cbn [append String.length Html.replaceAll]. exact IH.
Qed.

Lemma length_append : forall a b : string,
  String.length (a ++ b) = (String.length a + String.length b)%nat.
Proof.
  induction a as [|c a IH]; intros b; simpl; [reflexivity|]. rewrite IH. reflexivity.
Qed.

Lemma append_assoc : forall a b c : string, (a ++ b) ++ c = a ++ b ++ c.
Proof.
  induction a as [|ch a IH]; intros b c; simpl; [reflexivity|]. rewrite IH. reflexivity.
Qed.

(** A match is replaced, and the pass goes on after it. *)
Lemma replace_match : forall pattern replacement ch u v n,
  pattern (String ch (u ++ v)) = Some (S n) ->
  n = String.length u ->
  Html.replaceAll pattern replacement (String ch (u ++ v)) O =
  replacement ++ Html.replaceAll pattern replacement v O.
Proof.
  intros pattern replacement ch u v n Hm ->. cbn [Html.replaceAll]. rewrite Hm.
  rewrite replaceAll_skips. reflexivity.
Qed.

(** X14.  Text without markup is only trimmed: on a string that has neither
    [<] nor [&], [htmlToText] is [trim]. *)
Theorem htmlToText_of_plain_text_is_trim :
  forall s : string, plainText s = true -> Html.htmlToText s = JS.trim s.
Proof.
  intros s Hs. unfold Html.htmlToText, Html.decodeEntities, Html.stripTags,
    Html.breakLines, Html.breakParagraphs, Html.removeStyles, Html.removeScripts.
  rewrite (replace_plain _ _ s
             (tag_only_is_markup_only _ (block_at_tag_only "script" "</script>")) Hs).
  rewrite (replace_plain _ _ s
             (tag_only_is_markup_only _ (block_at_tag_only "style" "</style>")) Hs).
  rewrite (replace_plain _ _ s
             (tag_only_is_markup_only _ (literal_at_tag_only "/p>")) Hs).
  rewrite (replace_plain _ _ s (tag_only_is_markup_only _ lineBreak_at_tag_only) Hs).
  rewrite (replace_plain _ _ s (tag_only_is_markup_only _ tag_at_tag_only) Hs).
  rewrite (replace_plain _ _ s (literal_at_ampersand_only "nbsp;") Hs).
  rewrite (replace_plain _ _ s (literal_at_ampersand_only "amp;") Hs).
  rewrite (replace_plain _ _ s (literal_at_ampersand_only "lt;") Hs).
  rewrite (replace_plain _ _ s (literal_at_ampersand_only "gt;") Hs).
  rewrite (replace_plain _ _ s (literal_at_ampersand_only "quot;") Hs).
  rewrite (replace_plain _ _ s (literal_at_ampersand_only "#39;") Hs).
  reflexivity.
Qed.

Lemma htmlToText_of_plain_text_is_trim_witness :
  Html.htmlToText "  see attached  " = "see attached".
Proof.
  apply (htmlToText_of_plain_text_is_trim "  see attached  "). reflexivity.
Defined.

(** X15.  A script block is removed with everything in it: when no [<]
    precedes the block and [b] runs up to the first [</script>] after the
    opener, the text of [a <script b </script> c] is the text of [a c]. *)
Theorem htmlToText_removes_script_blocks :
  forall a b c : string,
    noTagStart a = true ->
    Html.find "</script>" (b ++ "</script>" ++ c) = Some (String.length b) ->
    Html.htmlToText (a ++ "<script" ++ b ++ "</script>" ++ c) =
    Html.htmlToText (a ++ c).
Proof.
  intros a b c Ha Hb.
  assert (Hpass : Html.removeScripts (a ++ "<script" ++ b ++ "</script>" ++ c) =
                  Html.removeScripts (a ++ c)).
  { unfold Html.removeScripts.
    rewrite !(replace_before_tag _ _ a _ (block_at_tag_only "script" "</script>") Ha).
    f_equal. unfold Html.replace.
    assert (Hm : Html.block "<script" "</script>"
                   (String "<" (("script" ++ b ++ "</script>") ++ c)) =
                 Some (S (String.length ("script" ++ b ++ "</script>")))).
    { rewrite !append_assoc.
      change (String "<" ("script" ++ b ++ "</script>" ++ c))
        with ("<script" ++ b ++ "</script>" ++ c).
      unfold Html.block.
      change (Html.literalAt "<script" ("<script" ++ b ++ "</script>" ++ c)) with true.
      change (Html.drop (String.length "<script") ("<script" ++ b ++ "</script>" ++ c))
        with (b ++ "</script>" ++ c).
      cbv iota. rewrite Hb. rewrite !length_append. cbn [String.length]. f_equal. }
    change ("<script" ++ b ++ "</script>" ++ c)
      with (String "<" ("script" ++ b ++ "</script>" ++ c)).
    replace ("script" ++ b ++ "</script>" ++ c)
      with (("script" ++ b ++ "</script>") ++ c) by (rewrite !append_assoc; reflexivity).
    apply (replace_match _ "" "<" ("script" ++ b ++ "</script>") c _ Hm).
    reflexivity. }
  unfold Html.htmlToText. rewrite Hpass. reflexivity.
Qed.

Lemma htmlToText_removes_script_blocks_witness :
  Html.htmlToText "Hi <script>if (a<b) alert(1)</script>there" =
  Html.htmlToText "Hi there".
Proof.
  apply (htmlToText_removes_script_blocks "Hi " ">if (a<b) alert(1)" "there");
    reflexivity.
Defined.

(** The text [htmlToText] returns neither starts nor ends with white
    space. *)
Lemma htmlToText_has_no_outer_white_space :
  forall html : string,
    startsWithSpace (Html.htmlToText html) = false
    /\ endsWithSpace (Html.htmlToText html) = false.
Proof. intros html. unfold Html.htmlToText. apply trim_has_no_outer_space. Qed.

Example htmlToText_page :
  Html.htmlToText
    "<html><style>p{color:red}</style><p>Tom &amp; Jerry</P><BR/>1 &lt; 2<br >bye</html> "
  = ("Tom & Jerry" ++ Html.LF ++ Html.LF ++ Html.LF ++ "1 < 2" ++ Html.LF ++ "bye").
Proof. reflexivity. Qed.

(** ** The configuration loader *)

Lemma orUndefined_truthy : forall x s, JS.orUndefined x = Some s -> JS.truthy s = true.
Proof.
  intros [v|] s H; simpl in H; [|discriminate H].
  destruct (JS.truthy v) eqn:T; [|discriminate H]. injection H as <-. exact T.
Qed.

Lemma truthy_not_empty : forall s, JS.truthy s = true -> s <> "".
Proof. intros s H ->. discriminate H. Qed.

Lemma orElse_not_empty : forall x d, d <> "" -> JS.orElse x d <> "".
Proof.
  intros x d Hd. unfold JS.orElse. destruct (JS.orUndefined x) as [s|] eqn:Hx.
  - apply truthy_not_empty. exact (orUndefined_truthy _ _ Hx).
  - exact Hd.
Qed.

Lemma port_is_positive : forall P name fallback z,
  Config.port P name fallback = inr z -> 0 < z.
Proof.
  intros P name fallback z. unfold Config.port.
  destruct (JS.parseInt10 (JS.orElse (Config.env P name) fallback)) as [|n| |];
    simpl; try discriminate.
  destruct (n <=? 0) eqn:Hn; [discriminate|].
  intros H. injection H as <-. apply Z.leb_gt. exact Hn.
Qed.

Lemma readSecretFile_is_trimmed : forall P path value,
  Config.readSecretFile P path = inr value ->
  JS.truthy value = true /\ exists text, value = JS.trim text.
Proof.
  intros P path value. unfold Config.readSecretFile.
  destruct (Config.readFileSync P path) as [e|text]; [discriminate|].
  destruct (JS.truthy (JS.trim text)) eqn:T; simpl; [|discriminate].
  intros H. injection H as <-. split; [exact T | exists text; reflexivity].
Qed.

Lemma orUndefined_trim : forall x s,
  JS.orUndefined (option_map JS.trim x) = Some s -> exists text, s = JS.trim text.
Proof.
  intros [v|] s H; simpl in H; [|discriminate H].
  destruct (JS.truthy (JS.trim v)); [|discriminate H].
  injection H as <-. exists v. reflexivity.
Qed.

Lemma requirePassword_is_trimmed : forall P value,
  Config.requirePassword P = inr value ->
  JS.truthy value = true /\ exists text, value = JS.trim text.
Proof.
  intros P value. unfold Config.requirePassword.
  destruct (JS.orUndefined (option_map JS.trim (Config.env P "EMAIL_PASSWORD")))
    as [direct|] eqn:Hd.
  - intros H. injection H as <-. split.
    + exact (orUndefined_truthy _ _ Hd).
    + exact (orUndefined_trim _ _ Hd).
  - destruct (JS.orUndefined (option_map JS.trim (Config.env P "EMAIL_PASSWORD_FILE")))
      as [filePath|]; [|discriminate].
    apply readSecretFile_is_trimmed.
Qed.

(** X16.  A configuration that [loadConfigFromEnv] returns is usable: the
    address is the non-empty value of [EMAIL_ADDRESS]; the password is
    non-empty and has no white space around it; both hosts are non-empty
    and both ports are positive.  In every other case the loader throws. *)
Theorem loadConfigFromEnv_returns_a_usable_configuration :
  forall (P : Config.Process) (cfg : Config.EmailMcpEnvConfig),
    Config.loadConfigFromEnv P = inr cfg ->
    Config.env P "EMAIL_ADDRESS" = Some (Config.emailAddress cfg)
    /\ Config.emailAddress cfg <> ""
    /\ Config.emailPassword cfg <> ""
    /\ startsWithSpace (Config.emailPassword cfg) = false
    /\ endsWithSpace (Config.emailPassword cfg) = false
    /\ Config.imapHost cfg <> "" /\ 0 < Config.imapPort cfg
    /\ Config.smtpHost cfg <> "" /\ 0 < Config.smtpPort cfg.
Proof.
  intros P cfg. unfold Config.loadConfigFromEnv.
  destruct (Config.requireEnv P "EMAIL_ADDRESS") as [e|address] eqn:Ha; [discriminate|].
  destruct (Config.requirePassword P) as [e|password] eqn:Hp; [discriminate|].
  destruct (Config.port P "IMAP_PORT" "993") as [e|imap] eqn:Hi; [discriminate|].
  destruct (Config.port P "SMTP_PORT" "587") as [e|smtp] eqn:Hs; [discriminate|].
  intros H. injection H as <-. cbn [Config.emailAddress Config.emailPassword
    Config.imapHost Config.imapPort Config.smtpHost Config.smtpPort].
  unfold Config.requireEnv in Ha.
  destruct (Config.env P "EMAIL_ADDRESS") as [v|] eqn:Hv; simpl in Ha; [|discriminate Ha].
  destruct (JS.truthy v) eqn:Tv; [|discriminate Ha]. injection Ha as <-.
  destruct (requirePassword_is_trimmed P password Hp) as (Tp & text & ->).
  destruct (trim_has_no_outer_space text) as [S1 S2].
  repeat split.
  - apply truthy_not_empty. exact Tv.
  - apply truthy_not_empty. exact Tp.
  - exact S1.
  - exact S2.
  - apply orElse_not_empty. discriminate.
  - exact (port_is_positive _ _ _ _ Hi).
  - apply orElse_not_empty. discriminate.
  - exact (port_is_positive _ _ _ _ Hs).
Qed.

Lemma loadConfigFromEnv_returns_a_usable_configuration_witness :
  Config.env processWithPassword "EMAIL_ADDRESS" =
    Some (Config.emailAddress configWithPassword)
  /\ Config.emailAddress configWithPassword <> ""
  /\ Config.emailPassword configWithPassword <> ""
  /\ startsWithSpace (Config.emailPassword configWithPassword) = false
  /\ endsWithSpace (Config.emailPassword configWithPassword) = false
  /\ Config.imapHost configWithPassword <> "" /\ 0 < Config.imapPort configWithPassword
  /\ Config.smtpHost configWithPassword <> "" /\ 0 < Config.smtpPort configWithPassword.
Proof.
  apply (loadConfigFromEnv_returns_a_usable_configuration processWithPassword
           configWithPassword).
  reflexivity.
Defined.

(** X17.  A password given in [EMAIL_PASSWORD] is used, trimmed, and the
    secret file is not read: whatever [readFileSync] would do, the loader
    returns the same. *)
Theorem direct_password_is_used_without_reading_the_file :
  forall (P : Config.Process) (read : string -> Thrown + string) (value : string),
    Config.env P "EMAIL_PASSWORD" = Some value ->
    JS.trim value <> "" ->
    Config.requirePassword P = inr (JS.trim value)
    /\ Config.loadConfigFromEnv
         {| Config.env := Config.env P; Config.readFileSync := read |}
       = Config.loadConfigFromEnv P.
Proof.
  intros P read value Hv Ht.
  assert (T : JS.truthy (JS.trim value) = true).
  { destruct (JS.trim value); [contradiction | reflexivity]. }
  assert (Hp : forall Q, Config.env Q = Config.env P ->
                         Config.requirePassword Q = inr (JS.trim value)).
  { intros Q HQ. unfold Config.requirePassword. rewrite HQ, Hv. simpl. rewrite T.
    reflexivity. }
  split; [apply Hp; reflexivity|].
  unfold Config.loadConfigFromEnv.
  rewrite (Hp {| Config.env := Config.env P; Config.readFileSync := read |} eq_refl).
  rewrite (Hp P eq_refl). reflexivity.
Qed.

Lemma direct_password_is_used_without_reading_the_file_witness :
  Config.requirePassword processWithPassword = inr "s3cret".
Proof.
  apply (direct_password_is_used_without_reading_the_file processWithPassword
           (fun _ => inr "other") " s3cret " eq_refl).
  discriminate.
Defined.

Example loadConfigFromEnv_defaults :
  Config.loadConfigFromEnv
    (processOf [("EMAIL_ADDRESS", "me@example.com"); ("EMAIL_PASSWORD", "pw")]) =
  inr {| Config.emailAddress := "me@example.com"; Config.emailPassword := "pw";
         Config.imapHost := "imap.gmail.com"; Config.imapPort := 993;
         Config.smtpHost := "smtp.gmail.com"; Config.smtpPort := 587 |}.
Proof. reflexivity. Qed.

Example loadConfigFromEnv_bad_port :
  Config.loadConfigFromEnv
    (processOf [("EMAIL_ADDRESS", "me@example.com"); ("EMAIL_PASSWORD", "pw");
                ("SMTP_PORT", "smtp")]) =
  inl (ErrorObject "Invalid SMTP_PORT: smtp").
Proof. reflexivity. Qed.

Example loadConfigFromEnv_blank_password :
  Config.loadConfigFromEnv
    (processOf [("EMAIL_ADDRESS", "me@example.com"); ("EMAIL_PASSWORD", "   ")]) =
  inl (ErrorObject "Missing EMAIL_PASSWORD or EMAIL_PASSWORD_FILE").
Proof. reflexivity. Qed.

(** ** The sessions of the batch operations *)

Section Sessions.

Variable E : Env.

Lemma compiles_builds : forall filter w,
  compiles E filter ->
  exists p w1,
    buildAttachmentPredicate E filter w = (Value p, w1)
    /\ trace w1 = trace w /\ connected w1 = connected w /\ tick w1 = tick w.
Proof.
  intros [f|] w H; unfold compiles in H; unfold buildAttachmentPredicate.
  - destruct (JS.orUndefined (nameRegex f)) as [source|].
    + unfold JS.RegExp_new. rewrite H. eexists. eexists.
      split; [reflexivity | repeat split].
    + eexists. eexists. split; [reflexivity | repeat split].
  - eexists. eexists. split; [reflexivity | repeat split].
Qed.





End Sessions.



(** ** The operations of the server *)

(** X19.  A pattern that [new RegExp] rejects makes the download operation
    fail at once: it throws [Failed to download attachments: Invalid
    nameRegex: <reason>] and the world is as it was, so no connection was
    made and nothing was requested. *)
Theorem invalid_pattern_fails_before_connecting :
  forall (E : Env) (params : DownloadAttachmentsParams) (f : AttachmentFilterParams)
         (source reason : string) (w : World),
    da_filter params = Some f ->
    JS.orUndefined (nameRegex f) = Some source ->
    JS.syntaxError (matcher E) source (JS.orElse (nameRegexFlags f) "") = Some reason ->
    EmailOperations.downloadAttachments E params w =
    (Throw (ErrorObject ("Failed to download attachments: Invalid nameRegex: " ++ reason)),
     w).
Proof.
  intros E params f source reason w Hf Hs Hr.
  unfold EmailOperations.downloadAttachments, tryCatch, downloadAttachments, bind.
  rewrite Hf. unfold buildAttachmentPredicate. rewrite Hs.
  unfold JS.RegExp_new. rewrite Hr. reflexivity.
Qed.

Lemma invalid_pattern_fails_before_connecting_witness :
  EmailOperations.downloadAttachments Demo.env (downloadSeven (Some byBrokenPattern))
    Demo.world0 =
  (Throw (ErrorObject
     "Failed to download attachments: Invalid nameRegex: Invalid regular expression: /(/: Unterminated group"),
   Demo.world0).
Proof.
  apply (invalid_pattern_fails_before_connecting Demo.env
           (downloadSeven (Some byBrokenPattern)) byBrokenPattern "("
           "Invalid regular expression: /(/: Unterminated group" Demo.world0);
    reflexivity.
Defined.

(** X20.  A refused connection is reported by each read operation of the
    server under its own message: the operation throws an [Error] whose
    message is that of the operation followed by the message of the cause,
    and [connect] is the only request it made. *)
Theorem refused_connection_is_reported_by_each_operation :
  forall (E : Env) (cause : Thrown) (w : World)
         (get : GetMessageParams) (download : DownloadAttachmentsParams)
         (peek : PeekMessageParams),
    connectReply E (tick w) = Failed cause ->
    parsesAsPositiveInteger (gm_id get) ->
    compiles E (da_filter download) ->
    reportsRefusal "Failed to fetch message content: " cause w
      (EmailOperations.getMessage E get w)
    /\ reportsRefusal "Failed to download attachments: " cause w
         (EmailOperations.downloadAttachments E download w)
    /\ reportsRefusal "Failed to peek messages: " cause w
         (EmailOperations.peekMessages E peek w).
Proof.
  intros E cause w get download peek Hc (z & Hz & Hpos) Hf.
  unfold reportsRefusal. repeat split.
  all: try (unfold EmailOperations.getMessage, tryCatch, getMessageContent, bind;
            rewrite Hz; simpl;
            replace (z <=? 0) with false by (symmetry; apply Z.leb_gt; exact Hpos);
            unfold imap_connect; rewrite Hc; reflexivity).
  all: try (unfold EmailOperations.peekMessages, tryCatch, peekMessages, bind,
              imap_connect; rewrite Hc; reflexivity).
  all: destruct (compiles_builds E (da_filter download) w Hf)
         as (p & w1 & Hb & T1 & C1 & K1);
       unfold EmailOperations.downloadAttachments, tryCatch, downloadAttachments, bind,
         imap_connect;
       rewrite Hb, K1, Hc; simpl; congruence.
Qed.

Lemma refused_connection_is_reported_by_each_operation_witness :
  reportsRefusal "Failed to fetch message content: "
    (ErrorObject "connect ECONNREFUSED") Demo.world0
    (EmailOperations.getMessage Offline.env getSeven Demo.world0)
  /\ reportsRefusal "Failed to download attachments: "
       (ErrorObject "connect ECONNREFUSED") Demo.world0
       (EmailOperations.downloadAttachments Offline.env
          (downloadSeven (Some Demo.byGlobalPattern)) Demo.world0)
  /\ reportsRefusal "Failed to peek messages: "
       (ErrorObject "connect ECONNREFUSED") Demo.world0
       (EmailOperations.peekMessages Offline.env peekSeven Demo.world0).
Proof.
  apply (refused_connection_is_reported_by_each_operation Offline.env
           (ErrorObject "connect ECONNREFUSED") Demo.world0 getSeven
           (downloadSeven (Some Demo.byGlobalPattern)) peekSeven).
  - reflexivity.
  - exists 7. split; [reflexivity | lia].
  - reflexivity.
Defined.
